(** * wasmoon: the host/guest value bridge of [thread.ts] and [global.ts]

    A shallow embedding of the two TypeScript classes [Thread] and [Global]
    and of the allocator closure that [Global]'s constructor installs.
    Host (JavaScript) values, the host heap, the emscripten function table
    and the Lua stack machine are explicit state; every method is a
    function on that state. *)

From Stdlib Require Import ZArith Lia Bool.
From stdpp Require Import base option gmap strings list fin_maps pretty.

Open Scope Z_scope.

(** ** The allocator closure of [Global]'s constructor (global.ts, 19-41) *)

Module Allocator.

(** [interface LuaMemoryStats { memoryUsed: number; memoryMax?: number }] *)
Record LuaMemoryStats := mkStats {
  memoryUsed : Z;
  memoryMax : option Z
}.

(** The two emscripten heap entry points the closure calls. *)
Inductive HeapCall :=
| Free (pointer : Z)
| Realloc (pointer newSize : Z).

(** JavaScript truthiness of a number ([pointer], [reallocated]) and of the
    optional [memoryMax] ([undefined] and [0] are both falsy). *)
Definition truthy (n : Z) : bool := negb (n =? 0).

Definition truthy_opt (o : option Z) : bool :=
  match o with Some n => truthy n | None => false end.

(** [endMemory > memoryStats.memoryMax]; only evaluated when [memoryMax] is
    truthy. *)
Definition exceeds (endMemory : Z) (o : option Z) : bool :=
  match o with Some m => m <? endMemory | None => false end.

(** The closure [(_userData, pointer, oldSize, newSize) => number | null].
    [realloc] stands for [cmodule.module._realloc]; the result is the new
    statistics, the returned value ([None] is [null]) and the heap calls that
    were issued. *)
Definition allocator (realloc : Z -> Z -> Z) (memoryStats : LuaMemoryStats)
    (pointer oldSize newSize : Z) : LuaMemoryStats * option Z * list HeapCall :=
  if (newSize =? 0) && truthy pointer then
    (memoryStats, None, [Free pointer])
  else
    let increasing := truthy pointer || (oldSize <? newSize) in
    let endMemoryDelta := if truthy pointer then newSize - oldSize else newSize in
    let endMemory := memoryUsed memoryStats + endMemoryDelta in
    if increasing && truthy_opt (memoryMax memoryStats)
       && exceeds endMemory (memoryMax memoryStats) then
      (memoryStats, None, [])
    else
      let reallocated := realloc pointer newSize in
      let memoryStats' :=
        if truthy reallocated
        then mkStats endMemory (memoryMax memoryStats)
        else memoryStats in
      (memoryStats', Some reallocated, [Realloc pointer newSize]).

(** [setMemoryMax(max)] *)
Definition setMemoryMax (max : option Z) (memoryStats : LuaMemoryStats) : LuaMemoryStats :=
  mkStats (memoryUsed memoryStats) max.

(** One allocator request as the guest VM issues it. *)
Record Request := mkRequest {
  req_pointer : Z;
  req_oldSize : Z;
  req_newSize : Z
}.

(** A request the ceiling test looks at with a meaningful size comparison:
    the new size is larger than the old one. *)
Definition growing (r : Request) : Prop := req_oldSize r < req_newSize r.

(** The tracked usage the request would lead to. *)
Definition usage_after (memoryStats : LuaMemoryStats) (r : Request) : Z :=
  memoryUsed memoryStats
  + (if truthy (req_pointer r) then req_newSize r - req_oldSize r else req_newSize r).

Definition serve (realloc : Z -> Z -> Z) (memoryStats : LuaMemoryStats) (r : Request) :=
  allocator realloc memoryStats (req_pointer r) (req_oldSize r) (req_newSize r).

(** A sequence of requests served one after the other. *)
Fixpoint serve_all (realloc : Z -> Z -> Z) (memoryStats : LuaMemoryStats)
    (rs : list Request) : LuaMemoryStats :=
  match rs with
  | [] => memoryStats
  | r :: rs' => serve_all realloc (fst (fst (serve realloc memoryStats r))) rs'
  end.

(** A request on an existing block or a growing request: the ones for which
    [increasing] is true. *)
Definition checked (r : Request) : Prop :=
  req_pointer r <> 0 \/ growing r.

End Allocator.

(** ** Host (JavaScript) values *)

(** A JavaScript number: [Number.isInteger] holds exactly of [Integral];
    every other double (fractions, [NaN], the infinities) is identified by
    its canonical rendering, the string [String(n)] returns. *)
Inductive JsNumber :=
| Integral (z : Z)
| Fractional (repr : string).

(** Host values.  Objects and functions have identity: they are references
    into the host heap.  [HPointer] is an instance of the [Pointer] wrapper
    class ([new Pointer(n)]).  A string is the sequence of the bytes of its
    UTF-8 encoding, which is how it crosses to the VM. *)
Inductive HostValue :=
| HUndefined
| HNull
| HNumber (n : JsNumber)
| HString (s : string)
| HBoolean (b : bool)
| HSymbol (description : string)
| HBigInt (z : Z)
| HObject (o : Z)
| HFunction (f : Z)
| HPointer (p : Z).

Global Instance JsNumber_eq_dec : EqDecision JsNumber.
Proof. solve_decision. Defined.

Global Instance HostValue_eq_dec : EqDecision HostValue.
Proof. solve_decision. Defined.

(** [typeof target] *)
Definition typeof (v : HostValue) : string :=
  match v with
  | HUndefined => "undefined"
  | HNull => "object"
  | HNumber _ => "number"
  | HString _ => "string"
  | HBoolean _ => "boolean"
  | HSymbol _ => "symbol"
  | HBigInt _ => "bigint"
  | HObject _ => "object"
  | HFunction _ => "function"
  | HPointer _ => "object"
  end.

(** The primitive host values of the round-trip property. *)
Definition primitive (v : HostValue) : Prop :=
  match v with
  | HUndefined | HNull | HNumber _ | HString _ | HBoolean _ => True
  | _ => False
  end.

(** The types [pushValue] has a branch for. *)
Definition supported (v : HostValue) : bool :=
  match v with
  | HSymbol _ | HBigInt _ => false
  | _ => true
  end.

(** Eventual settlement of a host deferred result. *)
Inductive Settlement :=
| Fulfilled (v : HostValue)
| Rejected (e : HostValue)
| Pending.

(** How a promise object comes to settle: on its own, or as
    [result.then(asyncResult => { results = asyncResult })], which stores the
    fulfilment value of [source] in the captured variable [results] (a cell
    of the host heap) and passes a rejection of [source] on. *)
Inductive PromiseKind :=
| Settles (s : Settlement)
| ThenStore (source : Z) (results : Z).

(** The fields of a [Thread] object; [global] holds the additional fields of
    a [Global]: functionGcPointer, jsRefGcPointer, promiseGcPointer and
    allocatorFunctionPointer. *)
Record GlobalFields := mkGlobal {
  functionGcPointer : Z;
  jsRefGcPointer : Z;
  promiseGcPointer : Z;
  allocatorFunctionPointer : Z
}.

Record ThreadFields := mkThread {
  address : Z;
  closed : bool;
  parent : option Z;
  continuance : option Z;
  global : option GlobalFields
}.

(** Objects of the host heap. *)
Inductive HostObject :=
| OArray (elems : list HostValue)
| OMultiReturn (elems : list HostValue)
| OPlain (props : list (string * HostValue))   (* in the order of enumeration *)
| ODecoration (target options : HostValue)
| OThread (t : ThreadFields)
| OPromise (k : PromiseKind)
| OCell (contents : HostValue)
| OFunction (source : string)
| OLuaFunction (this : Z) (func : Z).

(** ** The guest VM as a stack machine *)

(** [enum LuaType] with the numeric codes of the Lua C API. *)
Inductive LuaType :=
| TNone | TNil | TBoolean | TLightUserData | TNumber | TString
| TTable | TFunction | TUserData | TThread.

Definition LuaType_code (t : LuaType) : Z :=
  match t with
  | TNone => -1 | TNil => 0 | TBoolean => 1 | TLightUserData => 2
  | TNumber => 3 | TString => 4 | TTable => 5 | TFunction => 6
  | TUserData => 7 | TThread => 8
  end.

Global Instance LuaType_eq_dec : EqDecision LuaType.
Proof. solve_decision. Defined.

(** [enum LuaReturn] *)
Inductive LuaReturn :=
| ROk | RYield | RErrorRun | RErrorSyntax | RErrorMem | RErrorErr | RErrorFile.

Global Instance LuaReturn_eq_dec : EqDecision LuaReturn.
Proof. solve_decision. Defined.

(** [interface LuaResumeResult { result: LuaReturn; resultCount: number }] *)
Record LuaResumeResult := mkResume {
  result : LuaReturn;
  resultCount : Z
}.

(** [enum LuaMetatables] *)
Inductive LuaMetatables := FunctionReference | JsReference | PromiseMt.

Global Instance LuaMetatables_eq_dec : EqDecision LuaMetatables.
Proof. solve_decision. Defined.

Definition LuaMetatables_name (m : LuaMetatables) : string :=
  match m with
  | FunctionReference => "function_reference"
  | JsReference => "js_reference"
  | PromiseMt => "promise"
  end.

(** A value in a stack slot.  Collectable values are addresses into the
    VM's object store, which is what [lua_topointer] returns. *)
Inductive LuaValue :=
| LNil
| LBoolean (b : bool)
| LInteger (z : Z)
| LNumber (repr : string)
| LString (s : string)
| LTable (p : Z)
| LFunction (p : Z)
| LUserData (p : Z)
| LThread (l : Z)
| LLightUserData (p : Z).

Global Instance LuaValue_eq_dec : EqDecision LuaValue.
Proof. solve_decision. Defined.

(** Objects of the VM's store. *)
Inductive LuaObject :=
| VTable (entries : list (LuaValue * LuaValue)) (metatable : option Z)
| VUserData (word : Z) (metatable : option Z)
| VCClosure (fn : Z) (upvalues : list LuaValue)
| VLuaFunction.

(** ** The function table of the emscripten module *)

(** What [pushValue] needs of its [options] inside the callback. *)
Record CallbackOptions := mkCallbackOptions {
  cb_raw : bool;
  cb_await : bool
}.

(** A native callable added with [cmodule.module.addFunction]: the closures
    of global.ts and of thread.ts, each with the variables it captures. *)
Inductive NativeCallable :=
| NAllocator
| NFunctionGc
| NJsRefGc
| NPromiseGc
| NHostFunction (this : Z) (target : HostValue) (decorations : option HostValue)
                (options : CallbackOptions)
| NContinuance (this : Z) (calledL : Z) (raw : bool) (results : Z).

(** ** State *)

(** Calls into the outside world that the claims speak about. *)
Inductive Event :=
| EAddFunction (pointer : Z)
| ERemoveFunction (pointer : Z)
| EResume (L : Z) (argCount : Z)
| EYield (L : Z) (nresults : Z) (k ctx : Z)
| EClose (L : Z).

Global Instance Event_eq_dec : EqDecision Event.
Proof. solve_decision. Defined.

Record State := mkState {
  stacks : gmap Z (list LuaValue);
  objects : gmap Z LuaObject;
  metatables : gmap string Z;
  registry : gmap Z LuaValue;
  globals : gmap string LuaValue;
  fn_table : gmap Z NativeCallable;
  refs : gmap Z HostValue;
  heap : gmap Z HostObject;
  trace : list Event
}.

Definition set_stacks (f : gmap Z (list LuaValue) -> gmap Z (list LuaValue)) (s : State) : State :=
  mkState (f (stacks s)) (objects s) (metatables s) (registry s) (globals s)
          (fn_table s) (refs s) (heap s) (trace s).

Definition set_objects (f : gmap Z LuaObject -> gmap Z LuaObject) (s : State) : State :=
  mkState (stacks s) (f (objects s)) (metatables s) (registry s) (globals s)
          (fn_table s) (refs s) (heap s) (trace s).

Definition set_metatables (f : gmap string Z -> gmap string Z) (s : State) : State :=
  mkState (stacks s) (objects s) (f (metatables s)) (registry s) (globals s)
          (fn_table s) (refs s) (heap s) (trace s).

Definition set_registry (f : gmap Z LuaValue -> gmap Z LuaValue) (s : State) : State :=
  mkState (stacks s) (objects s) (metatables s) (f (registry s)) (globals s)
          (fn_table s) (refs s) (heap s) (trace s).

Definition set_globals (f : gmap string LuaValue -> gmap string LuaValue) (s : State) : State :=
  mkState (stacks s) (objects s) (metatables s) (registry s) (f (globals s))
          (fn_table s) (refs s) (heap s) (trace s).

Definition set_fn_table (f : gmap Z NativeCallable -> gmap Z NativeCallable) (s : State) : State :=
  mkState (stacks s) (objects s) (metatables s) (registry s) (globals s)
          (f (fn_table s)) (refs s) (heap s) (trace s).

Definition set_refs (f : gmap Z HostValue -> gmap Z HostValue) (s : State) : State :=
  mkState (stacks s) (objects s) (metatables s) (registry s) (globals s)
          (fn_table s) (f (refs s)) (heap s) (trace s).

Definition set_heap (f : gmap Z HostObject -> gmap Z HostObject) (s : State) : State :=
  mkState (stacks s) (objects s) (metatables s) (registry s) (globals s)
          (fn_table s) (refs s) (f (heap s)) (trace s).

Definition emit (e : Event) (s : State) : State :=
  mkState (stacks s) (objects s) (metatables s) (registry s) (globals s)
          (fn_table s) (refs s) (heap s) (trace s ++ [e]).

(** ** Errors and the state monad *)

(** The errors thread.ts throws, the RangeError of [new Array(n)] and a
    rejection surfaced by [await]. *)
Inductive JsError :=
| IndexMustBeNonZero
| UnsupportedType (type : string)
| MetatableNotFound (name : LuaMetatables)
| LuaError (code : LuaReturn) (message : option string)
| NotAFunction (type : LuaType)
| MustReturnNumber
| MustReturnPromiseOfNumber
| InvalidArrayLength
| Rejection (payload : HostValue).

(** Ways a call does not return a value: a thrown error; [Stuck], the state
    is outside what the VM interface defines (an index no slot answers to, a
    handle nothing was allocated for); [OutOfFuel], the bound on the
    recursion depth was reached; [Hang], an awaited result never settles. *)
Inductive Failure :=
| Throw (e : JsError)
| Stuck
| OutOfFuel
| Hang.

Inductive Outcome (A : Type) :=
| Ok (a : A)
| Fail (f : Failure).

Arguments Ok {A} a.
Arguments Fail {A} f.

Definition M (A : Type) : Type := State -> State * Outcome A.

Definition ret {A} (a : A) : M A := fun s => (s, Ok a).

Definition bind {A B} (m : M A) (k : A -> M B) : M B :=
  fun s =>
    match m s with
    | (s', Ok a) => k a s'
    | (s', Fail f) => (s', Fail f)
    end.

Definition fail {A} (f : Failure) : M A := fun s => (s, Fail f).

Definition throw {A} (e : JsError) : M A := fail (Throw e).

Definition get_state : M State := fun s => (s, Ok s).

Definition modify (f : State -> State) : M unit := fun s => (f s, Ok tt).

(** [try { body } finally { cleanup }]: the cleanup also runs when the body
    throws, and the body's error is then thrown again. *)
Definition try_finally {A} (body : M A) (cleanup : M unit) : M A :=
  fun s =>
    match body s with
    | (s', Ok a) => bind cleanup (fun _ => ret a) s'
    | (s', Fail (Throw e)) => bind cleanup (fun _ => throw e) s'
    | (s', Fail f) => (s', Fail f)
    end.

Notation "'let*' x := c1 'in' c2" := (bind c1 (fun x => c2))
  (at level 10, x name, c1 at level 100, c2 at level 200).
Notation "c1 ;; c2" := (bind c1 (fun _ => c2))
  (at level 100, c2 at level 200, right associativity).

(** A fresh non-null handle for a table of live handles. *)
Definition fresh_handle {A} (m : gmap Z A) : Z := fresh ({[0]} ∪ dom m).

(** ** The VM primitives consumed by the bridge

    Modelled from the spec: the guest VM and its binding [LuaWasm]
    ([cmodule]) are not part of the two classes; section 6 lists the
    primitive set and the Lua reference manual fixes their stack effects.
    A stack is a list with the top slot first.  Metamethods of tables and
    the garbage collector do not run inside these primitives. *)

Definition stack_of (L : Z) : M (list LuaValue) :=
  fun s => match stacks s !! L with
           | Some stk => (s, Ok stk)
           | None => (s, Fail Stuck)
           end.

Definition put_stack (L : Z) (stk : list LuaValue) : M unit :=
  modify (set_stacks <[L := stk]>).

(** The slot an index names: positive indices count from the bottom,
    negative ones from the top, 0 names nothing. *)
Definition slot (stk : list LuaValue) (idx : Z) : option LuaValue :=
  if 0 <? idx then
    if idx <=? Z.of_nat (length stk)
    then stk !! (length stk - Z.to_nat idx)%nat
    else None
  else if idx <? 0 then stk !! (Z.to_nat (- idx) - 1)%nat
  else None.

Definition type_of_value (v : LuaValue) : LuaType :=
  match v with
  | LNil => TNil
  | LBoolean _ => TBoolean
  | LInteger _ | LNumber _ => TNumber
  | LString _ => TString
  | LTable _ => TTable
  | LFunction _ => TFunction
  | LUserData _ => TUserData
  | LThread _ => TThread
  | LLightUserData _ => TLightUserData
  end.

(** An index the C API accepts: a positive one, or a negative one that does
    not reach below the bottom of the stack.  What a primitive does with any
    other index is undefined. *)
Definition acceptable (stk : list LuaValue) (idx : Z) : bool :=
  (0 <? idx) || ((idx <? 0) && (- idx <=? Z.of_nat (length stk))).

(** The VM integer ([lua_Integer]) has 64 bits: an integer of the host is
    reduced to the two's-complement range from -2^63 to 2^63 - 1. *)
Definition lua_Integer (z : Z) : Z := (z + 2 ^ 63) mod 2 ^ 64 - 2 ^ 63.

(** The VM integer as the host number [lua_tonumberx] hands over, a double:
    exact up to 2^53 in magnitude, and beyond that the nearest integer with
    a mantissa of 53 bits, ties to the even mantissa. *)
Definition to_double (z : Z) : Z :=
  if Z.abs z <=? 2 ^ 53 then z
  else
    let a := Z.abs z in
    let shift := Z.log2 a - 52 in
    let q := Z.shiftr a shift in
    let r := a - Z.shiftl q shift in
    let half := Z.shiftl 1 (shift - 1) in
    let q' := if (half <? r) || ((r =? half) && Z.odd q) then q + 1 else q in
    Z.sgn z * Z.shiftl q' shift.

(** A string as C code reads it: the characters before the first NUL. *)
Fixpoint c_string (s : string) : string :=
  match s with
  | EmptyString => EmptyString
  | String c rest =>
      if Ascii.eqb c Ascii.zero then EmptyString else String c (c_string rest)
  end.

Fixpoint nul_free (s : string) : bool :=
  match s with
  | EmptyString => true
  | String c rest => negb (Ascii.eqb c Ascii.zero) && nul_free rest
  end.

Arguments lua_Integer : simpl never.
Arguments to_double : simpl never.

Definition lua_gettop (L : Z) : M Z :=
  let* stk := stack_of L in ret (Z.of_nat (length stk)).

Definition push (L : Z) (v : LuaValue) : M unit :=
  let* stk := stack_of L in put_stack L (v :: stk).

Definition lua_pushnil (L : Z) : M unit := push L LNil.
Definition lua_pushinteger (L : Z) (z : Z) : M unit := push L (LInteger (lua_Integer z)).
Definition lua_pushnumber (L : Z) (repr : string) : M unit := push L (LNumber repr).
Definition lua_pushstring (L : Z) (s : string) : M unit := push L (LString (c_string s)).
Definition lua_pushboolean (L : Z) (b : bool) : M unit := push L (LBoolean b).
Definition lua_pushthread (L : Z) : M unit := push L (LThread L).

Definition lua_pushvalue (L : Z) (idx : Z) : M unit :=
  let* stk := stack_of L in
  match slot stk idx with
  | Some v => put_stack L (v :: stk)
  | None => fail Stuck
  end.

Definition lua_pop (L : Z) (n : Z) : M unit :=
  let* stk := stack_of L in
  if (0 <=? n) && (n <=? Z.of_nat (length stk))
  then put_stack L (drop (Z.to_nat n) stk)
  else fail Stuck.

(** [lua_type]: the type of the slot, LUA_TNONE for a positive index above
    the top. *)
Definition lua_type (L : Z) (idx : Z) : M LuaType :=
  let* stk := stack_of L in
  if acceptable stk idx
  then ret (match slot stk idx with Some v => type_of_value v | None => TNone end)
  else fail Stuck.

Definition lua_typename (t : LuaType) : string :=
  match t with
  | TNone => "no value" | TNil => "nil" | TBoolean => "boolean"
  | TLightUserData => "userdata" | TNumber => "number" | TString => "string"
  | TTable => "table" | TFunction => "function" | TUserData => "userdata"
  | TThread => "thread"
  end.

(** [lua_tonumberx]: a number is handed over as a double; strings are not
    parsed and other values give 0. *)
Definition lua_tonumberx (L : Z) (idx : Z) : M JsNumber :=
  let* stk := stack_of L in
  match slot stk idx with
  | Some (LInteger z) => ret (Integral (to_double z))
  | Some (LNumber r) => ret (Fractional r)
  | Some (LString _) => fail Stuck
  | _ => ret (Integral 0)
  end.

(** [lua_tolstring]: a string is returned, as far as its first NUL since no
    length is asked for; an integer is first converted in its slot; any
    other value gives NULL. *)
Definition replace_slot (stk : list LuaValue) (idx : Z) (v : LuaValue) : list LuaValue :=
  if 0 <? idx then <[(length stk - Z.to_nat idx)%nat := v]> stk
  else <[(Z.to_nat (- idx) - 1)%nat := v]> stk.

Definition lua_tolstring (L : Z) (idx : Z) : M (option string) :=
  let* stk := stack_of L in
  match slot stk idx with
  | Some (LString s) => ret (Some (c_string s))
  | Some (LInteger z) =>
      put_stack L (replace_slot stk idx (LString (pretty z)));; ret (Some (pretty z))
  | Some (LNumber r) =>
      put_stack L (replace_slot stk idx (LString r));; ret (Some r)
  | _ => ret None
  end.

Definition lua_toboolean (L : Z) (idx : Z) : M Z :=
  let* stk := stack_of L in
  ret (match slot stk idx with
       | None | Some LNil | Some (LBoolean false) => 0
       | Some _ => 1
       end).

Definition lua_topointer (L : Z) (idx : Z) : M Z :=
  let* stk := stack_of L in
  ret (match slot stk idx with
       | Some (LTable p) | Some (LFunction p) | Some (LUserData p)
       | Some (LLightUserData p) | Some (LThread p) => p
       | _ => 0
       end).

Definition lua_tothread (L : Z) (idx : Z) : M Z :=
  let* stk := stack_of L in
  ret (match slot stk idx with Some (LThread l) => l | _ => 0 end).

Definition new_object (o : LuaObject) : M Z :=
  fun s => let p := fresh_handle (objects s) in
           (set_objects <[p := o]> s, Ok p).

Definition object_at (p : Z) : M LuaObject :=
  fun s => match objects s !! p with
           | Some o => (s, Ok o)
           | None => (s, Fail Stuck)
           end.

Definition lua_createtable (L : Z) (narr nrec : Z) : M unit :=
  let* _ := stack_of L in
  let* p := new_object (VTable [] None) in push L (LTable p).

(** Assignment [t[k] = v] on the entry list of a table: assigning nil
    removes the entry. *)
Fixpoint table_set (entries : list (LuaValue * LuaValue)) (k v : LuaValue)
    : list (LuaValue * LuaValue) :=
  match entries with
  | [] => match v with LNil => [] | _ => [(k, v)] end
  | (k', v') :: rest =>
      if decide (k' = k)
      then match v with LNil => rest | _ => (k, v) :: rest end
      else (k', v') :: table_set rest k v
  end.

Definition lua_settable (L : Z) (idx : Z) : M unit :=
  let* stk := stack_of L in
  match slot stk idx, stk with
  | Some (LTable p), v :: k :: rest =>
      let* o := object_at p in
      match o, k with
      | VTable entries mt, LNil => fail Stuck
      | VTable entries mt, _ =>
          modify (set_objects <[p := VTable (table_set entries k v) mt]>);;
          put_stack L rest
      | _, _ => fail Stuck
      end
  | _, _ => fail Stuck
  end.

(** [lua_setfield(L, idx, name)]: [t[name] = v] with [v] popped from the top. *)
Definition lua_setfield (L : Z) (idx : Z) (name : string) : M unit :=
  let* stk := stack_of L in
  match slot stk idx, stk with
  | Some (LTable p), v :: rest =>
      let* o := object_at p in
      match o with
      | VTable entries mt =>
          modify (set_objects
                    <[p := VTable (table_set entries (LString (c_string name)) v) mt]>);;
          put_stack L rest
      | _ => fail Stuck
      end
  | _, _ => fail Stuck
  end.

(** [lua_next]: pops a key and pushes the entry after it, or nothing when
    the key was the last one. *)
Fixpoint entry_after (entries : list (LuaValue * LuaValue)) (k : LuaValue)
    : option (option (LuaValue * LuaValue)) :=
  match entries with
  | [] => None
  | (k', _) :: rest =>
      if decide (k' = k) then Some (head rest) else entry_after rest k
  end.

Definition next_entry (entries : list (LuaValue * LuaValue)) (k : LuaValue)
    : option (option (LuaValue * LuaValue)) :=
  match k with
  | LNil => Some (head entries)
  | _ => entry_after entries k
  end.

Definition lua_next (L : Z) (idx : Z) : M bool :=
  let* stk := stack_of L in
  match slot stk idx, stk with
  | Some (LTable p), k :: rest =>
      let* o := object_at p in
      match o with
      | VTable entries _ =>
          match next_entry entries k with
          | Some (Some (k', v')) => put_stack L (v' :: k' :: rest);; ret true
          | Some None => put_stack L rest;; ret false
          | None => fail Stuck
          end
      | _ => fail Stuck
      end
  | _, _ => fail Stuck
  end.

Definition lua_newuserdatauv (L : Z) (size nuvalue : Z) : M Z :=
  let* _ := stack_of L in
  let* p := new_object (VUserData 0 None) in
  push L (LUserData p);; ret p.

(** [cmodule.module.setValue(p, value, '*')] and [getValue(p, '*')] on the
    block of a userdata. *)
Definition module_setValue (p value : Z) : M unit :=
  let* o := object_at p in
  match o with
  | VUserData _ mt => modify (set_objects <[p := VUserData value mt]>)
  | _ => fail Stuck
  end.

Definition module_getValue (p : Z) : M Z :=
  let* o := object_at p in
  match o with
  | VUserData w _ => ret w
  | _ => fail Stuck
  end.

(** [luaL_getmetatable(L, tname)]: pushes [registry[tname]] and returns its
    type. *)
Definition luaL_getmetatable (L : Z) (tname : LuaMetatables) : M LuaType :=
  let* s := get_state in
  match metatables s !! LuaMetatables_name tname with
  | Some p => push L (LTable p);; ret TTable
  | None => push L LNil;; ret TNil
  end.

(** [luaL_newmetatable(L, tname)] *)
Definition luaL_newmetatable (L : Z) (tname : LuaMetatables) : M bool :=
  let* s := get_state in
  match metatables s !! LuaMetatables_name tname with
  | Some p => push L (LTable p);; ret false
  | None =>
      let* _ := stack_of L in
      let* p := new_object (VTable [(LString "__name", LString (LuaMetatables_name tname))] None) in
      modify (set_metatables <[LuaMetatables_name tname := p]>);;
      push L (LTable p);; ret true
  end.

Definition set_metatable_of (p : Z) (mt : option Z) : M unit :=
  let* o := object_at p in
  match o with
  | VTable entries _ => modify (set_objects <[p := VTable entries mt]>)
  | VUserData w _ => modify (set_objects <[p := VUserData w mt]>)
  | _ => fail Stuck
  end.

(** [lua_setmetatable(L, idx)]: pops a table or nil and makes it the
    metatable of the table or userdata at [idx]. *)
Definition lua_setmetatable (L : Z) (idx : Z) : M unit :=
  let* stk := stack_of L in
  match slot stk idx, stk with
  | Some (LTable p), LTable m :: rest
  | Some (LUserData p), LTable m :: rest =>
      set_metatable_of p (Some m);; put_stack L rest
  | Some (LTable p), LNil :: rest
  | Some (LUserData p), LNil :: rest =>
      set_metatable_of p None;; put_stack L rest
  | _, _ => fail Stuck
  end.

(** [luaL_testudata(L, idx, tname)]: the block of the userdata at [idx] when
    its metatable is [registry[tname]], NULL otherwise. *)
Definition luaL_testudata (L : Z) (idx : Z) (tname : LuaMetatables) : M Z :=
  let* stk := stack_of L in
  let* s := get_state in
  match slot stk idx with
  | Some (LUserData p) =>
      match objects s !! p, metatables s !! LuaMetatables_name tname with
      | Some (VUserData _ (Some m)), Some m' => ret (if decide (m = m') then p else 0)
      | _, _ => ret 0
      end
  | _ => ret 0
  end.

(** [lua_pushcclosure(L, fn, n)]: pops [n] upvalues and pushes the closure. *)
Definition lua_pushcclosure (L : Z) (fn : Z) (n : Z) : M unit :=
  let* stk := stack_of L in
  if (0 <=? n) && (n <=? Z.of_nat (length stk)) then
    let* p := new_object (VCClosure fn (take (Z.to_nat n) stk)) in
    put_stack L (LFunction p :: drop (Z.to_nat n) stk)
  else fail Stuck.

(** [lua_newthread(L)]: a new state with an empty stack, pushed on [L]. *)
Definition lua_newthread (L : Z) : M Z :=
  let* _ := stack_of L in
  let* s := get_state in
  let L1 := fresh_handle (stacks s) in
  put_stack L1 [];; push L (LThread L1);; ret L1.

(** [luaL_ref(L, LUA_REGISTRYINDEX)] and [luaL_unref]: nil is not stored
    and gives LUA_REFNIL. *)
Definition luaL_ref (L : Z) : M Z :=
  let* stk := stack_of L in
  match stk with
  | LNil :: rest => put_stack L rest;; ret (-1)
  | v :: rest =>
      let* s := get_state in
      let r := fresh_handle (registry s) in
      modify (set_registry <[r := v]>);; put_stack L rest;; ret r
  | [] => fail Stuck
  end.

Definition luaL_unref (L : Z) (r : Z) : M unit :=
  modify (set_registry (delete r)).

(** [lua_rawgeti(L, LUA_REGISTRYINDEX, n)] *)
Definition lua_rawgeti (L : Z) (n : Z) : M LuaType :=
  let* s := get_state in
  let v := default LNil (registry s !! n) in
  push L v;; ret (type_of_value v).

(** [lua_remove(L, idx)]: deletes the slot, the ones above move down. *)
Definition position (stk : list LuaValue) (idx : Z) : option nat :=
  if 0 <? idx then
    if idx <=? Z.of_nat (length stk) then Some (length stk - Z.to_nat idx)%nat else None
  else if (idx <? 0) && (- idx <=? Z.of_nat (length stk)) then Some (Z.to_nat (- idx) - 1)%nat
  else None.

Definition lua_remove (L : Z) (idx : Z) : M unit :=
  let* stk := stack_of L in
  match position stk idx with
  | Some i => put_stack L (delete i stk)
  | None => fail Stuck
  end.

(** [lua_xmove(from, to, n)] *)
Definition lua_xmove (from to : Z) (n : Z) : M unit :=
  let* stk := stack_of from in
  if (0 <=? n) && (n <=? Z.of_nat (length stk)) then
    put_stack from (drop (Z.to_nat n) stk);;
    let* stk' := stack_of to in
    put_stack to (take (Z.to_nat n) stk ++ stk')
  else fail Stuck.

Definition lua_getglobal (L : Z) (name : string) : M LuaType :=
  let* s := get_state in
  let v := default LNil (globals s !! c_string name) in
  push L v;; ret (type_of_value v).

Definition lua_setglobal (L : Z) (name : string) : M unit :=
  let* stk := stack_of L in
  match stk with
  | v :: rest => modify (set_globals <[c_string name := v]>);; put_stack L rest
  | [] => fail Stuck
  end.

(** [luaL_tolstring(L, idx)] pushes a printable form of the value. *)
Definition printable (v : option LuaValue) : string :=
  match v with
  | None | Some LNil => "nil"
  | Some (LBoolean true) => "true"
  | Some (LBoolean false) => "false"
  | Some (LInteger z) => pretty z
  | Some (LNumber r) => r
  | Some (LString s) => s
  | Some (LTable p) => "table: " +:+ pretty p
  | Some (LFunction p) => "function: " +:+ pretty p
  | Some (LUserData p) | Some (LLightUserData p) => "userdata: " +:+ pretty p
  | Some (LThread p) => "thread: " +:+ pretty p
  end.

Definition luaL_tolstring (L : Z) (idx : Z) : M string :=
  let* stk := stack_of L in
  push L (LString (printable (slot stk idx)));; ret (c_string (printable (slot stk idx))).

(** [lua_yieldk(L, nresults, ctx, k)]: the yield is recorded; the value the
    call evaluates to is the one of LuaReturn.Yield. *)
Definition lua_yieldk (L : Z) (nresults ctx k : Z) : M Z :=
  let* _ := stack_of L in
  modify (emit (EYield L nresults k ctx));; ret 1.

(** ** The emscripten module and the reference tracker of [cmodule] *)

Definition addFunction (f : NativeCallable) : M Z :=
  fun s => let p := fresh_handle (fn_table s) in
           (emit (EAddFunction p) (set_fn_table <[p := f]> s), Ok p).

Definition removeFunction (p : Z) : M unit :=
  modify (fun s => emit (ERemoveFunction p) (set_fn_table (delete p) s)).

(** Modelled from the spec: [ref], [unref] and [getRef] of the missing
    [LuaWasm] class (section 4.3): a handle-to-value table, a fresh handle on
    every [ref], no counting. *)
Definition ref (v : HostValue) : M Z :=
  fun s => let h := fresh_handle (refs s) in (set_refs <[h := v]> s, Ok h).

Definition unref (h : Z) : M unit := modify (set_refs (delete h)).

Definition getRef (h : Z) : M HostValue :=
  let* s := get_state in ret (default HUndefined (refs s !! h)).

(** ** Host-side helpers *)

(** The fields of the [Thread] object [this]. *)
Definition thread_of (this : Z) : M ThreadFields :=
  fun s => match heap s !! this with
           | Some (OThread t) => (s, Ok t)
           | _ => (s, Fail Stuck)
           end.

Definition update_thread (this : Z) (f : ThreadFields -> ThreadFields) : M unit :=
  let* t := thread_of this in
  modify (set_heap <[this := OThread (f t)]>).

Definition set_closed (b : bool) (t : ThreadFields) : ThreadFields :=
  mkThread (address t) b (parent t) (continuance t) (global t).

Definition set_continuance (c : option Z) (t : ThreadFields) : ThreadFields :=
  mkThread (address t) (closed t) (parent t) c (global t).

(** [new ...]: a new object of the host heap. *)
Definition new_host (o : HostObject) : M Z :=
  fun s => let id := fresh_handle (heap s) in
           (set_heap <[id := o]> s, Ok id).

(** [String(v)], the coercion a property access [obj[v]] applies to a key
    that is not a symbol.  An array is joined with commas, holes for
    undefined, null and an array that is already being joined; every object
    without a [toString] of its own prints as [[object Object]].  An integer
    prints as its decimal digits, which is its text below 10^21; the
    exponent form of the larger ones is not spelled out, their digits stand
    for it. *)
Fixpoint ToString (fuel : nat) (h : gmap Z HostObject) (visiting : list Z)
    (v : HostValue) : string :=
  match v with
  | HUndefined => "undefined"
  | HNull => "null"
  | HNumber (Integral z) => pretty z
  | HNumber (Fractional r) => r
  | HString s => s
  | HBoolean true => "true"
  | HBoolean false => "false"
  | HSymbol d => "Symbol(" +:+ d +:+ ")"
  | HBigInt z => pretty z
  | HPointer p => pretty p
  | HFunction f =>
      match h !! f with
      | Some (OFunction source) => source
      | _ => "async (...args) => { [jsFunc] }"
      end
  | HObject o =>
      match h !! o with
      | Some (OArray elems) | Some (OMultiReturn elems) =>
          match fuel with
          | O => ""
          | S fuel' =>
              if bool_decide (o ∈ visiting) then ""
              else String.concat ","
                     (map (fun e => match e with
                                    | HUndefined | HNull => ""
                                    | _ => ToString fuel' h (o :: visiting) e
                                    end) elems)
          end
      | Some (OPromise _) => "[object Promise]"
      | _ => "[object Object]"
      end
  end.

(** The property key [obj[v]] uses: a symbol is a key of its own, which the
    cycle-guard map never holds. *)
Definition ToPropertyKey (h : gmap Z HostObject) (v : HostValue) : option string :=
  match v with
  | HSymbol _ => None
  | _ => Some (ToString (S (size h)) h [] v)
  end.

(** The names every object literal inherits from [Object.prototype]; reading
    one of them from [{}] gives a function or an object, never a number. *)
Definition inherited (k : string) : bool :=
  bool_decide (k ∈ ["constructor"; "__defineGetter__"; "__defineSetter__";
                    "hasOwnProperty"; "__lookupGetter__"; "__lookupSetter__";
                    "isPrototypeOf"; "propertyIsEnumerable"; "toString";
                    "valueOf"; "__proto__"; "toLocaleString"]).

(** [options?._done?.[target]] as the [if] sees it. *)
Inductive DoneLookup :=
| DMiss
| DSlot (index : Z)
| DInherited.

Definition done_lookup (h : gmap Z HostObject) (done : option (gmap string Z))
    (target : HostValue) : DoneLookup :=
  match done with
  | None => DMiss
  | Some d =>
      match ToPropertyKey h target with
      | None => DMiss
      | Some k =>
          match d !! k with
          | Some i => if i =? 0 then DMiss else DSlot i
          | None => if inherited k then DInherited else DMiss
          end
      end
  end.

(** [options._done[target] = table]; assigning a number to [__proto__] is
    ignored. *)
Definition done_record (d : gmap string Z) (k : option string) (table : Z)
    : gmap string Z :=
  match k with
  | Some k => if bool_decide (k = "__proto__") then d else <[k := table]> d
  | None => d
  end.

(** Lookup in the property list of a plain object. *)
Fixpoint own_property (props : list (string * HostValue)) (name : string)
    : option HostValue :=
  match props with
  | [] => None
  | (k, v) :: rest => if bool_decide (k = name) then Some v else own_property rest name
  end.

(** Property read [o.name] on a host value; a missing property and a
    property of a primitive read as undefined. *)
Definition getProp (h : gmap Z HostObject) (v : HostValue) (name : string) : HostValue :=
  match v with
  | HObject o =>
      match h !! o with
      | Some (OPlain props) =>
          default HUndefined (own_property props name)
      | Some (ODecoration target options) =>
          if bool_decide (name = "target") then target
          else if bool_decide (name = "options") then options
          else HUndefined
      | _ => HUndefined
      end
  | _ => HUndefined
  end.

(** The decorations of a value: [None] is the fresh [{}] of an undecorated
    value, [Some options] the [options] of a [Decoration]. *)
Definition getValueDecorations (h : gmap Z HostObject) (value : HostValue)
    : HostValue * option HostValue :=
  match value with
  | HObject o =>
      match h !! o with
      | Some (ODecoration target options) => (target, Some options)
      | _ => (value, None)
      end
  | _ => (value, None)
  end.

Definition decoration_prop (h : gmap Z HostObject) (decorations : option HostValue)
    (name : string) : HostValue :=
  match decorations with
  | Some options => getProp h options name
  | None => HUndefined
  end.

(** [decorations?.rawArguments?.includes(i)] *)
Definition rawArguments_includes (h : gmap Z HostObject) (decorations : option HostValue)
    (i : Z) : bool :=
  match decoration_prop h decorations "rawArguments" with
  | HObject o =>
      match h !! o with
      | Some (OArray elems) => bool_decide (HNumber (Integral i) ∈ elems)
      | _ => false
      end
  | _ => false
  end.

(** The pairs a [for (const key in target)] loop visits. *)
Definition enumerate (h : gmap Z HostObject) (target : HostValue)
    : list (string * HostValue) :=
  match target with
  | HObject o =>
      match h !! o with
      | Some (OPlain props) => props
      | Some (ODecoration t options) => [("target", t); ("options", options)]
      | _ => []
      end
  | _ => []
  end.

(** [Promise.resolve(v) === v] *)
Definition is_promise (h : gmap Z HostObject) (v : HostValue) : bool :=
  match v with
  | HObject o => match h !! o with Some (OPromise _) => true | _ => false end
  | _ => false
  end.

(** ** [Thread]: the value codec, host to guest *)

Record PushOptions := mkPushOptions {
  _done : option (gmap string Z);
  reference : bool;
  await : bool;
  raw : bool
}.

(** [options = {}] *)
Definition no_options : PushOptions := mkPushOptions None false false false.

(** [{ _done: options._done }] *)
Definition with_done (d : gmap string Z) : PushOptions :=
  mkPushOptions (Some d) false false false.

(** [pop(count)] *)
Definition pop (this : Z) (count : Z) : M unit :=
  let* t := thread_of this in lua_pop (address t) count.

(** [getTop()] *)
Definition getTop (this : Z) : M Z :=
  let* t := thread_of this in lua_gettop (address t).

(** [remove(index)] *)
Definition remove (this : Z) (index : Z) : M unit :=
  let* t := thread_of this in lua_remove (address t) index.

(** [PointerSize] *)
Definition PointerSize : Z := 4.

(** [createAndPushFunctionReference(pointer)] *)
Definition createAndPushFunctionReference (this : Z) (pointer : Z) : M unit :=
  let* t := thread_of this in
  let* userDataPointer := lua_newuserdatauv (address t) PointerSize 0 in
  module_setValue userDataPointer pointer;;
  let* ty := luaL_getmetatable (address t) FunctionReference in
  if decide (ty = TNil) then
    pop this 2;; throw (MetatableNotFound FunctionReference)
  else lua_setmetatable (address t) (-2).

(** [createAndPushJsReference(object)]; the error it throws names the
    function-reference metatable, as in the source. *)
Definition createAndPushJsReference (this : Z) (object : HostValue) : M unit :=
  let* t := thread_of this in
  let* pointer := ref object in
  let* userDataPointer := lua_newuserdatauv (address t) PointerSize 0 in
  module_setValue userDataPointer pointer;;
  let* ty := luaL_getmetatable (address t) JsReference in
  if decide (ty = TNil) then
    unref pointer;; pop this 2;; throw (MetatableNotFound FunctionReference)
  else lua_setmetatable (address t) (-2).

(** The promise branch of [pushValue] (lines 193-204). *)
Definition pushPromise (this : Z) (target : HostValue) : M unit :=
  let* t := thread_of this in
  let* pointer := ref target in
  let* userDataPointer := lua_newuserdatauv (address t) PointerSize 0 in
  module_setValue userDataPointer pointer;;
  let* ty := luaL_getmetatable (address t) PromiseMt in
  if decide (ty = TNil) then
    unref pointer;; pop this 2;; throw (MetatableNotFound PromiseMt)
  else lua_setmetatable (address t) (-2).

(** The two population loops of the table branch: each entry pushes its
    key with default options, its value with the shared cycle-guard map, and
    stores the pair with [lua_settable(address, table)]. *)
Fixpoint pushEntries (push_value : HostValue -> PushOptions -> M (option (gmap string Z)))
    (L table : Z) (entries : list (HostValue * HostValue)) (d : gmap string Z)
    : M (gmap string Z) :=
  match entries with
  | [] => ret d
  | (key, value) :: rest =>
      push_value key no_options;;
      let* d' := push_value value (with_done d) in
      lua_settable L table;;
      pushEntries push_value L table rest (default d d')
  end.

(** The entries of an array: [i + 1] for the element at [i]. *)
Definition array_entries (elems : list HostValue) : list (HostValue * HostValue) :=
  imap (fun i e => (HNumber (Integral (Z.of_nat i + 1)), e)) elems.

Definition object_entries (props : list (string * HostValue)) : list (HostValue * HostValue) :=
  map (fun kv => (HString (fst kv), snd kv)) props.

(** [typeof v === 'object'] *)
Definition typeof_object (v : HostValue) : bool :=
  match v with
  | HNull | HObject _ | HPointer _ => true
  | _ => false
  end.

(** The table branch of [pushValue] (lines 206-234): the slot the new table
    will take is recorded under the key of [target] before the table is
    created and populated; a metatable decoration is converted and attached
    last.  [h] is the host heap and [done] is [options._done] on entry. *)
Definition pushTable (push_value : HostValue -> PushOptions -> M (option (gmap string Z)))
    (this L : Z) (h : gmap Z HostObject) (target : HostValue)
    (decorations : option HostValue) (done : option (gmap string Z))
    (entries : list (HostValue * HostValue)) (narr nrec : Z)
    : M (option (gmap string Z)) :=
  let* top := getTop this in
  let table := top + 1 in
  let d0 := done_record (default ∅ done) (ToPropertyKey h target) table in
  lua_createtable L narr nrec;;
  let* d := pushEntries push_value L table entries d0 in
  (if typeof_object (decoration_prop h decorations "metatable") then
     push_value (decoration_prop h decorations "metatable") no_options;;
     lua_setmetatable L (-2)
   else ret tt);;
  ret (Some d).

(** [pushValue(value, options)].  The result is [options._done] as the call
    leaves it: the map is an object shared with the caller, and the calls on
    the children update it in place.  [fuel] bounds the depth of the
    recursion. *)
Fixpoint pushValue (fuel : nat) (this : Z) (value : HostValue) (options : PushOptions)
    : M (option (gmap string Z)) :=
  match fuel with
  | O => fail OutOfFuel
  | S fuel' =>
    let* t := thread_of this in
    let* s := get_state in
    let '(target, decorations) := getValueDecorations (heap s) value in
    match done_lookup (heap s) (_done options) target with
    | DSlot index => lua_pushvalue (address t) index;; ret (_done options)
    | DInherited => fail Stuck
    | DMiss =>
      if reference options then
        createAndPushJsReference this value;; ret (_done options)
      else
        let table_branch :=
          pushTable (pushValue fuel' this) this (address t) (heap s) target decorations
                    (_done options) in
        match target with
        | HUndefined | HNull => lua_pushnil (address t);; ret (_done options)
        | HNumber (Integral z) => lua_pushinteger (address t) z;; ret (_done options)
        | HNumber (Fractional r) => lua_pushnumber (address t) r;; ret (_done options)
        | HString str => lua_pushstring (address t) str;; ret (_done options)
        | HBoolean b => lua_pushboolean (address t) b;; ret (_done options)
        | HObject o =>
            match heap s !! o with
            | Some (OThread target_t) =>
                lua_pushthread (address target_t);; ret (_done options)
            | Some (OPromise _) => pushPromise this target;; ret (_done options)
            | Some (OArray elems) | Some (OMultiReturn elems) =>
                table_branch (array_entries elems) (Z.of_nat (length elems)) 0
            | Some _ =>
                table_branch (object_entries (enumerate (heap s) target)) 0
                             (Z.of_nat (length (enumerate (heap s) target)))
            | None => fail Stuck
            end
        | HPointer _ => table_branch [] 0 0
        | HFunction f =>
            let* pointer := addFunction
              (NHostFunction this target decorations
                             (mkCallbackOptions (raw options) (await options))) in
            createAndPushFunctionReference this pointer;;
            lua_pushcclosure (address t) pointer 1;;
            ret (_done options)
        | HSymbol _ | HBigInt _ => throw (UnsupportedType (typeof target))
        end
    end
  end.

(** ** [Thread]: the value codec, guest to host *)

Record GetOptions := mkGetOptions {
  get_raw : bool;
  get_sync : bool;
  get_done : option (gmap Z HostValue)
}.

Definition no_get_options : GetOptions := mkGetOptions false false None.

(** [{ raw: b }] and [{ _done: done }] *)
Definition get_raw_options (b : bool) : GetOptions := mkGetOptions b false None.

Definition get_with_done (d : gmap Z HostValue) : GetOptions :=
  mkGetOptions false false (Some d).

(** [stateToThread(L)] *)
Definition stateToThread (this : Z) (L : Z) : M Z :=
  let* t := thread_of this in
  let fresh_wrapper := new_host (OThread (mkThread L false (Some this) None None)) in
  match parent t with
  | Some p =>
      let* pt := thread_of p in
      if L =? address pt then ret p else fresh_wrapper
  | None => fresh_wrapper
  end.

(** The array index a property name stands for: the name is the canonical
    decimal text of an integer from 0 to 2^32 - 2. *)
Fixpoint decimal (s : string) (acc : Z) : option Z :=
  match s with
  | EmptyString => Some acc
  | String c rest =>
      let d := Z.of_N (Ascii.N_of_ascii c) - 48 in
      if (0 <=? d) && (d <=? 9) then decimal rest (10 * acc + d) else None
  end.

Definition array_index (k : string) : option Z :=
  match k with
  | EmptyString => None
  | String c rest =>
      if (Ascii.N_of_ascii c =? 48)%N && negb (bool_decide (rest = EmptyString)) then None
      else
        match decimal k 0 with
        | Some n => if n <? 4294967295 then Some n else None
        | None => None
        end
  end.

(** The place of a new property in the list of own properties, which is
    kept in the order the host enumerates them: the array indices in
    ascending order first, then the other names in the order of their
    creation. *)
Fixpoint place_index (props : list (string * HostValue)) (n : Z) (k : string)
    (v : HostValue) : list (string * HostValue) :=
  match props with
  | [] => [(k, v)]
  | (k', v') :: rest =>
      match array_index k' with
      | Some n' => if n' <? n then (k', v') :: place_index rest n k v
                   else (k, v) :: props
      | None => (k, v) :: props
      end
  end.

Fixpoint overwrite (props : list (string * HostValue)) (k : string) (v : HostValue)
    : list (string * HostValue) :=
  match props with
  | [] => []
  | (k', v') :: rest =>
      if bool_decide (k' = k) then (k, v) :: rest else (k', v') :: overwrite rest k v
  end.

(** [table[key] = value] on the plain object under construction, the key
    coerced to a string: an own property keeps its place, a new one is
    listed where the host enumerates it.  No own property [__proto__] is
    created. *)
Definition assign (props : list (string * HostValue)) (k : string) (v : HostValue)
    : list (string * HostValue) :=
  if bool_decide (k ∈ props.*1) then overwrite props k v
  else
    match array_index k with
    | Some n => place_index props n k v
    | None => props ++ [(k, v)]
    end.

Definition set_property (o : Z) (key value : HostValue) : M unit :=
  let* s := get_state in
  match heap s !! o, ToPropertyKey (heap s) key with
  | Some (OPlain props), Some k =>
      if bool_decide (k = "__proto__") then ret tt
      else modify (set_heap <[o := OPlain (assign props k value)]>)
  | Some (OPlain props), None => ret tt
  | _, _ => fail Stuck
  end.

(** The [while (lua_next(address, idx))] loop of [getTableValue]; [n]
    bounds the number of iterations. *)
Fixpoint getTableValue_loop
    (get_value : Z -> option LuaType -> GetOptions -> M (HostValue * gmap Z HostValue))
    (n : nat) (L idx : Z) (this table : Z) (done : gmap Z HostValue)
    : M (gmap Z HostValue) :=
  match n with
  | O => fail OutOfFuel
  | S n' =>
      let* more := lua_next L idx in
      if more : bool then
        let* keyType := lua_type L (-2) in
        let* key := get_value (-2) (Some keyType) (get_with_done done) in
        let* valueType := lua_type L (-1) in
        let* value := get_value (-1) (Some valueType) (get_with_done (snd key)) in
        set_property table (fst key) (fst value);;
        pop this 1;;
        getTableValue_loop get_value n' L idx this table (snd value)
      else ret done
  end.

(** [getValue(idx, type, options)] with [getTableValue(idx, done)] inlined
    in its table case.  The second component of the result is the
    cycle-guard map as the call leaves it.  [fuel] bounds the nesting depth
    and the iterations of each loop. *)
Fixpoint getValue (fuel : nat) (this : Z) (idx : Z) (type : option LuaType)
    (options : GetOptions) : M (HostValue * gmap Z HostValue) :=
  match fuel with
  | O => fail OutOfFuel
  | S fuel' =>
    let done0 := default ∅ (get_done options) in
    if idx =? 0 then throw IndexMustBeNonZero else
    let* t := thread_of this in
    let* type :=
      match type with
      | Some ty => if LuaType_code ty =? 0 then lua_type (address t) idx else ret ty
      | None => lua_type (address t) idx
      end in
    let unsupported :=
      luaL_tolstring (address t) idx;;
      pop this 1;;
      let* p := lua_topointer (address t) idx in
      ret (HPointer p, done0) in
    match type with
    | TNone => ret (HUndefined, done0)
    | TNil => ret (HNull, done0)
    | TNumber =>
        let* n := lua_tonumberx (address t) idx in ret (HNumber n, done0)
    | TString =>
        let* str := lua_tolstring (address t) idx in
        ret (match str with Some str => HString str | None => HNull end, done0)
    | TBoolean =>
        let* b := lua_toboolean (address t) idx in
        ret (HBoolean (negb (b =? 0)), done0)
    | TTable =>
        if get_raw options then
          let* p := lua_topointer (address t) idx in ret (HPointer p, done0)
        else
          (* getTableValue(idx, options?._done) *)
          let* table := new_host (OPlain []) in
          let* pointer := lua_topointer (address t) idx in
          match done0 !! pointer with
          | Some known => ret (known, done0)
          | None =>
              let done1 := <[pointer := HObject table]> done0 in
              lua_pushnil (address t);;
              let idx' := if idx <? 0 then idx - 1 else idx in
              let* done2 := getTableValue_loop (getValue fuel' this) fuel'
                              (address t) idx' this table done1 in
              ret (HObject table, done2)
          end
    | TFunction =>
        if get_raw options then
          let* p := lua_topointer (address t) idx in ret (HPointer p, done0)
        else
          lua_pushvalue (address t) idx;;
          let* func := luaL_ref (address t) in
          let* jsFunc := new_host (OLuaFunction this func) in
          ret (HFunction jsFunc, done0)
    | TThread =>
        let* value := lua_tothread (address t) idx in
        if get_raw options then ret (HPointer value, done0)
        else
          let* th := stateToThread this value in ret (HObject th, done0)
    | TUserData =>
        let* jsRefUserData := luaL_testudata (address t) idx JsReference in
        if negb (jsRefUserData =? 0) then
          let* referencePointer := module_getValue jsRefUserData in
          let* v := getRef referencePointer in ret (v, done0)
        else
          let* promiseUserData := luaL_testudata (address t) idx PromiseMt in
          if negb (promiseUserData =? 0) then
            let* referencePointer := module_getValue promiseUserData in
            let* v := getRef referencePointer in ret (v, done0)
          else unsupported
    | TLightUserData => unsupported
    end
  end.

(** [dumpStack()]: every slot is read in raw mode; what is logged is not
    kept. *)
Fixpoint dumpStack_from (this : Z) (L : Z) (i : Z) (count : nat) : M unit :=
  match count with
  | O => ret tt
  | S count' =>
      let* type := lua_type L i in
      getValue 1 this i (Some type) (get_raw_options true);;
      dumpStack_from this L (i + 1) count'
  end.

Definition dumpStack (this : Z) : M unit :=
  let* t := thread_of this in
  let* top := getTop this in
  dumpStack_from this (address t) 1 (Z.to_nat top).

(** [getValues(count)] *)
Fixpoint getValues_from (fuel : nat) (this : Z) (top count : Z) (i : Z) (n : nat)
    : M (list HostValue) :=
  match n with
  | O => ret []
  | S n' =>
      let* v := getValue fuel this (top - count + i + 1) None no_get_options in
      let* vs := getValues_from fuel this top count (i + 1) n' in
      ret (fst v :: vs)
  end.

Definition getValues (fuel : nat) (this : Z) (count : Z) : M Z :=
  (* new MultiReturn(count) *)
  if count <? 0 then throw InvalidArrayLength else
  let* top := getTop this in
  let* values := getValues_from fuel this top count 0 (Z.to_nat count) in
  new_host (OMultiReturn values).

(** [isClosed()], with the override of [Global]; the recursion follows the
    parent links. *)
Fixpoint isClosed_along (n : nat) (h : gmap Z HostObject) (this : Z) : option bool :=
  match n with
  | O => None
  | S n' =>
      match h !! this with
      | Some (OThread t) =>
          if (match global t with Some _ => address t =? 0 | None => false end)
          then Some true
          else if closed t then Some true
          else match parent t with
               | Some p => isClosed_along n' h p
               | None => Some false
               end
      | _ => None
      end
  end.

Definition isClosed (this : Z) : M bool :=
  let* s := get_state in
  match isClosed_along (S (size (heap s))) (heap s) this with
  | Some b => ret b
  | None => fail Stuck
  end.

(** [newThread()] *)
Definition newThread (this : Z) : M Z :=
  let* t := thread_of this in
  let* address := lua_newthread (address t) in
  new_host (OThread (mkThread address false (Some this) None None)).

(** [assertOk(result)] *)
Definition assertOk (this : Z) (r : LuaReturn) : M unit :=
  if bool_decide (r <> ROk) && bool_decide (r <> RYield) then
    let* t := thread_of this in
    let* top := getTop this in
    if 0 <? top then
      let* error := lua_tolstring (address t) (-1) in
      pop this 1;;
      throw (LuaError r (Some (default "null" error)))
    else throw (LuaError r None)
  else ret tt.

(** [get(name)] and [set(name, value)] *)
Definition get (fuel : nat) (this : Z) (name : string) : M HostValue :=
  let* t := thread_of this in
  let* type := lua_getglobal (address t) name in
  let* v := getValue fuel this (-1) (Some type) no_get_options in
  ret (fst v).

Definition set (fuel : nat) (this : Z) (name : string) (value : HostValue) : M unit :=
  let* t := thread_of this in
  pushValue fuel this value no_options;;
  lua_setglobal (address t) name.

(** ** The coroutine/promise bridge *)

(** What the bridge cannot see into: the guest program a [lua_resume] or
    [lua_resetthread] runs, and the body of a host function [target]. *)
Record World := mkWorld {
  lua_resume : Z -> Z -> State -> State * LuaResumeResult;
  lua_resetthread : Z -> State -> State * LuaReturn;
  apply : HostValue -> list HostValue -> M HostValue
}.

Definition lift {A} (f : State -> State * A) : M A :=
  fun s => let (s', a) := f s in (s', Ok a).

(** Assignment to a captured variable ([results = asyncResult]). *)
Definition write_cell (cell : Z) (v : HostValue) : M unit :=
  fun s => match heap s !! cell with
           | Some (OCell _) => (set_heap <[cell := OCell v]> s, Ok tt)
           | _ => (s, Fail Stuck)
           end.

(** [await v]: the value a settled promise was fulfilled with, or its
    rejection thrown.  The reaction of [result.then(...)] runs when its
    source has settled, which is when the awaiting caller goes on. *)
Fixpoint await_value (fuel : nat) (v : HostValue) : M HostValue :=
  match fuel with
  | O => fail OutOfFuel
  | S fuel' =>
      let* s := get_state in
      match v with
      | HObject o =>
          match heap s !! o with
          | Some (OPromise (Settles (Fulfilled r))) => ret r
          | Some (OPromise (Settles (Rejected e))) => throw (Rejection e)
          | Some (OPromise (Settles Pending)) => fail Hang
          | Some (OPromise (ThenStore source results)) =>
              let* r := await_value fuel' (HObject source) in
              write_cell results r;;
              ret HUndefined
          | _ => ret v
          end
      | _ => ret v
      end
  end.

(** Pushing the results of a host function: [undefined] gives no result, a
    [MultiReturn] one result per item, anything else one result
    (lines 255-266 and 293-304). *)
Fixpoint pushItems (fuel : nat) (thread : Z) (items : list HostValue) : M unit :=
  match items with
  | [] => ret tt
  | item :: rest => pushValue fuel thread item no_options;; pushItems fuel thread rest
  end.

Definition pushResults (fuel : nat) (thread : Z) (results : HostValue) : M JsNumber :=
  let* s := get_state in
  match results with
  | HUndefined => ret (Integral 0)
  | HObject o =>
      match heap s !! o with
      | Some (OMultiReturn items) =>
          pushItems fuel thread items;; ret (Integral (Z.of_nat (length items)))
      | _ => pushValue fuel thread results no_options;; ret (Integral 1)
      end
  | _ => pushValue fuel thread results no_options;; ret (Integral 1)
  end.

(** Lines 270-305: the previous continuance of [this], if any, is removed
    from the function table, then the new one is added and stored. *)
Definition installContinuance (this calledL : Z) (raw : bool) (results : Z) : M Z :=
  let* t := thread_of this in
  match continuance t with
  | Some previous => removeFunction previous
  | None => ret tt
  end;;
  let* added := addFunction (NContinuance this calledL raw results) in
  update_thread this (set_continuance (Some added));;
  ret added.

(** The closure [(continuanceState, _status, context) => ...] that
    [installContinuance] adds (lines 274-305). *)
Definition continuanceCallback (fuel : nat) (this calledL : Z) (raw : bool) (results : Z)
    (continuanceState _status context : Z) : M JsNumber :=
  removeFunction context;;
  let* t := thread_of this in
  (if bool_decide (continuance t = Some context)
   then update_thread this (set_continuance None)
   else ret tt);;
  let* continuanceThread := stateToThread this continuanceState in
  dumpStack continuanceThread;;
  let* s := get_state in
  match heap s !! results with
  | Some (OCell value) =>
      if raw then
        match value with
        | HNumber n => ret n
        | _ => throw MustReturnPromiseOfNumber
        end
      else pushResults fuel continuanceThread value
  | _ => fail Stuck
  end.

(** The arguments of a call from the guest: slots 1 to [argsQuantity]. *)
Fixpoint collectArgs (fuel : nat) (h : gmap Z HostObject) (decorations : option HostValue)
    (thread : Z) (i : Z) (n : nat) : M (list HostValue) :=
  match n with
  | O => ret []
  | S n' =>
      let* v := getValue fuel thread i None
                  (get_raw_options (rawArguments_includes h decorations (i - 1))) in
      let* vs := collectArgs fuel h decorations thread (i + 1) n' in
      ret (fst v :: vs)
  end.

(** The closure [(calledL) => ...] that the function branch of [pushValue]
    adds to the function table (lines 237-322). *)
Definition hostFunctionCallback (W : World) (fuel : nat) (this : Z) (target : HostValue)
    (decorations : option HostValue) (options : CallbackOptions) (calledL : Z)
    : M JsNumber :=
  let* argsQuantity := lua_gettop calledL in
  let* thread := stateToThread this calledL in
  let* s := get_state in
  let* args := collectArgs fuel (heap s) decorations thread 1 (Z.to_nat argsQuantity) in
  let* result := apply W target ((if cb_raw options then [HObject thread] else []) ++ args) in
  let* s := get_state in
  if negb (is_promise (heap s) result) || negb (cb_await options) then
    if cb_raw options then
      match result with
      | HNumber n => ret n
      | _ => throw MustReturnNumber
      end
    else pushResults fuel thread result
  else
    match result with
    | HObject source =>
        let* results := new_host (OCell HUndefined) in
        installContinuance this calledL (cb_raw options) results;;
        let* promise := new_host (OPromise (ThenStore source results)) in
        createAndPushJsReference thread (HObject promise);;
        dumpStack thread;;
        let* t := thread_of this in
        match continuance t with
        | Some k => let* r := lua_yieldk calledL 1 k k in ret (Integral r)
        | None => fail Stuck
        end
    | _ => fail Stuck
    end.

(** [resetThread()] *)
Definition resetThread (W : World) (this : Z) : M unit :=
  let* t := thread_of this in
  let* r := lift (lua_resetthread W (address t)) in
  assertOk this r;;
  let* t := thread_of this in
  match continuance t with
  | Some c => removeFunction c;; update_thread this (set_continuance None)
  | None => ret tt
  end.

(** [resume(argCount)] *)
Definition resume (W : World) (this : Z) (argCount : Z) : M LuaResumeResult :=
  let* t := thread_of this in
  modify (emit (EResume (address t) argCount));;
  let* resumeResult := lift (lua_resume W (address t) argCount) in
  assertOk this (result resumeResult);;
  ret resumeResult.

(** [run(argCount)]: the body of the loop, one turn from a Yield to the
    result of the next resume, and the loop. *)
Definition run_body (W : World) (fuel : nat) (this : Z) (resumeResult : LuaResumeResult)
    : M LuaResumeResult :=
  dumpStack this;;
  (if 0 <? resultCount resumeResult then
     let* lastValue := getValue fuel this (-1) None no_get_options in
     pop this (resultCount resumeResult);;
     let* s := get_state in
     if is_promise (heap s) (fst lastValue)
     then await_value fuel (fst lastValue);; ret tt
     else dumpStack this
   else ret tt);;
  resume W this 0.

Fixpoint run_loop (W : World) (fuel : nat) (this : Z) (resumeResult : LuaResumeResult)
    : M LuaResumeResult :=
  match fuel with
  | O => fail OutOfFuel
  | S fuel' =>
      if bool_decide (result resumeResult = RYield) then
        let* next := run_body W fuel this resumeResult in
        run_loop W fuel' this next
      else
        dumpStack this;; ret resumeResult
  end.

Definition run (W : World) (fuel : nat) (this : Z) (argCount : Z) : M LuaResumeResult :=
  let* resumeResult := resume W this argCount in
  run_loop W fuel this resumeResult.

(** [call(name, ...args)] *)
Definition call (W : World) (fuel : nat) (this : Z) (name : string)
    (args : list HostValue) : M Z :=
  let* thread := newThread this in
  let* threadIndex := getTop this in
  try_finally
    (let* th := thread_of thread in
     let* t := thread_of this in
     let* type := lua_getglobal (address th) name in
     if bool_decide (type <> TFunction) then throw (NotAFunction type) else
     pushItems fuel thread args;;
     let* resumeResult := run W fuel thread (Z.of_nat (length args)) in
     (if 0 <? resultCount resumeResult
      then lua_xmove (address th) (address t) (resultCount resumeResult)
      else ret tt);;
     getValues fuel this (resultCount resumeResult))
    (remove this threadIndex).

(** The host function [jsFunc] that [getValue] returns for a guest function:
    [this] and [func] are the variables it captures.  The result is the
    array it resolves to. *)
Definition jsFunc (W : World) (fuel : nat) (this func : Z) (args : list HostValue) : M Z :=
  let* isClosed := isClosed this in
  if isClosed : bool then new_host (OArray [])
  else
    let* thread := newThread this in
    let* threadIndex := getTop this in
    try_finally
      (let* th := thread_of thread in
       let* internalType := lua_rawgeti (address th) func in
       if bool_decide (internalType <> TFunction) then throw (NotAFunction TFunction) else
       pushItems fuel thread args;;
       dumpStack thread;;
       let* resumeResult := run W fuel thread (Z.of_nat (length args)) in
       getValues fuel thread (resultCount resumeResult))
      (dumpStack this;; remove this threadIndex).

(** ** [Global]: the root context *)

(** The three finalizer closures of global.ts (lines 50-59, 74-81 and
    129-136); [luaL_checkudata] raises a guest error where [luaL_testudata]
    gives NULL. *)
Definition luaL_checkudata (L : Z) (idx : Z) (tname : LuaMetatables) : M Z :=
  let* p := luaL_testudata L idx tname in
  if p =? 0 then fail Stuck else ret p.

Definition functionGc (calledL : Z) : M LuaReturn :=
  let* userDataPointer := luaL_checkudata calledL 1 FunctionReference in
  let* functionPointer := module_getValue userDataPointer in
  removeFunction functionPointer;;
  ret ROk.

Definition jsRefGc (calledL : Z) : M LuaReturn :=
  let* userDataPointer := luaL_checkudata calledL 1 JsReference in
  let* referencePointer := module_getValue userDataPointer in
  unref referencePointer;;
  ret ROk.

Definition promiseGc (calledL : Z) : M LuaReturn :=
  let* userDataPointer := luaL_checkudata calledL 1 PromiseMt in
  let* referencePointer := module_getValue userDataPointer in
  unref referencePointer;;
  ret ROk.

(** Lookup [t[k]] in the entry list of a table. *)
Fixpoint table_get (entries : list (LuaValue * LuaValue)) (k : LuaValue) : LuaValue :=
  match entries with
  | [] => LNil
  | (k', v) :: rest => if decide (k' = k) then v else table_get rest k
  end.

(** The native callable behind the [__gc] field of the metatable of a
    userdata, if it has one. *)
Definition finalizer_of (s : State) (o : LuaObject) : option NativeCallable :=
  match o with
  | VUserData _ (Some m) =>
      match objects s !! m with
      | Some (VTable entries _) =>
          match table_get entries (LString "__gc") with
          | LFunction q =>
              match objects s !! q with
              | Some (VCClosure fn _) => fn_table s !! fn
              | _ => None
              end
          | _ => None
          end
      | _ => None
      end
  | _ => None
  end.

(** One finalizer call of the VM: the userdata is the only argument, and an
    error inside the finalizer is not passed on. *)
Definition finalize (L : Z) (po : Z * LuaObject) : M unit :=
  fun s =>
    let call (gc : Z -> M LuaReturn) :=
      (fst ((put_stack L [LUserData (fst po)];; gc L) s), Ok tt) in
    match finalizer_of s (snd po) with
    | Some NFunctionGc => call functionGc
    | Some NJsRefGc => call jsRefGc
    | Some NPromiseGc => call promiseGc
    | _ => (s, Ok tt)
    end.

Fixpoint finalize_all (L : Z) (pos : list (Z * LuaObject)) : M unit :=
  match pos with
  | [] => ret tt
  | po :: rest => finalize L po;; finalize_all L rest
  end.

(** [lua_close(L)]: the finalizers of all userdata run, then every stack and
    object of the VM is gone. *)
Definition lua_close (L : Z) : M unit :=
  let* _ := stack_of L in
  modify (emit (EClose L));;
  let* s := get_state in
  finalize_all L (map_to_list (objects s));;
  modify (fun s => mkState ∅ ∅ ∅ ∅ ∅ (fn_table s) (refs s) (heap s) (trace s)).

(** [lua_newstate(allocator, null)] *)
Definition lua_newstate (allocator : Z) : M Z :=
  let* s := get_state in
  let L := fresh_handle (stacks s) in
  put_stack L [];; ret L.

Definition set_global (f : GlobalFields -> GlobalFields) (t : ThreadFields) : ThreadFields :=
  mkThread (address t) (closed t) (parent t) (continuance t) (f <$> global t).

(** The metatable set-up of the constructor (lines 62-72 and 84-94). *)
Definition installGcMetatable (address : Z) (tname : LuaMetatables) (gcPointer : Z) : M unit :=
  let* created := luaL_newmetatable address tname in
  (if created : bool then
     lua_pushstring address "__gc";;
     lua_pushcclosure address gcPointer 0;;
     lua_settable address (-3);;
     lua_pushstring address "__metatable";;
     lua_pushstring address "protected metatable";;
     lua_settable address (-3)
   else ret tt);;
  lua_pop address 1.

(** [pushValue] of a function literal of global.ts with the given options. *)
Definition pushClosure (fuel : nat) (this : Z) (source : string) (options : PushOptions)
    : M unit :=
  let* f := new_host (OFunction source) in
  pushValue fuel this (HFunction f) options;; ret tt.

(** [createPromiseLib()] *)
Definition createPromiseLib (fuel : nat) (this : Z) : M Z :=
  let* t := thread_of this in
  let* promiseGcPointer := addFunction NPromiseGc in
  let* created := luaL_newmetatable (address t) PromiseMt in
  (if created : bool then
     let* metatableIndex := lua_gettop (address t) in
     lua_pushstring (address t) "protected metatable";;
     lua_setfield (address t) metatableIndex "__metatable";;
     lua_pushcclosure (address t) promiseGcPointer 0;;
     lua_setfield (address t) metatableIndex "__gc";;
     lua_createtable (address t) 0 4;;
     let* methodTableIndex := lua_gettop (address t) in
     pushClosure fuel this "(self, callback) => self.then(...)" no_options;;
     lua_setfield (address t) methodTableIndex "next";;
     pushClosure fuel this "(self, callback) => self.catch(...)" no_options;;
     lua_setfield (address t) methodTableIndex "catch";;
     pushClosure fuel this "(self, callback) => self.finally(...)" no_options;;
     lua_setfield (address t) methodTableIndex "finally";;
     pushClosure fuel this "(self) => self" (mkPushOptions None false true false);;
     lua_setfield (address t) methodTableIndex "await";;
     lua_setfield (address t) metatableIndex "__index"
   else ret tt);;
  lua_pop (address t) 1;;
  lua_createtable (address t) 0 1;;
  let* promiseTableIndex := lua_gettop (address t) in
  pushClosure fuel this "async (thread, callback) => { ... return 1 }"
              (mkPushOptions None false true true);;
  lua_setfield (address t) promiseTableIndex "create";;
  lua_setglobal (address t) "Promise";;
  ret promiseGcPointer.

(** [new Global(cmodule)] *)
Definition Global_new (fuel : nat) : M Z :=
  let* allocator := addFunction NAllocator in
  let* L := lua_newstate allocator in
  let* this := new_host (OThread (mkThread L false None None
                                   (Some (mkGlobal 0 0 0 allocator)))) in
  let* functionGc := addFunction NFunctionGc in
  update_thread this (set_global (fun g =>
    mkGlobal functionGc (jsRefGcPointer g) (promiseGcPointer g)
             (allocatorFunctionPointer g)));;
  installGcMetatable L FunctionReference functionGc;;
  let* jsRefGc := addFunction NJsRefGc in
  update_thread this (set_global (fun g =>
    mkGlobal (functionGcPointer g) jsRefGc (promiseGcPointer g)
             (allocatorFunctionPointer g)));;
  installGcMetatable L JsReference jsRefGc;;
  let* promiseGc := createPromiseLib fuel this in
  update_thread this (set_global (fun g =>
    mkGlobal (functionGcPointer g) (jsRefGcPointer g) promiseGc
             (allocatorFunctionPointer g)));;
  ret this.

(** [close()] of [Global] *)
Definition close (this : Z) : M unit :=
  let* t := thread_of this in
  match global t with
  | None => fail Stuck
  | Some g =>
      if closed t then ret tt
      else
        update_thread this (set_closed true);;
        lua_close (address t);;
        removeFunction (functionGcPointer g);;
        removeFunction (jsRefGcPointer g);;
        removeFunction (promiseGcPointer g);;
        removeFunction (allocatorFunctionPointer g)
  end.

(** The state before anything is constructed. *)
Definition empty_state : State := mkState ∅ ∅ ∅ ∅ ∅ ∅ ∅ ∅ [].

(** ** Notions the theorems are stated with *)

(** [avoids f m]: the computation [m] never ends in the failure [f]. *)
Definition avoids {A} (f : Failure) (m : M A) : Prop :=
  forall s, snd (m s) <> Fail f.

(** [keeps R m]: the state [m] ends in is related by [R] to the one it
    started in. *)
Definition keeps {A} (R : State -> State -> Prop) (m : M A) : Prop :=
  forall s, R s (fst (m s)).

(** The host heap is the same and the trace has only grown. *)
Definition extends (s s' : State) : Prop :=
  heap s' = heap s /\ exists mid, trace s' = trace s ++ mid.

(** [h] is a continuance of the context [this] that is live in the
    function table. *)
Definition continuance_of (s : State) (this h : Z) : Prop :=
  exists calledL raw results,
    fn_table s !! h = Some (NContinuance this calledL raw results).

(** At most one outstanding continuance per context: every live continuance
    of a context is the one its [continuance] field holds. *)
Definition one_continuance (s : State) : Prop :=
  forall this h, continuance_of s this h ->
    exists t, heap s !! this = Some (OThread t) /\ continuance t = Some h.

(** What the value codec leaves alone: the [Thread] objects of the host
    heap stay as they are and no continuance is added to the function
    table. *)
Definition bridge_frame (s s' : State) : Prop :=
  (forall this t, heap s !! this = Some (OThread t) ->
     heap s' !! this = Some (OThread t)) /\
  (forall h this calledL raw results,
     fn_table s' !! h = Some (NContinuance this calledL raw results) ->
     fn_table s !! h = Some (NContinuance this calledL raw results)).

(** [preserves P m]: a state with property [P] is taken to one with [P],
    whatever the outcome. *)
Definition preserves {A} (P : State -> Prop) (m : M A) : Prop :=
  forall s, P s -> P (fst (m s)).

(** A world whose opaque parts keep each context to one continuance. *)
Definition world_keeps_one_continuance (W : World) : Prop :=
  (forall target args, preserves one_continuance (apply W target args)) /\
  (forall L s, one_continuance s -> one_continuance (fst (lua_resetthread W L s))) /\
  (forall L n s, one_continuance s -> one_continuance (fst (lua_resume W L n s))).

(** A world in which the guest does nothing and host functions return
    [undefined]. *)
Definition idle_world : World :=
  mkWorld (fun _ _ s => (s, mkResume ROk 0)) (fun _ s => (s, ROk))
          (fun _ _ => ret HUndefined).

(** The guest value a primitive host value is pushed as. *)
Definition pushed_as (v : HostValue) : LuaValue :=
  match v with
  | HNumber (Integral z) => LInteger (lua_Integer z)
  | HNumber (Fractional r) => LNumber r
  | HString s => LString (c_string s)
  | HBoolean b => LBoolean b
  | _ => LNil
  end.

(** The primitive host values the VM holds without loss: an integer of
    magnitude at most 2^53, a string without a NUL character, and every
    primitive value that is neither an integer nor a string. *)
Definition lossless (v : HostValue) : Prop :=
  match v with
  | HNumber (Integral z) => - 2 ^ 53 <= z <= 2 ^ 53
  | HString s => nul_free s = true
  | _ => True
  end.

(** The event [e] is the release of the callable a function-reference
    userdata of the VM holds: what the function finalizer does. *)
Definition released_by (s : State) (e : Event) : Prop :=
  exists p w m,
    objects s !! p = Some (VUserData w (Some m)) /\
    metatables s !! LuaMetatables_name FunctionReference = Some m /\
    e = ERemoveFunction w.

(** What the finalizers that run inside [lua_close] do: the host heap and
    the objects and metatables of the VM are as before, and the trace grows
    by releases of callables that function-reference userdata hold. *)
Definition finalized (s s' : State) : Prop :=
  heap s' = heap s /\ objects s' = objects s /\ metatables s' = metatables s /\
  exists mid, trace s' = trace s ++ mid /\ Forall (released_by s) mid.

(** Some function-reference userdata of the VM holds the callable [q]. *)
Definition holds_callable (s : State) (q : Z) : bool :=
  existsb (fun o => match o with
                    | VUserData w (Some m) =>
                        (w =? q) &&
                        bool_decide (metatables s !! LuaMetatables_name FunctionReference
                                     = Some m)
                    | _ => false
                    end)
          (map_to_list (objects s)).*2.

(** The four callables a root installs. *)
Definition own_callables (g : GlobalFields) : list Z :=
  [functionGcPointer g; jsRefGcPointer g; promiseGcPointer g;
   allocatorFunctionPointer g].

(** [close()] called [n] times in a row. *)
Fixpoint close_times (n : nat) (this : Z) : M unit :=
  match n with
  | O => ret tt
  | S n' => close this;; close_times n' this
  end.

(** ** Example states *)

(** A root context as its constructor leaves it: the [Global] is object 1 of
    the host heap and wraps the VM state 1. *)
Definition example_root : State := fst (Global_new 5 empty_state).

Definition example_root_fields : ThreadFields :=
  mkThread 1 false None None (Some (mkGlobal 2 3 4 1)).

(** The root with a child context: object 7, wrapping the VM state 2. *)
Definition example_child : State := fst (newThread 1 example_root).

(** The root after [close()]. *)
Definition example_closed : State := fst (close 1 example_root).

(** The root holding a continuance that was never resumed. *)
Definition example_awaiting : State :=
  fst (installContinuance 1 2 false 20 example_root).

(** A world in which every host function returns [result]. *)
Definition host_world (result : HostValue) : World :=
  mkWorld (fun _ _ s => (s, mkResume ROk 0)) (fun _ s => (s, ROk))
          (fun _ _ => ret result).

(** The root with a host promise that rejects with "boom" (object 30) and a
    host function (object 31). *)
Definition example_rejecting : State :=
  set_heap (fun h => <[30 := OPromise (Settles (Rejected (HString "boom")))]>
                       (<[31 := OFunction "() => rejecting"]> h))
           example_root.

(** A guest program that calls the host function 31, pushed by the root with
    [await: true], and yields when the host function does; the host
    function returns the promise 30. *)
Definition rejecting_world : World :=
  mkWorld
    (fun L n s =>
       (fst (hostFunctionCallback (host_world (HObject 30)) 3 1 (HFunction 31) None
               (mkCallbackOptions false true) L s),
        mkResume RYield 1))
    (fun _ s => (s, ROk))
    (fun _ _ => ret HUndefined).

(** The [lua_resume] calls of a trace. *)
Definition is_resume (e : Event) : bool :=
  match e with EResume _ _ => true | _ => false end.

Definition resumes (tr : list Event) : list Event :=
  List.filter is_resume tr.

(** The promise [p] settles with the rejection [e], through at most [n]
    links of [then]. *)
Fixpoint rejects_in (n : nat) (h : gmap Z HostObject) (p : Z) (e : HostValue) : Prop :=
  match n with
  | O => False
  | S n' =>
      match h !! p with
      | Some (OPromise (Settles (Rejected e'))) => e' = e
      | Some (OPromise (ThenStore source _)) => rejects_in n' h source e
      | _ => False
      end
  end.

(** Nothing is added to the trace and the function table is as it was. *)
Definition same_trace (s s' : State) : Prop :=
  trace s' = trace s /\ fn_table s' = fn_table s.

(** The first [n] turns of the loop of [run], as [run_loop] takes them with
    the fuel [fuel]: the resume result the next turn starts from. *)
Fixpoint run_turns (W : World) (n : nat) (fuel : nat) (this : Z)
    (resumeResult : LuaResumeResult) : M LuaResumeResult :=
  match n, fuel with
  | O, _ => ret resumeResult
  | S n', O => fail OutOfFuel
  | S n', S fuel' =>
      if bool_decide (result resumeResult = RYield) then
        let* next := run_body W fuel this resumeResult in
        run_turns W n' fuel' this next
      else ret resumeResult
  end.

(** ** Notions for the termination of the codec *)

(** No [Decoration] of the heap carries a [metatable] option that is an
    object. *)
Definition no_metatable (h : gmap Z HostObject) : Prop :=
  forall o target options,
    h !! o = Some (ODecoration target options) ->
    typeof_object (getProp h options "metatable") = false.

(** The object [o] will not be converted again under the cycle-guard map
    [d]: its key has a slot in [d] that the lookup accepts, or is not in [d]
    and names an inherited property. *)
Definition settled (h : gmap Z HostObject) (d : gmap string Z) (o : Z) : bool :=
  match ToPropertyKey h (HObject o) with
  | Some k => match d !! k with Some i => negb (i =? 0) | None => inherited k end
  | None => true
  end.

(** The number of heap objects that are not settled under [d]. *)
Definition pending (h : gmap Z HostObject) (d : gmap string Z) : nat :=
  length (List.filter (fun o => negb (settled h d o)) (elements (dom h))).

(** The host heap is [h]. *)
Definition on_heap (h : gmap Z HostObject) (s : State) : Prop := heap s = h.

(** The host heap is unchanged. *)
Definition same_heap (s s' : State) : Prop := heap s' = heap s.

(** [avoids_on P f m]: started in a state with [P], [m] never ends in the
    failure [f]. *)
Definition avoids_on {A} (P : State -> Prop) (f : Failure) (m : M A) : Prop :=
  forall s, P s -> snd (m s) <> Fail f.

(** [returns P m Q]: a value [m] returns from a state with [P] has [Q]. *)
Definition returns {A} (P : State -> Prop) (m : M A) (Q : A -> Prop) : Prop :=
  forall s s' a, P s -> m s = (s', Ok a) -> Q a.

(** The cycle-guard map [d'] extends [d]: the slots [d] answers with are
    kept, no slot 0 is added and no own [__proto__] appears. *)
Definition done_grows (d : gmap string Z) (d' : option (gmap string Z)) : Prop :=
  exists d1, d' = Some d1 /\
    (forall k i, d !! k = Some i -> i <> 0 -> exists j, d1 !! k = Some j /\ j <> 0) /\
    (forall k, d1 !! k = Some 0 -> d !! k = Some 0) /\
    (d !! "__proto__" = None -> d1 !! "__proto__" = None).

(** The keys and array indices the population loops push. *)
Definition is_key (v : HostValue) : Prop :=
  match v with
  | HString _ | HNumber (Integral _) => True
  | _ => False
  end.

(** The root with a decorated array whose metatable refers back to the
    decoration: object 41 is [new Decoration([1], { metatable: m })] and
    [m.x] is object 41 again. *)
Definition example_decorated : State :=
  set_heap (fun h => <[40 := OArray [HNumber (Integral 1)]]>
                       (<[41 := ODecoration (HObject 40) (HObject 42)]>
                          (<[42 := OPlain [("metatable", HObject 43)]]>
                             (<[43 := OPlain [("x", HObject 41)]]> h))))
           example_root.

(** A state on which the conversion of the decorated array can go on: the
    root, the decoration, its target and its metatable are in the host heap
    as in [example_decorated], and the root's VM stack is there. *)
Definition decorated_ready (s : State) : Prop :=
  heap s !! 1 = Some (OThread example_root_fields) /\
  heap s !! 40 = Some (OArray [HNumber (Integral 1)]) /\
  heap s !! 41 = Some (ODecoration (HObject 40) (HObject 42)) /\
  heap s !! 42 = Some (OPlain [("metatable", HObject 43)]) /\
  heap s !! 43 = Some (OPlain [("x", HObject 41)]) /\
  exists stk, stacks s !! 1 = Some stk.

(** ** Notions for the termination of [getValue] *)

(** What a call of [getValue] on the context [this] relies on: the stack of
    its VM state is [stk], the VM's objects are [O] and [this] is a [Thread]
    with fields [t]. *)
Definition get_inv (this : Z) (t : ThreadFields) (O : gmap Z LuaObject)
    (stk : list LuaValue) (s : State) : Prop :=
  stacks s !! address t = Some stk /\
  objects s = O /\
  heap s !! this = Some (OThread t).

(** The type [lua_type] reports for an index. *)
Definition actual_type (stk : list LuaValue) (idx : Z) : LuaType :=
  match slot stk idx with
  | Some v => type_of_value v
  | None => TNone
  end.

(** The [type] argument of [getValue] is absent, falsy or the type of the
    slot. *)
Definition consistent (type : option LuaType) (stk : list LuaValue) (idx : Z) : Prop :=
  match type with
  | Some ty => LuaType_code ty = 0 \/ ty = actual_type stk idx
  | None => True
  end.

(** The objects of the VM the cycle-guard map [done] has no entry for. *)
Definition visited (done : gmap Z HostValue) (p : Z) : bool :=
  bool_decide (is_Some (done !! p)).

Definition unvisited (O : gmap Z LuaObject) (done : gmap Z HostValue) : nat :=
  length (List.filter (fun p => negb (visited done p)) (elements (dom O))).

(** Every table has pairwise different keys, none of them nil. *)
Definition wf_tables (O : gmap Z LuaObject) : Prop :=
  forall p entries mt, O !! p = Some (VTable entries mt) ->
    NoDup (entries.*1) /\ LNil ∉ entries.*1.

(** No table has more than [n] entries. *)
Definition entries_within (O : gmap Z LuaObject) (n : nat) : Prop :=
  forall p entries mt, O !! p = Some (VTable entries mt) -> (length entries <= n)%nat.

(** The largest number of entries of a table. *)
Definition width (o : LuaObject) : nat :=
  match o with
  | VTable entries _ => length entries
  | _ => O
  end.

Definition widest (O : gmap Z LuaObject) : nat :=
  foldr Nat.max 0%nat (width <$> (map_to_list O).*2).

(** [runs P m Q]: from a state with [P], [m] does not run out of fuel, and
    a value [a] it returns comes with a state that has [Q a]. *)
Definition runs {A} (P : State -> Prop) (m : M A) (Q : A -> State -> Prop) : Prop :=
  forall s, P s ->
    match snd (m s) with
    | Ok a => Q a (fst (m s))
    | Fail f => f <> OutOfFuel
    end.

(** What [getValue] leaves alone next to the stack it works on: the other
    stacks and the objects of the VM, and the [Thread] wrappers. *)
Definition get_frame (s s' : State) : Prop :=
  stacks s' = stacks s /\ objects s' = objects s /\
  forall this t, heap s !! this = Some (OThread t) -> heap s' !! this = Some (OThread t).

(** Where the traversal of [lua_next] stands: [k] is nil before the first
    entry, and the key of the last entry of [pre] after that. *)
Definition traversed (pre : list (LuaValue * LuaValue)) (k : LuaValue) : Prop :=
  (pre = [] /\ k = LNil) \/ (exists pre' v, pre = pre' ++ [(k, v)]).

(** The two side conditions as checks that evaluate on a given store. *)
Definition no_metatable_check (h : gmap Z HostObject) : bool :=
  forallb (fun obj => match obj with
                      | ODecoration _ options =>
                          negb (typeof_object (getProp h options "metatable"))
                      | _ => true
                      end)
          (map_to_list h).*2.

Definition wf_tables_check (O : gmap Z LuaObject) : bool :=
  forallb (fun o => match o with
                    | VTable entries _ =>
                        bool_decide (NoDup (entries.*1)) &&
                        bool_decide (LNil ∉ entries.*1)
                    | _ => true
                    end)
          (map_to_list O).*2.

(** The root with a host object that refers to itself (object 50, with
    [o.self === o]) and, on its VM stack, a guest table that refers to
    itself (the table 100, with [t.self == t]). *)
Definition example_cyclic : State :=
  set_heap <[50 := OPlain [("self", HObject 50)]]>
    (set_objects <[100 := VTable [(LString "self", LTable 100)] None]>
       (set_stacks <[1 := [LTable 100]]> example_root)).

(** ** Further methods and notions *)

(** [loadString(luaCode)] and [loadFile(filename)]: the compiler of the VM,
    [luaL_loadstring] or [luaL_loadfilex], is a parameter; it leaves a chunk
    or an error message on the stack and returns a status. *)
Definition loadString (luaL_loadstring : Z -> string -> State -> State * LuaReturn)
    (this : Z) (luaCode : string) : M unit :=
  let* t := thread_of this in
  let* r := lift (luaL_loadstring (address t) luaCode) in
  assertOk this r.

Definition loadFile (luaL_loadfilex : Z -> string -> State -> State * LuaReturn)
    (this : Z) (filename : string) : M unit :=
  let* t := thread_of this in
  let* r := lift (luaL_loadfilex (address t) filename) in
  assertOk this r.

(** [getMemoryUsed()], [getMemoryMax()] *)
Definition getMemoryUsed (memoryStats : Allocator.LuaMemoryStats) : Z :=
  Allocator.memoryUsed memoryStats.

Definition getMemoryMax (memoryStats : Allocator.LuaMemoryStats) : option Z :=
  Allocator.memoryMax memoryStats.

(** The guest values that are read back without touching the host heap, and
    the host value each is read as. *)
Definition primitive_slot (v : LuaValue) : Prop :=
  match v with
  | LNil | LBoolean _ | LInteger _ | LNumber _ | LString _ => True
  | _ => False
  end.

Definition read_as (v : LuaValue) : HostValue :=
  match v with
  | LBoolean b => HBoolean b
  | LInteger z => HNumber (Integral (to_double z))
  | LNumber r => HNumber (Fractional r)
  | LString s => HString (c_string s)
  | _ => HNull
  end.

(** The parent links of the host heap lead from the context [c] through the
    contexts of [path] to its last element, or [c] is the end itself when
    [path] is empty. *)
Fixpoint ancestry (h : gmap Z HostObject) (c : Z) (path : list Z) (a : Z) : Prop :=
  match path with
  | [] => c = a
  | p :: rest =>
      exists t, h !! c = Some (OThread t) /\ parent t = Some p /\ ancestry h p rest a
  end.

(** A request that allocates a fresh block, and one that frees a block. *)
Definition fresh_block (r : Allocator.Request) : Prop :=
  Allocator.req_pointer r = 0 /\ 0 <= Allocator.req_newSize r.

Definition free_block (r : Allocator.Request) : Prop :=
  Allocator.req_pointer r <> 0 /\ Allocator.req_newSize r = 0.

(** The text [assertOk] appends for the slot on top of the stack: what
    [lua_tolstring] returns for it, and "null" when that is NULL. *)
Definition error_text (v : LuaValue) : string :=
  match v with
  | LString s => c_string s
  | LInteger z => pretty z
  | LNumber r => r
  | _ => "null"
  end.

(** The message part of the error [assertOk] throws on the stack [stk]. *)
Definition error_message (stk : list LuaValue) : option string :=
  match stk with
  | [] => None
  | v :: _ => Some (error_text v)
  end.

(** Numbers, strings and booleans. *)
Definition scalar (v : HostValue) : Prop :=
  match v with
  | HNumber _ | HString _ | HBoolean _ => True
  | _ => False
  end.

(** [String(v)] of a primitive host value. *)
Definition text (v : HostValue) : string := ToString 0 ∅ [] v.

(** The property name a primitive guest key becomes in [table[key] = value]. *)
Definition key_text (k : LuaValue) : string := text (read_as k).

(** One assignment [table[key] = value] of [getTableValue] for a pair of
    primitive guest values, on the properties collected so far, and the
    properties a table of such pairs is read as. *)
Definition read_entry (props : list (string * HostValue)) (kv : LuaValue * LuaValue)
    : list (string * HostValue) :=
  if bool_decide (key_text (fst kv) = "__proto__") then props
  else assign props (key_text (fst kv)) (read_as (snd kv)).

Definition read_table (entries : list (LuaValue * LuaValue)) : list (string * HostValue) :=
  foldl read_entry [] entries.

(** Keys and values are primitive guest values. *)
Definition flat (entries : list (LuaValue * LuaValue)) : Prop :=
  Forall (fun kv => primitive_slot (fst kv) /\ primitive_slot (snd kv)) entries.

(** The entries [lua_settable] leaves in a new table for the elements of a
    host array of primitive values, the first one under the key [i]. *)
Fixpoint pushed_entries (i : Z) (elems : list HostValue) (acc : list (LuaValue * LuaValue))
    : list (LuaValue * LuaValue) :=
  match elems with
  | [] => acc
  | e :: rest =>
      pushed_entries (i + 1) rest (table_set acc (LInteger (lua_Integer i)) (pushed_as e))
  end.

(** The cycle-guard map [d] has nothing to say about the value [e]. *)
Definition unguarded (d : gmap string Z) (e : HostValue) : Prop :=
  d !! text e = None /\ inherited (text e) = false.

(** * Theorems *)

(** ** The memory ceiling of the allocator (claim C2) *)

Import Allocator.
Ltac zcases :=
  repeat match goal with
  | |- context [?a =? ?b] => destruct (Z.eqb_spec a b)
  | |- context [?a <? ?b] => destruct (Z.ltb_spec a b)
  end; simpl in *.

Ltac open_allocator :=
  unfold serve, allocator, checked, growing, usage_after, truthy_opt, exceeds, truthy in *;
  simpl in *.

Lemma allocator_memoryMax realloc st p o n :
  memoryMax (fst (fst (allocator realloc st p o n))) = memoryMax st.
Proof.
  destruct st as [u [m|]]; open_allocator; zcases; reflexivity.
Qed.

Lemma allocator_checked_bound realloc M used r :
  M <> 0 -> checked r -> used <= M ->
  memoryUsed (fst (fst (serve realloc (mkStats used (Some M)) r))) <= M.
Proof.
  intros HM Hc Hu. destruct r as [p o n]. open_allocator.
  zcases; lia.
Qed.

(** C2, amended: with a non-zero ceiling M, a request whose new size is
    larger than its old size and whose resulting usage would exceed M gets
    null, leaves the statistics alone and reaches no [_realloc]; over any
    sequence of requests on existing blocks or with a larger new size the
    tracked usage stays within M once it is; a free request is answered
    before the ceiling test; and a shrinking request on an existing block is
    passed to [_realloc] while the usage is within M.  With a ceiling of 0
    or no ceiling at all, nothing is refused: every request that is not a
    free goes to [_realloc] whatever its size, and a sequence of successful
    fresh allocations takes the usage to any height. *)
Theorem allocator_ceiling_amended (realloc : Z -> Z -> Z) (used : Z) :
  (forall M, M <> 0 ->
     let st := mkStats used (Some M) in
     (forall r, growing r -> M < usage_after st r ->
        snd (fst (serve realloc st r)) = None /\ fst (fst (serve realloc st r)) = st
        /\ forall c, In c (snd (serve realloc st r)) -> exists p, c = Free p) /\
     (forall rs, Forall checked rs -> used <= M ->
        memoryUsed (serve_all realloc st rs) <= M) /\
     (forall r, req_newSize r = 0 -> req_pointer r <> 0 ->
        serve realloc st r = (st, None, [Free (req_pointer r)])) /\
     (forall r, used <= M -> req_pointer r <> 0 -> 0 < req_newSize r <= req_oldSize r ->
        serve realloc st r =
          (if truthy (realloc (req_pointer r) (req_newSize r))
           then mkStats (usage_after st r) (Some M) else st,
           Some (realloc (req_pointer r) (req_newSize r)),
           [Realloc (req_pointer r) (req_newSize r)]))) /\
  (forall mx, mx = None \/ mx = Some 0 ->
     let st := mkStats used mx in
     (forall r, req_newSize r <> 0 \/ req_pointer r = 0 ->
        serve realloc st r =
          (if truthy (realloc (req_pointer r) (req_newSize r))
           then mkStats (usage_after st r) mx else st,
           Some (realloc (req_pointer r) (req_newSize r)),
           [Realloc (req_pointer r) (req_newSize r)])) /\
     (forall n p, 0 < n -> p <> 0 -> realloc 0 n = p ->
        forall k, memoryUsed (serve_all realloc st (replicate k (mkRequest 0 0 n)))
                  = used + Z.of_nat k * n)).
Proof.
  split.
  - intros M HM st. split; [|split; [|split]].
    + intros [p o n] Hg Hex. open_allocator.
      zcases; try lia; (split; [reflexivity|split; [reflexivity|]]);
        intros c Hc; first [contradiction | destruct Hc as [<-|[]]; eauto].
    + intros rs Hrs. subst st. revert used.
      induction Hrs as [|r rs Hr Hrs IH]; intros used Hu; simpl; [lia|].
      pose proof (allocator_checked_bound realloc M used r HM Hr Hu) as Hb.
      pose proof (allocator_memoryMax realloc (mkStats used (Some M)) (req_pointer r)
                    (req_oldSize r) (req_newSize r)) as Hm.
      unfold serve in *.
      destruct (fst (fst (allocator _ _ _ _ _))) as [used' max']; simpl in *. subst max'.
      apply IH. exact Hb.
    + intros [p o n] Hn Hp. open_allocator. subst n. zcases; first [lia|reflexivity].
    + intros [p o n] Hu Hp [Hn Ho]. open_allocator.
      zcases; try lia; reflexivity.
  - intros mx Hmx st. split.
    + intros [p o n] Hr. subst st.
      destruct Hmx as [-> | ->]; open_allocator; zcases; try lia; reflexivity.
    + intros n p Hn Hp Hre k. subst st. revert used.
      induction k as [|k IH]; intros used; [simpl; lia|].
      cbn [replicate serve_all].
      assert (fst (fst (serve realloc (mkStats used mx) (mkRequest 0 0 n)))
              = mkStats (used + n) mx) as ->.
      { destruct Hmx as [-> | ->]; open_allocator; rewrite Hre;
          zcases; try lia; reflexivity. }
      rewrite IH. lia.
Qed.

Lemma allocator_ceiling_amended_witness :
  (let st := mkStats 10 (Some 12) in
   (forall r, growing r -> 12 < usage_after st r ->
      snd (fst (serve (fun _ _ => 4096) st r)) = None) /\
   memoryUsed (serve_all (fun _ _ => 4096) st
      [mkRequest 0 0 2; mkRequest 4096 2 8; mkRequest 4096 2 1; mkRequest 4096 1 0]) <= 12) /\
  serve (fun _ _ => 4096) (mkStats 10 (Some 0)) (mkRequest 0 0 1000)
    = (mkStats 1010 (Some 0), Some 4096, [Realloc 0 1000]) /\
  memoryUsed (serve_all (fun _ _ => 4096) (mkStats 10 None)
                (replicate 3 (mkRequest 0 0 1000))) = 3010.
Proof.
  pose proof (allocator_ceiling_amended (fun _ _ => 4096) 10) as [Hceiling Hnone].
  split; [|split].
  - destruct (Hceiling 12 ltac:(lia)) as (H1 & H2 & _).
    split.
    + intros r Hg Hex. apply (H1 r Hg Hex).
    + apply H2; [|lia].
      repeat constructor; unfold checked, growing; simpl; lia.
  - destruct (Hnone (Some 0) ltac:(right; reflexivity)) as [H3 _].
    apply (H3 (mkRequest 0 0 1000)). left. simpl. lia.
  - destruct (Hnone None ltac:(left; reflexivity)) as [_ H4].
    apply (H4 1000 4096 ltac:(lia) ltac:(lia) eq_refl 3%nat).
Defined.

(** C2 as stated fails in three ways. *)
Lemma allocator_ceiling_counterexample :
  (* a fresh block that is not larger than the tag passed as old size *)
  allocator (fun _ _ => 4096) (mkStats 10 (Some 12)) 0 5 4
    = (mkStats 14 (Some 12), Some 4096, [Realloc 0 4]) /\
  (* a shrinking request after the ceiling was lowered below the usage *)
  allocator (fun _ _ => 4096) (setMemoryMax (Some 50) (mkStats 100 None)) 4096 10 5
    = (mkStats 100 (Some 50), None, []) /\
  (* a ceiling of 0 *)
  allocator (fun _ _ => 4096) (setMemoryMax (Some 0) (mkStats 0 None)) 0 0 8
    = (mkStats 8 (Some 0), Some 4096, [Realloc 0 8]).
Proof. repeat split. Qed.

(** ** Reasoning about monadic code *)

Lemma bind_ok {A B} (m : M A) (k : A -> M B) s s' a :
  m s = (s', Ok a) -> bind m k s = k a s'.
Proof. intros H. unfold bind. rewrite H. reflexivity. Qed.

Lemma bind_fail {A B} (m : M A) (k : A -> M B) s s' f :
  m s = (s', Fail f) -> bind m k s = (s', Fail f).
Proof. intros H. unfold bind. rewrite H. reflexivity. Qed.

Lemma thread_of_ok s this t :
  heap s !! this = Some (OThread t) -> thread_of this s = (s, Ok t).
Proof. intros H. unfold thread_of. rewrite H. reflexivity. Qed.

Lemma stack_of_ok s L stk :
  stacks s !! L = Some stk -> stack_of L s = (s, Ok stk).
Proof. intros H. unfold stack_of. rewrite H. reflexivity. Qed.

Section Avoids.
Context (f : Failure).

Lemma avoids_ret {A} (a : A) : avoids f (ret a).
Proof. intros s. discriminate. Qed.

Lemma avoids_fail {A} f' : f' <> f -> avoids f (@fail A f').
Proof. intros H s. simpl. congruence. Qed.

Lemma avoids_bind {A B} (m : M A) (k : A -> M B) :
  avoids f m -> (forall a, avoids f (k a)) -> avoids f (bind m k).
Proof.
  intros Hm Hk s. unfold bind. specialize (Hm s).
  destruct (m s) as [s' [a|f']]; simpl in *; [apply Hk|].
  intros E. apply Hm. congruence.
Qed.

Lemma avoids_modify g : avoids f (modify g).
Proof. intros s. discriminate. Qed.

Lemma avoids_get_state : avoids f get_state.
Proof. intros s. discriminate. Qed.

Lemma avoids_fun_ok {A} (g : State -> State * A) :
  avoids f (fun s => (fst (g s), Ok (snd (g s)))).
Proof. intros s. discriminate. Qed.
End Avoids.

Lemma avoids_stack_of f L : f <> Stuck -> avoids f (stack_of L).
Proof. intros H s. unfold stack_of. destruct (stacks s !! L); simpl; congruence. Qed.

Lemma avoids_thread_of f this : f <> Stuck -> avoids f (thread_of this).
Proof.
  intros H s. unfold thread_of.
  destruct (heap s !! this) as [[]|]; simpl; congruence.
Qed.

Lemma avoids_object_at f p : f <> Stuck -> avoids f (object_at p).
Proof. intros H s. unfold object_at. destruct (objects s !! p); simpl; congruence. Qed.

Lemma avoids_new_object f o : avoids f (new_object o).
Proof. intros s. discriminate. Qed.

Lemma avoids_new_host f o : avoids f (new_host o).
Proof. intros s. discriminate. Qed.

Lemma avoids_addFunction f c : avoids f (addFunction c).
Proof. intros s. discriminate. Qed.

Lemma avoids_ref f v : avoids f (ref v).
Proof. intros s. discriminate. Qed.

(** Decomposes a goal [avoids f m] along the structure of [m]. *)
Ltac avoid_step :=
  first
    [ assumption
    | apply avoids_ret
    | apply avoids_modify
    | apply avoids_get_state
    | apply avoids_new_object
    | apply avoids_new_host
    | apply avoids_addFunction
    | apply avoids_ref
    | apply avoids_fail; congruence
    | apply avoids_stack_of; congruence
    | apply avoids_thread_of; congruence
    | apply avoids_object_at; congruence
    | apply avoids_bind; [|intros ?]
    | match goal with
      | |- avoids _ (match ?x with _ => _ end) => destruct x
      end ].

Ltac avoid_prims :=
  unfold lua_pushnil, lua_pushinteger, lua_pushnumber, lua_pushstring, lua_pushboolean,
    lua_pushthread, lua_pushvalue, lua_pop, lua_type, lua_tonumberx, lua_tolstring,
    lua_toboolean, lua_topointer, lua_tothread, lua_createtable, lua_settable, lua_setfield,
    lua_next, lua_newuserdatauv, module_setValue, module_getValue, luaL_getmetatable,
    lua_setmetatable, set_metatable_of, luaL_testudata, lua_pushcclosure, luaL_ref,
    luaL_tolstring, lua_gettop, getRef, unref, pop, getTop, push, put_stack, stateToThread,
    set_property, throw.

Ltac avoid := avoid_prims; repeat avoid_step.

Lemma avoids_getTableValue_loop f get_value n L idx this table done :
  f <> Stuck -> f <> OutOfFuel ->
  (forall i ty o, i <> 0 -> avoids f (get_value i ty o)) ->
  avoids f (getTableValue_loop get_value n L idx this table done).
Proof.
  intros Hs Ho Hget. revert done.
  induction n as [|n IH]; intros done; simpl.
  - apply avoids_fail. congruence.
  - apply avoids_bind; [avoid|].
    intros [|]; [|apply avoids_ret].
    apply avoids_bind; [avoid|]. intros keyType.
    apply avoids_bind; [apply Hget; lia|]. intros key.
    apply avoids_bind; [avoid|]. intros valueType.
    apply avoids_bind; [apply Hget; lia|]. intros value.
    apply avoids_bind; [avoid|]. intros _.
    apply avoids_bind; [avoid|]. intros _.
    apply IH.
Qed.

(** ** Index 0 (claim C9) *)

Lemma getValue_avoids_index_error fuel :
  forall this idx type options, idx <> 0 ->
    avoids (Throw IndexMustBeNonZero) (getValue fuel this idx type options).
Proof.
  induction fuel as [|fuel IH]; intros this idx type options Hidx; simpl.
  - avoid.
  - destruct (Z.eqb_spec idx 0) as [->|_]; [lia|].
    apply avoids_bind; [avoid|]. intros t.
    apply avoids_bind; [destruct type as [ty|]; [destruct (LuaType_code ty =? 0)|]; avoid|].
    intros ty.
    destruct ty; try solve [avoid].
    destruct (get_raw options); [avoid|].
    apply avoids_bind; [avoid|]. intros table.
    apply avoids_bind; [avoid|]. intros pointer.
    destruct (_ !! pointer); [avoid|].
    apply avoids_bind; [avoid|]. intros _.
    apply avoids_bind; [|intros; avoid].
    apply avoids_getTableValue_loop; [congruence|congruence|].
    intros i ty o Hi. apply IH. exact Hi.
Qed.

(** C9: [getValue] with index 0 throws before it reads or changes anything;
    with any other index it gets past that check, whatever the fuel. *)
Theorem getValue_index_zero :
  (forall fuel this type options s,
     getValue (S fuel) this 0 type options s = (s, Fail (Throw IndexMustBeNonZero))) /\
  (forall fuel this idx type options s, idx <> 0 ->
     snd (getValue fuel this idx type options s) <> Fail (Throw IndexMustBeNonZero)).
Proof.
  split.
  - intros. reflexivity.
  - intros fuel this idx type options s Hidx.
    apply getValue_avoids_index_error. exact Hidx.
Qed.

(** ** Unsupported types (claim C8) *)

(** C8, amended: a value of an unsupported type makes [pushValue] throw and
    leave the whole state as it was, provided [options.reference] is not set
    and the cycle-guard map has no entry under the value's key. *)
Theorem pushValue_unsupported fuel this t value options s
    (Hthis : heap s !! this = Some (OThread t))
    (Hunsupported : supported value = false)
    (Hreference : reference options = false)
    (Hmiss : done_lookup (heap s) (_done options) value = DMiss) :
  pushValue (S fuel) this value options s
    = (s, Fail (Throw (UnsupportedType (typeof value)))).
Proof.
  simpl. rewrite (bind_ok _ _ _ _ _ (thread_of_ok _ _ _ Hthis)).
  unfold bind at 1. simpl.
  destruct value; try discriminate Hunsupported; simpl;
    rewrite Hmiss, Hreference; reflexivity.
Qed.

(** ** Stepping through monadic code *)

Lemma bind_ret {A B} (a : A) (k : A -> M B) s : bind (ret a) k s = k a s.
Proof. reflexivity. Qed.

Lemma bind_get_state {B} (k : State -> M B) s : bind get_state k s = k s s.
Proof. reflexivity. Qed.

Lemma bind_modify {B} g (k : unit -> M B) s : bind (modify g) k s = k tt (g s).
Proof. reflexivity. Qed.

Lemma bind_bind {A B C} (m : M A) (k : A -> M B) (k' : B -> M C) s :
  bind (bind m k) k' s = bind m (fun a => bind (k a) k') s.
Proof. unfold bind. destruct (m s) as [s' [a|f]]; reflexivity. Qed.

Lemma bind_thread_of {B} s this t (k : ThreadFields -> M B) :
  heap s !! this = Some (OThread t) -> bind (thread_of this) k s = k t s.
Proof. intros H. apply bind_ok, thread_of_ok, H. Qed.

Lemma bind_stack_of {B} s L stk (k : list LuaValue -> M B) :
  stacks s !! L = Some stk -> bind (stack_of L) k s = k stk s.
Proof. intros H. apply bind_ok, stack_of_ok, H. Qed.

Lemma bind_object_at {B} s p o (k : LuaObject -> M B) :
  objects s !! p = Some o -> bind (object_at p) k s = k o s.
Proof. intros H. apply bind_ok. unfold object_at. rewrite H. reflexivity. Qed.

Ltac solve_lookup :=
  simpl;
  first [ eassumption
        | rewrite lookup_insert_eq; reflexivity
        | rewrite lookup_insert_ne by congruence; solve_lookup ].

Ltac mstep :=
  first
    [ rewrite bind_ret
    | rewrite bind_get_state
    | rewrite bind_modify
    | rewrite bind_bind
    | erewrite bind_thread_of by solve_lookup
    | erewrite bind_stack_of by solve_lookup
    | erewrite bind_object_at by solve_lookup ].

Ltac msteps := repeat (mstep; cbn beta iota).

(** ** Round trip of primitive values (claim C1) *)

Lemma pushValue_primitive fuel this t stk v s :
  heap s !! this = Some (OThread t) ->
  stacks s !! address t = Some stk ->
  primitive v ->
  pushValue (S fuel) this v no_options s
    = (set_stacks <[address t := pushed_as v :: stk]> s, Ok None).
Proof.
  intros Hthis Hstack Hprim. simpl.
  destruct v as [| |[z|r]|str|b| | | | |]; try contradiction; simpl;
    unfold lua_pushnil, lua_pushinteger, lua_pushnumber, lua_pushstring,
      lua_pushboolean, push, put_stack;
    msteps; reflexivity.
Qed.

(** Indices and values the VM holds without loss. *)

Lemma slot_length stk idx v :
  slot stk idx = Some v -> idx < 0 -> - idx <= Z.of_nat (length stk).
Proof.
  unfold slot. intros Hslot Hneg.
  destruct (Z.ltb_spec 0 idx); [lia|].
  destruct (Z.ltb_spec idx 0); [|lia].
  apply lookup_lt_Some in Hslot. lia.
Qed.

Lemma slot_acceptable stk idx v : slot stk idx = Some v -> acceptable stk idx = true.
Proof.
  intros Hslot. unfold acceptable.
  destruct (Z.ltb_spec 0 idx) as [|Hle]; [reflexivity|].
  destruct (Z.ltb_spec idx 0) as [Hneg|Hge]; simpl.
  - apply Z.leb_le. eapply slot_length; eassumption.
  - unfold slot in Hslot.
    destruct (Z.ltb_spec 0 idx); [lia|]. destruct (Z.ltb_spec idx 0); [lia|discriminate].
Qed.

Lemma acceptable_positive stk idx : 0 < idx -> acceptable stk idx = true.
Proof. intros H. unfold acceptable. apply Z.ltb_lt in H. rewrite H. reflexivity. Qed.

Lemma lua_type_slot L stk idx v s :
  stacks s !! L = Some stk -> slot stk idx = Some v ->
  lua_type L idx s = (s, Ok (type_of_value v)).
Proof.
  intros Hstk Hslot. unfold lua_type.
  rewrite (bind_ok _ _ _ _ _ (stack_of_ok _ _ _ Hstk)).
  rewrite (slot_acceptable _ _ _ Hslot), Hslot. reflexivity.
Qed.

Lemma lua_Integer_exact z : - 2 ^ 63 <= z < 2 ^ 63 -> lua_Integer z = z.
Proof. intros H. unfold lua_Integer. rewrite Z.mod_small; lia. Qed.

Lemma to_double_exact z : - 2 ^ 53 <= z <= 2 ^ 53 -> to_double z = z.
Proof.
  intros H. unfold to_double.
  destruct (Z.leb_spec (Z.abs z) (2 ^ 53)); [reflexivity|lia].
Qed.

Lemma c_string_nul_free s : nul_free s = true -> c_string s = s.
Proof.
  induction s as [|c s IH]; [reflexivity|]. cbn [nul_free c_string].
  destruct (Ascii.eqb c Ascii.zero); [discriminate|].
  intros H. rewrite IH by exact H. reflexivity.
Qed.

Lemma lossless_pushed v :
  primitive v -> lossless v ->
  read_as (pushed_as v) = match v with HUndefined => HNull | _ => v end.
Proof.
  destruct v as [| |[z|r]|str|b| | | | |]; try contradiction; intros _ Hl;
    cbn [pushed_as read_as lossless] in *; try reflexivity.
  - rewrite lua_Integer_exact by lia. rewrite to_double_exact by exact Hl. reflexivity.
  - rewrite !(c_string_nul_free str Hl). reflexivity.
Qed.

Lemma getValue_top_primitive fuel this t stk v s :
  heap s !! this = Some (OThread t) ->
  stacks s !! address t = Some (pushed_as v :: stk) ->
  primitive v ->
  getValue (S fuel) this (-1) None no_get_options s
    = (s, Ok (read_as (pushed_as v), ∅)).
Proof.
  intros Hthis Hstack Hprim. cbn [getValue].
  change (-1 =? 0) with false. cbn iota. msteps.
  rewrite (bind_ok _ _ _ _ _ (lua_type_slot _ _ (-1) (pushed_as v) _ Hstack eq_refl)).
  destruct v as [| |[z|r]|str|b| | | | |]; try contradiction;
    cbn [pushed_as type_of_value] in *; cbn iota;
    unfold lua_tonumberx, lua_tolstring, lua_toboolean; msteps;
    try (destruct b); reflexivity.
Qed.

(** C1, amended: pushing a primitive host value that the VM holds without
    loss (an integer of magnitude at most 2^53, a string without NUL, or any
    primitive value that is neither) and reading the new top slot back gives
    the value itself, except that [undefined] comes back as [null]; reading
    back changes nothing.  For every primitive value, lossless or not, the
    slot holds the value reduced to the VM's representation, and what is
    read back is the reading of that slot. *)
Theorem roundtrip_primitive fuel fuel' this t stk v s
    (Hthis : heap s !! this = Some (OThread t))
    (Hstack : stacks s !! address t = Some stk)
    (Hprim : primitive v) :
  exists s1,
    pushValue (S fuel) this v no_options s = (s1, Ok None) /\
    stacks s1 !! address t = Some (pushed_as v :: stk) /\
    getValue (S fuel') this (-1) None no_get_options s1
      = (s1, Ok (read_as (pushed_as v), ∅)) /\
    (lossless v ->
     getValue (S fuel') this (-1) None no_get_options s1
       = (s1, Ok (match v with HUndefined => HNull | _ => v end, ∅))).
Proof.
  eexists. split; [apply (pushValue_primitive _ _ _ _ _ _ Hthis Hstack Hprim)|].
  split; [simpl; apply lookup_insert_eq|].
  assert (forall s1, stacks s1 !! address t = Some (pushed_as v :: stk) ->
            heap s1 !! this = Some (OThread t) ->
            getValue (S fuel') this (-1) None no_get_options s1
              = (s1, Ok (read_as (pushed_as v), ∅))) as Hget.
  { intros s1 Hs1 Ht1. apply (getValue_top_primitive _ _ t stk); assumption. }
  split.
  - apply Hget; [simpl; apply lookup_insert_eq|exact Hthis].
  - intros Hl. rewrite <- (lossless_pushed v Hprim Hl).
    apply Hget; [simpl; apply lookup_insert_eq|exact Hthis].
Qed.

Lemma roundtrip_primitive_witness :
  exists s1,
    pushValue 1 1 (HString "wasmoon") no_options example_root = (s1, Ok None) /\
    stacks s1 !! 1 = Some [LString "wasmoon"] /\
    getValue 1 1 (-1) None no_get_options s1 = (s1, Ok (HString "wasmoon", ∅)).
Proof.
  destruct (roundtrip_primitive 0 0 1 example_root_fields [] (HString "wasmoon")
              example_root) as (s1 & Hpush & Hstk & _ & Hget).
  - vm_compute. reflexivity.
  - vm_compute. reflexivity.
  - exact I.
  - exists s1. split; [exact Hpush|]. split; [exact Hstk|].
    apply Hget. reflexivity.
Defined.

(** C1 as stated fails for [undefined]: it is pushed as nil and nil reads
    back as [null]. *)
Lemma roundtrip_undefined_counterexample :
  snd (pushValue 1 1 HUndefined no_options example_root) = Ok None /\
  snd (getValue 1 1 (-1) None no_get_options
         (fst (pushValue 1 1 HUndefined no_options example_root)))
    = Ok (HNull, ∅) /\
  HNull <> HUndefined.
Proof. split; [|split]; [vm_compute; reflexivity..|discriminate]. Qed.

Lemma getValue_index_zero_witness :
  getValue 1 1 0 None no_get_options example_root
    = (example_root, Fail (Throw IndexMustBeNonZero)) /\
  snd (getValue 1 1 (-1) None no_get_options example_root)
    <> Fail (Throw IndexMustBeNonZero).
Proof.
  split.
  - apply (proj1 getValue_index_zero).
  - apply (proj2 getValue_index_zero). lia.
Defined.

Lemma pushValue_unsupported_witness :
  pushValue 1 1 (HSymbol "tag") no_options example_root
    = (example_root, Fail (Throw (UnsupportedType "symbol"))).
Proof.
  apply (pushValue_unsupported 0 1 example_root_fields (HSymbol "tag") no_options example_root).
  - vm_compute. reflexivity.
  - reflexivity.
  - reflexivity.
  - reflexivity.
Defined.

(** C8 as stated fails in two ways: with [reference: true] a symbol is
    pushed as a host reference, and a bigint whose key is in the cycle-guard
    map is pushed as a copy of the recorded slot (here the element of the
    array [[5n]], recorded under the key "5"). *)
Lemma pushValue_unsupported_counterexample :
  (let r := pushValue 1 1 (HSymbol "tag") (mkPushOptions None true false false)
              example_root in
   snd r = Ok None /\ stacks (fst r) !! 1 = Some [LUserData 19]) /\
  (let s := set_heap <[10 := OArray [HBigInt 5]]> example_root in
   let r := pushValue 2 1 (HObject 10) no_options s in
   snd r = Ok (Some {["5" := 1]}) /\
   stacks (fst r) !! 1 = Some [LTable 19] /\
   objects (fst r) !! 19 = Some (VTable [(LInteger 1, LTable 19)] None)).
Proof. vm_compute. repeat split. Qed.

(** ** The thread branch of [pushValue] (claim C10) *)

(** The thread branch pushes onto the stack of the wrapped thread. *)
Lemma pushValue_thread fuel this t o target stk s :
  heap s !! this = Some (OThread t) ->
  heap s !! o = Some (OThread target) ->
  stacks s !! address target = Some stk ->
  pushValue (S fuel) this (HObject o) no_options s
    = (set_stacks <[address target := LThread (address target) :: stk]> s, Ok None).
Proof.
  intros Hthis Ho Hstk. simpl. msteps.
  unfold getValueDecorations. rewrite Ho. simpl. rewrite Ho.
  unfold lua_pushthread, push, put_stack. msteps. reflexivity.
Qed.

(** C10 at the failing input: the root context pushes the wrapper of its
    child context.  The call succeeds, the root's stack is what it was and
    the child's own stack has the new slot. *)
Theorem pushValue_thread_stack_unchanged :
  let r := pushValue 1 1 (HObject 7) no_options example_child in
  snd r = Ok None /\
  stacks example_child !! 1 = Some [LThread 2] /\
  stacks (fst r) !! 1 = Some [LThread 2] /\
  stacks example_child !! 2 = Some [] /\
  stacks (fst r) !! 2 = Some [LThread 2].
Proof. vm_compute. repeat split. Qed.

(** ** The wrapper of a guest function on a closed context (claim C7) *)

Lemma isClosed_state this s : fst (isClosed this s) = s.
Proof.
  unfold isClosed. rewrite bind_get_state.
  destruct (isClosed_along _ _ _); reflexivity.
Qed.

(** C7: when the owning context is closed, the wrapper resolves to a new
    empty array; no field of the VM, of the function table or of the
    reference table changes and nothing is appended to the trace. *)
Theorem jsFunc_closed (W : World) fuel this func args s
    (Hclosed : snd (isClosed this s) = Ok true) :
  exists s' array,
    jsFunc W fuel this func args s = (s', Ok array) /\
    heap s' = <[array := OArray []]> (heap s) /\
    heap s !! array = None /\
    stacks s' = stacks s /\ objects s' = objects s /\
    metatables s' = metatables s /\ registry s' = registry s /\
    globals s' = globals s /\ fn_table s' = fn_table s /\
    refs s' = refs s /\ trace s' = trace s.
Proof.
  exists (set_heap <[fresh_handle (heap s) := OArray []]> s), (fresh_handle (heap s)).
  split.
  - unfold jsFunc.
    pose proof (isClosed_state this s) as Hs.
    destruct (isClosed this s) as [s1 r] eqn:E. simpl in *. subst s1 r.
    rewrite (bind_ok _ _ _ _ _ E). reflexivity.
  - repeat split.
    apply not_elem_of_dom. unfold fresh_handle.
    pose proof (is_fresh ({[0]} ∪ dom (heap s))) as Hf. set_solver.
Qed.

Lemma jsFunc_closed_witness :
  exists s' array,
    jsFunc idle_world 3 1 5 [HNumber (Integral 1)] example_closed = (s', Ok array) /\
    heap s' = <[array := OArray []]> (heap example_closed) /\
    heap example_closed !! array = None /\
    stacks s' = stacks example_closed /\ objects s' = objects example_closed /\
    metatables s' = metatables example_closed /\ registry s' = registry example_closed /\
    globals s' = globals example_closed /\ fn_table s' = fn_table example_closed /\
    refs s' = refs example_closed /\ trace s' = trace example_closed.
Proof.
  apply jsFunc_closed. vm_compute. reflexivity.
Defined.

(** ** Relations kept by monadic code *)

Section Keeps.
Context (R : State -> State -> Prop).
Context (R_refl : forall s, R s s).
Context (R_trans : forall a b c, R a b -> R b c -> R a c).

Lemma keeps_ret {A} (a : A) : keeps R (ret a).
Proof. intros s. apply R_refl. Qed.

Lemma keeps_fail {A} f : keeps R (@fail A f).
Proof. intros s. apply R_refl. Qed.

Lemma keeps_get_state : keeps R get_state.
Proof. intros s. apply R_refl. Qed.

Lemma keeps_bind {A B} (m : M A) (k : A -> M B) :
  keeps R m -> (forall a, keeps R (k a)) -> keeps R (bind m k).
Proof.
  intros Hm Hk s. unfold bind. specialize (Hm s).
  destruct (m s) as [s' [a|f]]; simpl in *; [|exact Hm].
  eapply R_trans; [exact Hm|apply Hk].
Qed.

Lemma keeps_modify g : (forall s, R s (g s)) -> keeps R (modify g).
Proof. intros H s. apply H. Qed.

Lemma keeps_stack_of L : keeps R (stack_of L).
Proof. intros s. unfold stack_of. destruct (stacks s !! L); apply R_refl. Qed.

Lemma keeps_thread_of this : keeps R (thread_of this).
Proof.
  intros s. unfold thread_of. destruct (heap s !! this) as [[]|]; apply R_refl.
Qed.

Lemma keeps_object_at p : keeps R (object_at p).
Proof. intros s. unfold object_at. destruct (objects s !! p); apply R_refl. Qed.
End Keeps.

Lemma extends_refl s : extends s s.
Proof. split; [reflexivity|]. exists []. symmetry. apply app_nil_r. Qed.

Lemma extends_trans a b c : extends a b -> extends b c -> extends a c.
Proof.
  intros [Hh1 [m1 Ht1]] [Hh2 [m2 Ht2]]. split; [congruence|].
  exists (m1 ++ m2). rewrite Ht2, Ht1, app_assoc. reflexivity.
Qed.

Lemma extends_emit e s : extends s (emit e s).
Proof. split; [reflexivity|]. exists [e]. reflexivity. Qed.

Ltac keep_step R_refl R_trans :=
  first
    [ apply (keeps_ret _ R_refl)
    | apply (keeps_fail _ R_refl)
    | apply (keeps_get_state _ R_refl)
    | apply (keeps_stack_of _ R_refl)
    | apply (keeps_thread_of _ R_refl)
    | apply (keeps_object_at _ R_refl)
    | apply (keeps_bind _ R_trans); [|intros ?]
    | match goal with
      | |- keeps _ (match ?x with _ => _ end) => destruct x
      end ].

Ltac keep_extends :=
  avoid_prims;
  repeat first
    [ keep_step extends_refl extends_trans
    | apply keeps_modify; intros ?; first [apply extends_refl | apply extends_emit] ].

Lemma extends_removeFunction p : keeps extends (removeFunction p).
Proof.
  unfold removeFunction. apply keeps_modify. intros s.
  split; [reflexivity|]. exists [ERemoveFunction p]. reflexivity.
Qed.

Lemma extends_luaL_checkudata L idx tname : keeps extends (luaL_checkudata L idx tname).
Proof. unfold luaL_checkudata. keep_extends. Qed.

Lemma extends_functionGc L : keeps extends (functionGc L).
Proof.
  unfold functionGc.
  apply (keeps_bind _ extends_trans); [apply extends_luaL_checkudata|]. intros p.
  apply (keeps_bind _ extends_trans); [keep_extends|]. intros fp.
  apply (keeps_bind _ extends_trans); [apply extends_removeFunction|]. intros _.
  keep_extends.
Qed.

Lemma extends_jsRefGc L : keeps extends (jsRefGc L).
Proof.
  unfold jsRefGc.
  apply (keeps_bind _ extends_trans); [apply extends_luaL_checkudata|]. intros p.
  keep_extends.
Qed.

Lemma extends_promiseGc L : keeps extends (promiseGc L).
Proof.
  unfold promiseGc.
  apply (keeps_bind _ extends_trans); [apply extends_luaL_checkudata|]. intros p.
  keep_extends.
Qed.

Lemma finalize_spec L po s :
  exists s', finalize L po s = (s', Ok tt) /\ extends s s'.
Proof.
  unfold finalize.
  assert (Hcall : forall gc : Z -> M LuaReturn, keeps extends (gc L) ->
            extends s (fst ((put_stack L [LUserData (fst po)];; gc L) s))).
  { intros gc Hgc. apply (keeps_bind _ extends_trans); [keep_extends|]. intros _. exact Hgc. }
  destruct (finalizer_of s (snd po)) as [[]|]; eexists; (split; [reflexivity|]);
    first [apply extends_refl | apply Hcall].
  - apply extends_functionGc.
  - apply extends_jsRefGc.
  - apply extends_promiseGc.
Qed.

Lemma finalize_all_spec L pos :
  forall s, exists s', finalize_all L pos s = (s', Ok tt) /\ extends s s'.
Proof.
  induction pos as [|po pos IH]; intros s; simpl.
  - exists s. split; [reflexivity|apply extends_refl].
  - destruct (finalize_spec L po s) as (s1 & E1 & H1).
    destruct (IH s1) as (s2 & E2 & H2).
    exists s2. split; [|eapply extends_trans; eassumption].
    rewrite (bind_ok _ _ _ _ _ E1). exact E2.
Qed.

Lemma lua_close_spec L stk s :
  stacks s !! L = Some stk ->
  exists s' mid,
    lua_close L s = (s', Ok tt) /\
    heap s' = heap s /\
    trace s' = trace s ++ EClose L :: mid.
Proof.
  intros Hstk. unfold lua_close. msteps.
  destruct (finalize_all_spec L (map_to_list (objects (emit (EClose L) s)))
              (emit (EClose L) s)) as (s1 & E1 & Hh & mid & Ht).
  rewrite (bind_ok _ _ _ _ _ E1). msteps.
  eexists _, mid. split; [reflexivity|]. simpl. split; [exact Hh|].
  rewrite Ht. simpl. rewrite <- app_assoc. reflexivity.
Qed.

(** ** Closing a root twice (claim C5) *)

Lemma released_by_same s s' e :
  objects s' = objects s -> metatables s' = metatables s ->
  released_by s e -> released_by s' e.
Proof.
  intros Ho Hm (p & w & m & Hp & Hmt & ->). exists p, w, m.
  rewrite Ho, Hm. repeat split; assumption.
Qed.

Lemma finalized_refl s : finalized s s.
Proof.
  repeat split. exists []. split; [symmetry; apply app_nil_r|constructor].
Qed.

Lemma finalized_trans a b c : finalized a b -> finalized b c -> finalized a c.
Proof.
  intros (Hh1 & Ho1 & Hm1 & m1 & Ht1 & Hf1) (Hh2 & Ho2 & Hm2 & m2 & Ht2 & Hf2).
  split; [congruence|]. split; [congruence|]. split; [congruence|].
  exists (m1 ++ m2). split; [rewrite Ht2, Ht1, app_assoc; reflexivity|].
  apply Forall_app. split; [exact Hf1|].
  eapply Forall_impl; [exact Hf2|]. intros e He.
  apply (released_by_same b a); [congruence|congruence|exact He].
Qed.

Lemma finalized_same s s' :
  heap s' = heap s -> objects s' = objects s -> metatables s' = metatables s ->
  trace s' = trace s -> finalized s s'.
Proof.
  intros Hh Ho Hm Ht. repeat split; try assumption.
  exists []. split; [rewrite Ht; symmetry; apply app_nil_r|constructor].
Qed.

Lemma finalized_functionGc L s : finalized s (fst (functionGc L s)).
Proof.
  unfold functionGc, luaL_checkudata, luaL_testudata.
  destruct (stacks s !! L) as [stk|] eqn:Hstk;
    [|unfold bind, stack_of; rewrite Hstk; simpl; apply finalized_refl].
  msteps.
  assert (Hnull : finalized s
            (fst ((let* a := ret 0 in
                   let* userDataPointer := (if a =? 0 then fail Stuck else ret a) in
                   let* functionPointer := module_getValue userDataPointer in
                   removeFunction functionPointer;; ret ROk) s)))
    by apply finalized_refl.
  destruct (slot stk 1) as [[| | | | | | |p| |]|]; try exact Hnull.
  destruct (objects s !! p) as [[|w [m|]| |]|] eqn:Hp; try exact Hnull.
  destruct (metatables s !! LuaMetatables_name FunctionReference) as [m'|] eqn:Hm;
    try exact Hnull.
  destruct (decide (m = m')) as [<-|Hne]; [|exact Hnull].
  msteps. destruct (Z.eqb_spec p 0) as [Hz|Hz]; [apply finalized_refl|].
  unfold module_getValue, removeFunction. msteps.
  repeat split. exists [ERemoveFunction w]. split; [reflexivity|].
  constructor; [|constructor]. exists p, w, m. repeat split; assumption.
Qed.

Lemma finalized_unref_gc L tname s :
  finalized s
    (fst ((let* userDataPointer := luaL_checkudata L 1 tname in
           let* referencePointer := module_getValue userDataPointer in
           unref referencePointer;; ret ROk) s)).
Proof.
  assert (keeps extends (let* userDataPointer := luaL_checkudata L 1 tname in
                         let* referencePointer := module_getValue userDataPointer in
                         unref referencePointer;; ret ROk)) as Hext.
  { apply (keeps_bind _ extends_trans); [apply extends_luaL_checkudata|]. intros p.
    keep_extends. }
  assert (forall (R : State -> State -> Prop),
            (forall a, R a a) -> (forall a b c, R a b -> R b c -> R a c) ->
            (forall a g, R a (set_refs g a)) ->
            R s (fst ((let* userDataPointer := luaL_checkudata L 1 tname in
                       let* referencePointer := module_getValue userDataPointer in
                       unref referencePointer;; ret ROk) s))) as Hgen.
  { intros R Hrefl Htrans Hrefs.
    assert (keeps R (let* userDataPointer := luaL_checkudata L 1 tname in
                     let* referencePointer := module_getValue userDataPointer in
                     unref referencePointer;; ret ROk)) as Hk.
    { unfold luaL_checkudata. avoid_prims.
      repeat first
        [ keep_step Hrefl Htrans
        | apply keeps_modify; intros ?; apply Hrefs ]. }
    apply Hk. }
  apply (Hgen finalized); [apply finalized_refl|apply finalized_trans|].
  intros a g. apply finalized_same; reflexivity.
Qed.

Lemma finalized_finalize L po s :
  exists s', finalize L po s = (s', Ok tt) /\ finalized s s'.
Proof.
  unfold finalize.
  assert (Hcall : forall gc : Z -> M LuaReturn,
            (forall s0, finalized s0 (fst (gc L s0))) ->
            finalized s (fst ((put_stack L [LUserData (fst po)];; gc L) s))).
  { intros gc Hgc. unfold put_stack. rewrite bind_modify.
    eapply finalized_trans; [|apply Hgc]. apply finalized_same; reflexivity. }
  destruct (finalizer_of s (snd po)) as [[]|]; eexists; (split; [reflexivity|]);
    first [apply finalized_refl | apply Hcall].
  - apply finalized_functionGc.
  - intros s0. apply (finalized_unref_gc L JsReference).
  - intros s0. apply (finalized_unref_gc L PromiseMt).
Qed.

Lemma finalized_finalize_all L pos :
  forall s, exists s', finalize_all L pos s = (s', Ok tt) /\ finalized s s'.
Proof.
  induction pos as [|po pos IH]; intros s; simpl.
  - exists s. split; [reflexivity|apply finalized_refl].
  - destruct (finalized_finalize L po s) as (s1 & E1 & H1).
    destruct (IH s1) as (s2 & E2 & H2).
    exists s2. split; [|eapply finalized_trans; eassumption].
    rewrite (bind_ok _ _ _ _ _ E1). exact E2.
Qed.

Lemma lua_close_released L stk s :
  stacks s !! L = Some stk ->
  exists s' mid,
    lua_close L s = (s', Ok tt) /\
    heap s' = heap s /\
    trace s' = trace s ++ EClose L :: mid /\
    Forall (released_by s) mid.
Proof.
  intros Hstk. unfold lua_close. msteps.
  destruct (finalized_finalize_all L (map_to_list (objects (emit (EClose L) s)))
              (emit (EClose L) s)) as (s1 & E1 & Hh & Ho & Hm & mid & Ht & Hf).
  rewrite (bind_ok _ _ _ _ _ E1). msteps.
  eexists _, mid. split; [reflexivity|]. simpl. split; [exact Hh|].
  split; [rewrite Ht; simpl; rewrite <- app_assoc; reflexivity|].
  eapply Forall_impl; [exact Hf|]. intros e He.
  apply (released_by_same (emit (EClose L) s) s); [reflexivity|reflexivity|exact He].
Qed.

Lemma holds_callable_held s p w m :
  objects s !! p = Some (VUserData w (Some m)) ->
  metatables s !! LuaMetatables_name FunctionReference = Some m ->
  holds_callable s w = true.
Proof.
  intros Hp Hm. unfold holds_callable. apply existsb_exists.
  exists (VUserData w (Some m)). split.
  - apply list_elem_of_In. apply list_elem_of_fmap. exists (p, VUserData w (Some m)).
    split; [reflexivity|]. apply elem_of_map_to_list. exact Hp.
  - rewrite Z.eqb_refl. simpl. apply bool_decide_eq_true_2. exact Hm.
Qed.

Lemma released_not_held s q mid :
  holds_callable s q = false -> Forall (released_by s) mid ->
  count_occ Event_eq_dec mid (ERemoveFunction q) = 0%nat.
Proof.
  intros Hq Hmid. apply count_occ_not_In. intros Hin.
  apply list_elem_of_In in Hin.
  rewrite Forall_forall in Hmid. destruct (Hmid _ Hin) as (p & w & m & Hp & Hm & E).
  injection E as ->. rewrite (holds_callable_held s p w m Hp Hm) in Hq. discriminate.
Qed.

Lemma released_no_close s L mid :
  Forall (released_by s) mid -> count_occ Event_eq_dec mid (EClose L) = 0%nat.
Proof.
  intros Hmid. apply count_occ_not_In. intros Hin.
  apply list_elem_of_In in Hin.
  rewrite Forall_forall in Hmid. destruct (Hmid _ Hin) as (p & w & m & _ & _ & E).
  discriminate E.
Qed.

Lemma own_callables_once g q :
  NoDup (own_callables g) -> q ∈ own_callables g ->
  count_occ Event_eq_dec
    [ERemoveFunction (functionGcPointer g); ERemoveFunction (jsRefGcPointer g);
     ERemoveFunction (promiseGcPointer g); ERemoveFunction (allocatorFunctionPointer g)]
    (ERemoveFunction q) = 1%nat.
Proof.
  unfold own_callables. intros Hd Hq.
  apply NoDup_cons in Hd as [Ha Hd]. apply NoDup_cons in Hd as [Hb Hd].
  apply NoDup_cons in Hd as [Hc _].
  apply not_elem_of_cons in Ha as [Hab Ha]. apply not_elem_of_cons in Ha as [Hac Ha].
  apply not_elem_of_cons in Ha as [Had _].
  apply not_elem_of_cons in Hb as [Hbc Hb]. apply not_elem_of_cons in Hb as [Hbd _].
  apply not_elem_of_cons in Hc as [Hcd _].
  rewrite !elem_of_cons in Hq.
  destruct Hq as [->|[->|[->|[->|Hq]]]]; [..|inversion Hq];
    repeat first [ rewrite count_occ_cons_eq by reflexivity
                 | rewrite count_occ_cons_neq by (intros [=]; intuition congruence) ];
    reflexivity.
Qed.

Lemma close_closed this t s :
  heap s !! this = Some (OThread t) -> is_Some (global t) -> closed t = true ->
  close this s = (s, Ok tt).
Proof.
  intros Hthis [g Hg] Hc. unfold close. msteps. rewrite Hg, Hc. reflexivity.
Qed.

(** C5: on an open root whose VM state is live, [close()] sets the flag,
    calls [lua_close] once and then removes the two gc callables, the
    promise gc callable and the allocator from the function table, in this
    order; the only other releases of the call are those of the callables
    that function-reference userdata of the VM hold, which the finalizers
    inside [lua_close] perform.  So, the four callables of the root being
    distinct and held by no such userdata, each of them is released exactly
    once.  The call ends without an error, and so does every further call,
    which changes nothing. *)
Theorem close_idempotent this t g stk s
    (Hthis : heap s !! this = Some (OThread t))
    (Hglobal : global t = Some g)
    (Hopen : closed t = false)
    (Hlive : stacks s !! address t = Some stk)
    (Hdistinct : NoDup (own_callables g))
    (Hown : Forall (fun q => holds_callable s q = false) (own_callables g)) :
  exists s1 mid,
    close this s = (s1, Ok tt) /\
    trace s1 = trace s ++ EClose (address t) :: mid ++
                 [ERemoveFunction (functionGcPointer g);
                  ERemoveFunction (jsRefGcPointer g);
                  ERemoveFunction (promiseGcPointer g);
                  ERemoveFunction (allocatorFunctionPointer g)] /\
    Forall (released_by s) mid /\
    (forall q, q ∈ own_callables g ->
       count_occ Event_eq_dec
         (EClose (address t) :: mid ++
            [ERemoveFunction (functionGcPointer g);
             ERemoveFunction (jsRefGcPointer g);
             ERemoveFunction (promiseGcPointer g);
             ERemoveFunction (allocatorFunctionPointer g)])
         (ERemoveFunction q) = 1%nat) /\
    count_occ Event_eq_dec
      (EClose (address t) :: mid ++
         [ERemoveFunction (functionGcPointer g);
          ERemoveFunction (jsRefGcPointer g);
          ERemoveFunction (promiseGcPointer g);
          ERemoveFunction (allocatorFunctionPointer g)])
      (EClose (address t)) = 1%nat /\
    fn_table s1 !! functionGcPointer g = None /\
    fn_table s1 !! jsRefGcPointer g = None /\
    fn_table s1 !! promiseGcPointer g = None /\
    fn_table s1 !! allocatorFunctionPointer g = None /\
    forall n, close_times n this s1 = (s1, Ok tt).
Proof.
  unfold close. msteps. rewrite Hglobal, Hopen.
  unfold update_thread. msteps.
  set (sa := set_heap _ s).
  destruct (lua_close_released (address t) stk sa Hlive) as (sb & mid & Eb & Hh & Ht & Hmid).
  assert (Forall (released_by s) mid) as Hmid'.
  { eapply Forall_impl; [exact Hmid|]. intros e He.
    apply (released_by_same sa s); [reflexivity|reflexivity|exact He]. }
  rewrite (bind_ok _ _ _ _ _ Eb).
  unfold removeFunction. msteps.
  eexists _, mid. split; [reflexivity|].
  split; [simpl; rewrite Ht; simpl; rewrite <- !app_assoc; reflexivity|].
  split; [exact Hmid'|].
  split.
  { intros q Hq. rewrite count_occ_cons_neq by discriminate.
    rewrite count_occ_app.
    rewrite (released_not_held s q mid); [|rewrite Forall_forall in Hown; apply Hown, Hq
                                         |exact Hmid'].
    apply own_callables_once; assumption. }
  split.
  { rewrite count_occ_cons_eq by reflexivity. rewrite count_occ_app.
    rewrite (released_no_close s (address t) mid Hmid'). reflexivity. }
  simpl.
  repeat (split; [repeat first [apply lookup_delete_eq
                               | rewrite lookup_delete_ne by congruence
                               | rewrite lookup_delete; case_decide; [reflexivity|] ]|]).
  intros n. induction n as [|n IH]; [reflexivity|]. simpl.
  erewrite bind_ok; [exact IH|].
  apply (close_closed this (set_closed true t)).
  - simpl. rewrite Hh. subst sa. simpl. apply lookup_insert_eq.
  - simpl. rewrite Hglobal. eauto.
  - reflexivity.
Qed.

Lemma close_idempotent_witness :
  exists s1 mid,
    close 1 example_root = (s1, Ok tt) /\
    trace s1 = trace example_root ++ EClose 1 :: mid ++
                 [ERemoveFunction 2; ERemoveFunction 3;
                  ERemoveFunction 4; ERemoveFunction 1] /\
    count_occ Event_eq_dec
      (EClose 1 :: mid ++ [ERemoveFunction 2; ERemoveFunction 3;
                           ERemoveFunction 4; ERemoveFunction 1])
      (ERemoveFunction 1) = 1%nat /\
    fn_table s1 !! 2 = None /\ fn_table s1 !! 3 = None /\
    fn_table s1 !! 4 = None /\ fn_table s1 !! 1 = None /\
    forall n, close_times n 1 s1 = (s1, Ok tt).
Proof.
  destruct (close_idempotent 1 example_root_fields (mkGlobal 2 3 4 1) [] example_root)
    as (s1 & mid & Hclose & Htrace & _ & Hcount & _ & H2 & H3 & H4 & H1 & Hagain).
  - vm_compute. reflexivity.
  - reflexivity.
  - reflexivity.
  - vm_compute. reflexivity.
  - apply (bool_decide_unpack _). reflexivity.
  - repeat constructor.
  - exists s1, mid. split; [exact Hclose|]. split; [exact Htrace|].
    split; [apply (Hcount 1); unfold own_callables; simpl; rewrite !elem_of_cons; tauto|].
    repeat split; assumption.
Defined.

(** ** What the value codec leaves alone *)

Lemma bridge_frame_refl s : bridge_frame s s.
Proof. split; intros; assumption. Qed.

Lemma bridge_frame_trans a b c : bridge_frame a b -> bridge_frame b c -> bridge_frame a c.
Proof. intros [H1 H2] [H3 H4]. split; intros; eauto. Qed.

Lemma bridge_frame_same s s' :
  heap s' = heap s -> fn_table s' = fn_table s -> bridge_frame s s'.
Proof. intros Hh Hf. split; intros; congruence. Qed.

Lemma fresh_handle_fresh {A} (m : gmap Z A) : m !! fresh_handle m = None.
Proof.
  apply not_elem_of_dom. unfold fresh_handle.
  pose proof (is_fresh ({[0]} ∪ dom m)) as Hf. set_solver.
Qed.

Lemma fresh_handle_nonzero {A} (m : gmap Z A) : fresh_handle m <> 0.
Proof.
  unfold fresh_handle.
  pose proof (is_fresh ({[0]} ∪ dom m)) as Hf. set_solver.
Qed.

Lemma frame_new_host o : keeps bridge_frame (new_host o).
Proof.
  intros s. split; simpl; [|intros; assumption].
  intros this t Ht. rewrite lookup_insert_ne; [exact Ht|].
  intros <-. rewrite fresh_handle_fresh in Ht. discriminate.
Qed.

Lemma frame_addFunction c :
  (forall this calledL raw results, c <> NContinuance this calledL raw results) ->
  keeps bridge_frame (addFunction c).
Proof.
  intros Hc s. split; simpl; [intros; assumption|].
  intros h this calledL raw results.
  rewrite lookup_insert. case_decide; [|tauto].
  intros [= ->]. exfalso. eapply Hc. reflexivity.
Qed.

Lemma frame_removeFunction p : keeps bridge_frame (removeFunction p).
Proof.
  intros s. split; simpl; [intros; assumption|].
  intros h this calledL raw results.
  rewrite lookup_delete. case_decide; [discriminate|tauto].
Qed.

Lemma frame_set_property o key value : keeps bridge_frame (set_property o key value).
Proof.
  intros s. unfold set_property. rewrite bind_get_state.
  destruct (heap s !! o) as [[]|] eqn:Ho; try apply bridge_frame_refl.
  destruct (ToPropertyKey (heap s) key); [|apply bridge_frame_refl].
  case_bool_decide; [apply bridge_frame_refl|].
  split; simpl; [|intros; assumption].
  intros this t Ht. rewrite lookup_insert_ne; [exact Ht|]. congruence.
Qed.

(** Decomposes a goal [keeps bridge_frame m] along the structure of [m]. *)
Ltac frame_leaf :=
  first
    [ assumption
    | apply frame_new_host
    | apply frame_removeFunction
    | apply frame_set_property
    | apply frame_addFunction; intros; discriminate
    | apply keeps_modify; intros ?; apply bridge_frame_same; reflexivity
    | (intros ?; apply bridge_frame_same; reflexivity) ].

Ltac frame_unfold :=
  unfold lua_pushnil, lua_pushinteger, lua_pushnumber, lua_pushstring, lua_pushboolean,
    lua_pushthread, lua_pushvalue, lua_pop, lua_type, lua_tonumberx, lua_tolstring,
    lua_toboolean, lua_topointer, lua_tothread, lua_createtable, lua_settable, lua_setfield,
    lua_next, lua_newuserdatauv, module_setValue, module_getValue, luaL_getmetatable,
    lua_setmetatable, set_metatable_of, luaL_testudata, lua_pushcclosure, luaL_ref,
    luaL_tolstring, lua_gettop, getRef, unref, pop, getTop, push, put_stack, throw,
    new_object, ref, createAndPushJsReference, createAndPushFunctionReference,
    pushPromise, lua_yieldk.

Ltac frame_with tac :=
  frame_unfold;
  repeat first
    [ frame_leaf
    | tac
    | keep_step bridge_frame_refl bridge_frame_trans ].

Ltac frame := frame_with fail.

Lemma frame_stateToThread this L : keeps bridge_frame (stateToThread this L).
Proof. unfold stateToThread. frame. Qed.

Ltac frame_calls := first [apply frame_stateToThread].

Lemma frame_pushEntries push_value L table entries :
  (forall v o, keeps bridge_frame (push_value v o)) ->
  forall d, keeps bridge_frame (pushEntries push_value L table entries d).
Proof.
  intros Hpush. induction entries as [|[key value] rest IH]; intros d; simpl.
  - frame.
  - frame_with ltac:(first [apply Hpush | apply IH]).
Qed.

Lemma frame_pushValue fuel :
  forall this value options, keeps bridge_frame (pushValue fuel this value options).
Proof.
  induction fuel as [|fuel IH]; intros this value options; simpl.
  - frame.
  - frame_with ltac:(first [apply IH | apply frame_pushEntries; intros; apply IH]).
Qed.

Lemma frame_getTableValue_loop get_value n L idx this table :
  (forall i ty o, keeps bridge_frame (get_value i ty o)) ->
  forall done, keeps bridge_frame (getTableValue_loop get_value n L idx this table done).
Proof.
  intros Hget. induction n as [|n IH]; intros done; simpl.
  - frame.
  - frame_with ltac:(first [apply Hget | apply IH]).
Qed.

Lemma frame_getValue fuel :
  forall this idx type options, keeps bridge_frame (getValue fuel this idx type options).
Proof.
  induction fuel as [|fuel IH]; intros this idx type options; simpl.
  - frame.
  - frame_with ltac:(first [ apply frame_stateToThread
                           | apply frame_getTableValue_loop; intros; apply IH ]).
Qed.

Lemma frame_dumpStack_from this L count :
  forall i, keeps bridge_frame (dumpStack_from this L i count).
Proof.
  induction count as [|count IH]; intros i; simpl.
  - frame.
  - frame_with ltac:(first [apply frame_getValue | apply IH]).
Qed.

Lemma frame_dumpStack this : keeps bridge_frame (dumpStack this).
Proof. unfold dumpStack. frame_with ltac:(apply frame_dumpStack_from). Qed.

Lemma frame_pushItems fuel thread items : keeps bridge_frame (pushItems fuel thread items).
Proof.
  induction items as [|item rest IH]; simpl.
  - frame.
  - frame_with ltac:(first [apply frame_pushValue | apply IH]).
Qed.

Lemma frame_pushResults fuel thread results :
  keeps bridge_frame (pushResults fuel thread results).
Proof.
  unfold pushResults.
  frame_with ltac:(first [apply frame_pushValue | apply frame_pushItems]).
Qed.

Lemma frame_collectArgs fuel h decorations thread n :
  forall i, keeps bridge_frame (collectArgs fuel h decorations thread i n).
Proof.
  induction n as [|n IH]; intros i; simpl.
  - frame.
  - frame_with ltac:(first [apply frame_getValue | apply IH]).
Qed.

Lemma frame_createAndPushJsReference this object :
  keeps bridge_frame (createAndPushJsReference this object).
Proof. frame. Qed.

(** ** At most one continuance per context (claim C3) *)

Lemma one_continuance_frame s s' :
  one_continuance s -> bridge_frame s s' -> one_continuance s'.
Proof.
  intros Hinv [Hheap Hfn] this h (calledL & raw & results & Hh).
  destruct (Hinv this h) as (t & Ht & Hc).
  { exists calledL, raw, results. apply Hfn, Hh. }
  exists t. split; [apply Hheap, Ht|exact Hc].
Qed.

(** The installation of a new continuance, step by step. *)
Lemma installContinuance_spec this t calledL raw results s :
  heap s !! this = Some (OThread t) ->
  let released := match continuance t with Some p => delete p (fn_table s) | None => fn_table s end in
  let added := fresh_handle released in
  installContinuance this calledL raw results s =
    (mkState (stacks s) (objects s) (metatables s) (registry s) (globals s)
       (<[added := NContinuance this calledL raw results]> released)
       (refs s)
       (<[this := OThread (set_continuance (Some added) t)]> (heap s))
       (trace s ++ match continuance t with
                   | Some p => [ERemoveFunction p]
                   | None => []
                   end ++ [EAddFunction added]),
     Ok added).
Proof.
  intros Hthis released added. unfold installContinuance. msteps.
  destruct (continuance t) as [p|] eqn:Hc.
  - unfold removeFunction. msteps. unfold addFunction. rewrite bind_ok with
      (s' := emit (EAddFunction added)
               (set_fn_table <[added := NContinuance this calledL raw results]>
                  (emit (ERemoveFunction p) (set_fn_table (delete p) s)))) (a := added)
      by reflexivity.
    unfold update_thread. msteps. unfold ret, set_heap, emit, set_fn_table. simpl.
    rewrite <- app_assoc. reflexivity.
  - msteps. unfold addFunction. rewrite bind_ok with
      (s' := emit (EAddFunction added)
               (set_fn_table <[added := NContinuance this calledL raw results]> s))
      (a := added) by reflexivity.
    unfold update_thread. msteps. reflexivity.
Qed.

Lemma installContinuance_invariant this calledL raw results s :
  one_continuance s ->
  one_continuance (fst (installContinuance this calledL raw results s)).
Proof.
  intros Hinv.
  destruct (heap s !! this) as [[| | | |t| | | |]|] eqn:Hthis;
    try (unfold installContinuance, thread_of, bind; rewrite Hthis; exact Hinv).
  rewrite (installContinuance_spec _ _ _ _ _ _ Hthis). simpl.
  set (released := match continuance t with
                   | Some p => delete p (fn_table s) | None => fn_table s end).
  assert (Hsub : forall h c, released !! h = Some c -> fn_table s !! h = Some c).
  { intros h c. subst released. destruct (continuance t); [|tauto].
    rewrite lookup_delete. case_decide; [discriminate|tauto]. }
  assert (Hgone : forall h, continuance t = Some h -> released !! h = None).
  { intros h Hc. subst released. rewrite Hc. apply lookup_delete_eq. }
  intros this' h (calledL' & raw' & results' & Hh). simpl in Hh.
  rewrite lookup_insert in Hh. case_decide as Hadded.
  - injection Hh as <- <- <- <-. subst h.
    eexists. simpl. rewrite lookup_insert_eq. split; reflexivity.
  - destruct (Hinv this' h) as (t' & Ht' & Hc').
    { exists calledL', raw', results'. apply Hsub, Hh. }
    simpl. rewrite lookup_insert. case_decide as Hsame.
    + subst this'. rewrite Hthis in Ht'. injection Ht' as <-.
      rewrite (Hgone _ Hc') in Hh. discriminate.
    + exists t'. split; assumption.
Qed.

Lemma preserves_bind {A B} P (m : M A) (k : A -> M B) :
  preserves P m -> (forall a, preserves P (k a)) -> preserves P (bind m k).
Proof.
  intros Hm Hk s Hs. unfold bind. specialize (Hm s Hs).
  destruct (m s) as [s' [a|f]]; simpl in *; [apply Hk, Hm|exact Hm].
Qed.

Lemma preserves_frame {A} (m : M A) :
  keeps bridge_frame m -> preserves one_continuance m.
Proof. intros Hm s Hs. eapply one_continuance_frame; [exact Hs|apply Hm]. Qed.

Lemma clear_continuance_invariant this t c s :
  one_continuance s ->
  heap s !! this = Some (OThread t) ->
  continuance t = Some c ->
  fn_table s !! c = None ->
  one_continuance (set_heap <[this := OThread (set_continuance None t)]> s).
Proof.
  intros Hinv Hthis Hc Hgone this' h Hlive.
  destruct (Hinv this' h Hlive) as (t' & Ht' & Hc').
  simpl. rewrite lookup_insert. case_decide as Hsame.
  - subst this'. rewrite Hthis in Ht'. injection Ht' as <-.
    destruct Hlive as (calledL & raw & results & Hh). simpl in Hh.
    assert (h = c) by congruence. subst h. congruence.
  - exists t'. split; assumption.
Qed.

Ltac frame_rest tac :=
  match goal with
  | |- one_continuance (fst (?m ?s)) =>
      apply (preserves_frame m); [frame_with tac|]
  end.

Lemma continuanceCallback_invariant fuel this calledL raw results continuanceState
    status context :
  preserves one_continuance
    (continuanceCallback fuel this calledL raw results continuanceState status context).
Proof.
  intros s Hinv. unfold continuanceCallback.
  assert (Hinv1 : one_continuance (fst (removeFunction context s))).
  { eapply one_continuance_frame; [exact Hinv|apply frame_removeFunction]. }
  unfold removeFunction in *. rewrite bind_modify. simpl in Hinv1.
  set (s1 := emit _ _) in *.
  destruct (heap s1 !! this) as [[| | | |t| | | |]|] eqn:Hthis;
    try (unfold thread_of, bind; rewrite Hthis; exact Hinv1).
  msteps. case_bool_decide as Hc.
  - unfold update_thread. msteps.
    frame_rest ltac:(first [ apply frame_stateToThread | apply frame_dumpStack
                           | apply frame_pushResults ]).
    apply (clear_continuance_invariant this t context s1 Hinv1 Hthis Hc).
    subst s1. simpl. apply lookup_delete_eq.
  - msteps.
    frame_rest ltac:(first [ apply frame_stateToThread | apply frame_dumpStack
                           | apply frame_pushResults ]).
    exact Hinv1.
Qed.

Lemma resetThread_invariant (W : World) this :
  (forall L s, one_continuance s -> one_continuance (fst (lua_resetthread W L s))) ->
  preserves one_continuance (resetThread W this).
Proof.
  intros HW s Hinv. unfold resetThread.
  destruct (heap s !! this) as [[| | | |t| | | |]|] eqn:Hthis;
    try (unfold thread_of, bind; rewrite Hthis; exact Hinv).
  msteps. unfold lift at 1.
  pose proof (HW (address t) s Hinv) as H1.
  unfold bind at 1. destruct (lua_resetthread W (address t) s) as [s1 r]. simpl in H1.
  assert (H2 : one_continuance (fst (assertOk this r s1))).
  { revert s1 H1. apply preserves_frame. unfold assertOk. frame. }
  unfold bind at 1. destruct (assertOk this r s1) as [s2 [[]|f]]; simpl in H2; [|exact H2].
  destruct (heap s2 !! this) as [[| | | |t2| | | |]|] eqn:Hthis2;
    try (unfold thread_of, bind; rewrite Hthis2; exact H2).
  msteps. destruct (continuance t2) as [c|] eqn:Hc; [|exact H2].
  unfold removeFunction. msteps. unfold update_thread. msteps. simpl.
  apply (clear_continuance_invariant this t2 c); [| |exact Hc|].
  - change (one_continuance (fst (removeFunction c s2))).
    eapply one_continuance_frame; [exact H2|apply frame_removeFunction].
  - exact Hthis2.
  - simpl. apply lookup_delete_eq.
Qed.

Lemma hostFunctionCallback_invariant (W : World) fuel this target decorations options
    calledL :
  (forall target args, preserves one_continuance (apply W target args)) ->
  preserves one_continuance
    (hostFunctionCallback W fuel this target decorations options calledL).
Proof.
  intros HW. unfold hostFunctionCallback.
  apply preserves_bind; [apply preserves_frame; frame|]. intros argsQuantity.
  apply preserves_bind; [apply preserves_frame, frame_stateToThread|]. intros thread.
  apply preserves_bind; [apply preserves_frame; frame|]. intros s0.
  apply preserves_bind; [apply preserves_frame, frame_collectArgs|]. intros args.
  apply preserves_bind; [apply HW|]. intros result.
  apply preserves_bind; [apply preserves_frame; frame|]. intros s1.
  destruct (_ || _).
  - apply preserves_frame. frame_with ltac:(apply frame_pushResults).
  - destruct result; try solve [apply preserves_frame; frame].
    apply preserves_bind; [apply preserves_frame; frame|]. intros results.
    apply preserves_bind; [intros s Hs; apply installContinuance_invariant, Hs|].
    intros added.
    apply preserves_frame.
    frame_with ltac:(first [apply frame_createAndPushJsReference | apply frame_dumpStack]).
Qed.

Lemma frame_write_cell cell v : keeps bridge_frame (write_cell cell v).
Proof.
  intros s. unfold write_cell.
  destruct (heap s !! cell) as [[]|] eqn:Hcell; try apply bridge_frame_refl.
  split; simpl; [|intros; assumption].
  intros this t Ht. rewrite lookup_insert_ne; [exact Ht|]. congruence.
Qed.

Lemma frame_await_value fuel : forall v, keeps bridge_frame (await_value fuel v).
Proof.
  induction fuel as [|fuel IH]; intros v; simpl.
  - frame.
  - frame_with ltac:(first [apply frame_write_cell | apply IH]).
Qed.

Lemma frame_assertOk this r : keeps bridge_frame (assertOk this r).
Proof. unfold assertOk. frame. Qed.

Lemma resume_invariant (W : World) this argCount :
  (forall L n s, one_continuance s -> one_continuance (fst (lua_resume W L n s))) ->
  preserves one_continuance (resume W this argCount).
Proof.
  intros HW. unfold resume.
  apply preserves_bind; [apply preserves_frame; frame|]. intros t.
  apply preserves_bind; [apply preserves_frame; frame|]. intros _.
  apply preserves_bind.
  { intros s Hs. unfold lift. specialize (HW (address t) argCount s Hs).
    destruct (lua_resume W (address t) argCount s). exact HW. }
  intros r.
  apply preserves_frame. frame_with ltac:(apply frame_assertOk).
Qed.

Lemma run_loop_invariant (W : World) fuel this :
  (forall L n s, one_continuance s -> one_continuance (fst (lua_resume W L n s))) ->
  forall r, preserves one_continuance (run_loop W fuel this r).
Proof.
  intros HW. induction fuel as [|fuel IH]; intros r.
  - apply preserves_frame. simpl. frame.
  - cbn [run_loop]. case_bool_decide.
    + apply preserves_bind; [|intros next; apply IH].
      unfold run_body.
      apply preserves_bind; [apply preserves_frame, frame_dumpStack|]. intros _.
      apply preserves_bind.
      { apply preserves_frame.
        frame_with ltac:(first [ apply frame_getValue | apply frame_await_value
                               | apply frame_dumpStack ]). }
      intros _. apply resume_invariant, HW.
    + apply preserves_frame. frame_with ltac:(apply frame_dumpStack).
Qed.

Lemma run_invariant (W : World) fuel this argCount :
  (forall L n s, one_continuance s -> one_continuance (fst (lua_resume W L n s))) ->
  preserves one_continuance (run W fuel this argCount).
Proof.
  intros HW. unfold run.
  apply preserves_bind; [apply resume_invariant, HW|]. intros r.
  apply run_loop_invariant, HW.
Qed.

Lemma one_continuance_empty : one_continuance empty_state.
Proof. intros this h (calledL & raw & results & H). simpl in H. discriminate. Qed.

(** C3: in a world whose guest programs and host functions keep each
    context to one continuance, so do the closure of a pushed host function,
    the continuance closure, [resetThread], [run] and both directions of the
    value codec, starting from the empty state; and when the async path
    installs a continuance on a context, the handle the context held is
    removed from the function table before the new one is added, and the new
    one is then the only live continuance of that context. *)
Theorem one_continuance_invariant (W : World) (HW : world_keeps_one_continuance W) :
  one_continuance empty_state /\
  (forall fuel this target decorations options calledL,
     preserves one_continuance
       (hostFunctionCallback W fuel this target decorations options calledL)) /\
  (forall fuel this calledL raw results continuanceState status context,
     preserves one_continuance
       (continuanceCallback fuel this calledL raw results continuanceState status context)) /\
  (forall this, preserves one_continuance (resetThread W this)) /\
  (forall fuel this argCount, preserves one_continuance (run W fuel this argCount)) /\
  (forall fuel this value options,
     preserves one_continuance (pushValue fuel this value options)) /\
  (forall fuel this idx type options,
     preserves one_continuance (getValue fuel this idx type options)) /\
  (forall this t calledL raw results s,
     one_continuance s -> heap s !! this = Some (OThread t) ->
     exists s' added,
       installContinuance this calledL raw results s = (s', Ok added) /\
       trace s' = trace s ++ match continuance t with
                             | Some previous => [ERemoveFunction previous]
                             | None => []
                             end ++ [EAddFunction added] /\
       heap s' !! this = Some (OThread (set_continuance (Some added) t)) /\
       forall h, continuance_of s' this h <-> h = added).
Proof.
  destruct HW as (Happly & Hreset & Hresume).
  split; [exact one_continuance_empty|].
  split; [intros; apply hostFunctionCallback_invariant, Happly|].
  split; [intros; apply continuanceCallback_invariant|].
  split; [intros; apply resetThread_invariant, Hreset|].
  split; [intros; apply run_invariant, Hresume|].
  split; [intros; apply preserves_frame, frame_pushValue|].
  split; [intros; apply preserves_frame, frame_getValue|].
  intros this t calledL raw results s Hinv Hthis.
  pose proof (installContinuance_invariant this calledL raw results s Hinv) as Hinv'.
  rewrite (installContinuance_spec _ _ _ _ _ _ Hthis) in Hinv' |- *.
  eexists _, _. split; [reflexivity|]. simpl in *.
  split; [reflexivity|].
  split; [apply lookup_insert_eq|].
  intros h. split.
  - intros Hlive. destruct (Hinv' this h Hlive) as (t' & Ht' & Hc').
    simpl in Ht'. rewrite lookup_insert_eq in Ht'. injection Ht' as <-.
    simpl in Hc'. congruence.
  - intros ->. eexists _, _, _. simpl. apply lookup_insert_eq.
Qed.

Lemma idle_world_keeps_one_continuance : world_keeps_one_continuance idle_world.
Proof.
  split; [|split].
  - intros target args s Hs. exact Hs.
  - intros L s Hs. exact Hs.
  - intros L n s Hs. exact Hs.
Qed.

Lemma one_continuance_example_root : one_continuance example_root.
Proof.
  intros this h (calledL & raw & results & H).
  apply elem_of_map_to_list in H. vm_compute in H.
  repeat (apply elem_of_cons in H; destruct H as [H|H]; [discriminate H|]).
  apply elem_of_nil in H. contradiction.
Qed.

Lemma one_continuance_invariant_witness :
  exists s' added,
    installContinuance 1 3 false 21 example_awaiting = (s', Ok added) /\
    trace s' = trace example_awaiting ++ [ERemoveFunction 10] ++ [EAddFunction added] /\
    heap s' !! 1 = Some (OThread (mkThread 1 false None (Some added)
                                    (Some (mkGlobal 2 3 4 1)))) /\
    forall h, continuance_of s' 1 h <-> h = added.
Proof.
  pose proof (one_continuance_invariant idle_world idle_world_keeps_one_continuance)
    as (_ & _ & _ & _ & _ & _ & _ & Hinstall).
  apply (Hinstall 1 (mkThread 1 false None (Some 10) (Some (mkGlobal 2 3 4 1)))
           3 false 21 example_awaiting).
  - apply installContinuance_invariant, one_continuance_example_root.
  - vm_compute. reflexivity.
Defined.

(** ** A rejected await inside [run] (claim C4) *)

Lemma same_trace_refl s : same_trace s s.
Proof. split; reflexivity. Qed.

Lemma same_trace_trans a b c : same_trace a b -> same_trace b c -> same_trace a c.
Proof. unfold same_trace. intros [] []. split; congruence. Qed.

Ltac quiet_with tac :=
  frame_unfold; unfold stateToThread, set_property, new_host;
  repeat first
    [ assumption
    | tac
    | apply keeps_modify; intros ?; split; reflexivity
    | (intros ?; split; reflexivity)
    | keep_step same_trace_refl same_trace_trans ].

Ltac quiet := quiet_with fail.

Lemma quiet_getTableValue_loop get_value n L idx this table :
  (forall i ty o, keeps same_trace (get_value i ty o)) ->
  forall done, keeps same_trace (getTableValue_loop get_value n L idx this table done).
Proof.
  intros Hget. induction n as [|n IH]; intros done; simpl.
  - quiet.
  - quiet_with ltac:(first [apply Hget | apply IH]).
Qed.

Lemma quiet_getValue fuel :
  forall this idx type options, keeps same_trace (getValue fuel this idx type options).
Proof.
  induction fuel as [|fuel IH]; intros this idx type options; simpl.
  - quiet.
  - quiet_with ltac:(apply quiet_getTableValue_loop; intros; apply IH).
Qed.

Lemma quiet_dumpStack_from this L count :
  forall i, keeps same_trace (dumpStack_from this L i count).
Proof.
  induction count as [|count IH]; intros i; simpl.
  - quiet.
  - quiet_with ltac:(first [apply quiet_getValue | apply IH]).
Qed.

Lemma quiet_dumpStack this : keeps same_trace (dumpStack this).
Proof. unfold dumpStack. quiet_with ltac:(apply quiet_dumpStack_from). Qed.

Lemma quiet_pop this n : keeps same_trace (pop this n).
Proof. quiet. Qed.

Lemma await_rejects n : forall s p e,
  rejects_in n (heap s) p e ->
  await_value n (HObject p) s = (s, Fail (Throw (Rejection e))).
Proof.
  induction n as [|n IH]; intros s p e H; simpl in *; [contradiction|].
  rewrite bind_get_state.
  destruct (heap s !! p) as [[| | | | |[[v|e'|]|source results]| | |]|]; try contradiction.
  - subst e'. reflexivity.
  - rewrite (bind_fail _ _ _ _ _ (IH _ _ _ H)). reflexivity.
Qed.

Lemma run_turns_loop (W : World) this n :
  forall fuel r0 s0 s1 r,
    run_turns W n (n + S fuel) this r0 s0 = (s1, Ok r) ->
    run_loop W (n + S fuel) this r0 s0 = run_loop W (S fuel) this r s1.
Proof.
  induction n as [|n IH]; intros fuel r0 s0 s1 r Hturns.
  - cbn [run_turns] in Hturns. injection Hturns as -> ->. reflexivity.
  - change (S n + S fuel)%nat with (S (n + S fuel)) in *.
    cbn [run_turns run_loop] in *.
    destruct (bool_decide (result r0 = RYield)) eqn:Hy.
    + unfold bind in *.
      destruct (run_body W (S (n + S fuel)) this r0 s0) as [s' [next|f]];
        [|discriminate Hturns].
      apply IH. exact Hturns.
    + injection Hturns as -> ->. cbn [run_loop]. rewrite Hy. reflexivity.
Qed.

Lemma run_loop_rejection (W : World) fuel this r p e done s1 s2 s3 s4 :
  result r = RYield ->
  0 < resultCount r ->
  dumpStack this s1 = (s2, Ok tt) ->
  getValue (S fuel) this (-1) None no_get_options s2 = (s3, Ok (HObject p, done)) ->
  pop this (resultCount r) s3 = (s4, Ok tt) ->
  rejects_in (S fuel) (heap s4) p e ->
  run_loop W (S fuel) this r s1 = (s4, Fail (Throw (Rejection e))).
Proof.
  intros Hyield Hcount Hdump Hget Hpop Hrejects.
  cbn [run_loop]. rewrite bool_decide_eq_true_2 by exact Hyield.
  unfold run_body. rewrite !bind_bind.
  rewrite (bind_ok _ _ _ _ _ Hdump).
  apply Z.ltb_lt in Hcount. rewrite Hcount.
  rewrite !bind_bind. rewrite (bind_ok _ _ _ _ _ Hget).
  rewrite !bind_bind. rewrite (bind_ok _ _ _ _ _ Hpop).
  rewrite !bind_bind. rewrite bind_get_state. cbn [fst].
  assert (Hp : is_promise (heap s4) (HObject p) = true).
  { simpl in Hrejects |- *.
    destruct (heap s4 !! p) as [[]|]; try contradiction. reflexivity. }
  rewrite Hp. rewrite !bind_bind.
  rewrite (bind_fail _ _ _ _ _ (await_rejects _ _ _ _ Hrejects)). reflexivity.
Qed.

(** C4, amended: at whatever turn of the loop of [run] the value the guest
    yielded is a promise that settles with a rejection, [run] performs no
    further [lua_resume]: it ends with the rejection payload as its own
    error, in the state the pop of the yielded results left.  The function
    table and every context are as they were when the guest yielded, so the
    continuance the guest is suspended with is still installed. *)
Theorem run_rejection (W : World) n fuel this argCount r0 r p e done s s0 s1 s2 s3 s4
    (Hresume : resume W this argCount s = (s0, Ok r0))
    (Hturns : run_turns W n (n + S fuel) this r0 s0 = (s1, Ok r))
    (Hyield : result r = RYield)
    (Hcount : 0 < resultCount r)
    (Hdump : dumpStack this s1 = (s2, Ok tt))
    (Hget : getValue (S fuel) this (-1) None no_get_options s2 = (s3, Ok (HObject p, done)))
    (Hpop : pop this (resultCount r) s3 = (s4, Ok tt))
    (Hrejects : rejects_in (S fuel) (heap s4) p e) :
  run W (n + S fuel) this argCount s = (s4, Fail (Throw (Rejection e))) /\
  resumes (trace s4) = resumes (trace s1) /\
  fn_table s4 = fn_table s1 /\
  (forall context t k c,
      heap s1 !! context = Some (OThread t) -> continuance t = Some k ->
      fn_table s1 !! k = Some c ->
      heap s4 !! context = Some (OThread t) /\ fn_table s4 !! k = Some c).
Proof.
  pose proof (quiet_dumpStack this s1) as H1. rewrite Hdump in H1.
  pose proof (quiet_getValue (S fuel) this (-1) None no_get_options s2) as H2.
  rewrite Hget in H2.
  pose proof (quiet_pop this (resultCount r) s3) as H3. rewrite Hpop in H3.
  destruct H1 as [H1 F1], H2 as [H2 F2], H3 as [H3 F3]. cbn [fst] in *.
  assert (fn_table s4 = fn_table s1) as Hfn by congruence.
  split; [|split; [|split]].
  - unfold run. rewrite (bind_ok _ _ _ _ _ Hresume).
    rewrite (run_turns_loop W this n fuel r0 s0 s1 r Hturns).
    apply (run_loop_rejection W fuel this r p e done s1 s2 s3 s4); assumption.
  - congruence.
  - exact Hfn.
  - intros context t k c Ht Hk Hc. split; [|rewrite Hfn; exact Hc].
    pose proof (frame_dumpStack this s1) as T1. rewrite Hdump in T1.
    pose proof (frame_getValue (S fuel) this (-1) None no_get_options s2) as T2.
    rewrite Hget in T2.
    assert (keeps bridge_frame (pop this (resultCount r))) as Kpop by (unfold pop; frame).
    pose proof (Kpop s3) as T3. rewrite Hpop in T3.
    destruct T1 as [T1 _], T2 as [T2 _], T3 as [T3 _]. cbn [fst] in *.
    apply T3, T2, T1, Ht.
Qed.

Lemma run_rejection_witness :
  exists s4,
    run rejecting_world 3 1 0 example_rejecting
      = (s4, Fail (Throw (Rejection (HString "boom")))) /\
    resumes (trace s4) = [EResume 1 0] /\
    fn_table s4 !! 10 = Some (NContinuance 1 1 false 33).
Proof.
  pose (s1 := fst (resume rejecting_world 1 0 example_rejecting)).
  pose (s3 := fst (getValue 3 1 (-1) None no_get_options s1)).
  pose (s4 := fst (pop 1 1 s3)).
  exists s4.
  destruct (run_rejection rejecting_world 0 2 1 0 (mkResume RYield 1) (mkResume RYield 1)
              34 (HString "boom") ∅ example_rejecting s1 s1 s1 s3 s4)
    as (Hrun & Htrace & _ & Hcont).
  - vm_compute. reflexivity.
  - reflexivity.
  - reflexivity.
  - reflexivity.
  - vm_compute. reflexivity.
  - vm_compute. reflexivity.
  - vm_compute. reflexivity.
  - vm_compute. repeat split.
  - split; [exact Hrun|]. split; [rewrite Htrace; vm_compute; reflexivity|].
    apply (Hcont 1 (set_continuance (Some 10) example_root_fields) 10
                 (NContinuance 1 1 false 33)); vm_compute; reflexivity.
Defined.

(** C4 as stated fails: the host function the guest awaits returns a promise
    that rejects with "boom"; [run] ends with that rejection after the one
    [lua_resume] that started the call, the guest is not resumed, and the
    continuance it was suspended with stays in the function table. *)
Lemma run_rejection_counterexample :
  let r := run rejecting_world 5 1 0 example_rejecting in
  snd r = Fail (Throw (Rejection (HString "boom"))) /\
  resumes (trace (fst r)) = [EResume 1 0] /\
  last (trace (fst r)) = Some (EYield 1 1 10 10) /\
  fn_table (fst r) !! 10 = Some (NContinuance 1 1 false 33) /\
  heap (fst r) !! 33 = Some (OCell HUndefined).
Proof. vm_compute. repeat split. Qed.

(** ** Termination of [pushValue] (claim C6) *)

Lemma same_heap_refl s : same_heap s s.
Proof. reflexivity. Qed.

Lemma same_heap_trans a b c : same_heap a b -> same_heap b c -> same_heap a c.
Proof. unfold same_heap. congruence. Qed.

Ltac still_with tac :=
  frame_unfold; unfold addFunction;
  repeat first
    [ assumption
    | tac
    | apply keeps_modify; intros ?; reflexivity
    | (intros ?; reflexivity)
    | keep_step same_heap_refl same_heap_trans ].

Ltac still := still_with fail.

Lemma still_pushEntries push_value L table entries :
  (forall v o, keeps same_heap (push_value v o)) ->
  forall d, keeps same_heap (pushEntries push_value L table entries d).
Proof.
  intros Hpush. induction entries as [|[key value] rest IH]; intros d; simpl.
  - still.
  - still_with ltac:(first [apply Hpush | apply IH]).
Qed.

Lemma still_pushValue fuel :
  forall this value options, keeps same_heap (pushValue fuel this value options).
Proof.
  induction fuel as [|fuel IH]; intros this value options; simpl.
  - still.
  - still_with ltac:(first [apply IH | apply still_pushEntries; intros; apply IH]).
Qed.

Section OnHeap.
Context (h : gmap Z HostObject).

Lemma on_heap_kept {A} (m : M A) : keeps same_heap m -> preserves (on_heap h) m.
Proof. intros Hm s Hs. unfold on_heap in *. rewrite <- Hs. apply Hm. Qed.

Lemma avoids_on_bind {A B} f (m : M A) (k : A -> M B) (Q : A -> Prop) :
  avoids_on (on_heap h) f m -> keeps same_heap m -> returns (on_heap h) m Q ->
  (forall a, Q a -> avoids_on (on_heap h) f (k a)) ->
  avoids_on (on_heap h) f (bind m k).
Proof.
  intros Hm Hkeep Hret Hk s Hs. unfold bind.
  pose proof (Hm s Hs) as H1. pose proof (on_heap_kept m Hkeep s Hs) as H2.
  pose proof (Hret s) as H3.
  destruct (m s) as [s' [a|f']]; simpl in *.
  - apply Hk; [eapply H3; [exact Hs|reflexivity]|exact H2].
  - intros E. apply H1. congruence.
Qed.

Lemma avoids_on_avoids {A} f (m : M A) : avoids f m -> avoids_on (on_heap h) f m.
Proof. intros Hm s _. apply Hm. Qed.

Lemma returns_True {A} (m : M A) : returns (on_heap h) m (fun _ => True).
Proof. intros s s' a _ _. exact I. Qed.

Lemma returns_bind {A B} (m : M A) (k : A -> M B) (R : A -> Prop) (Q : B -> Prop) :
  keeps same_heap m -> returns (on_heap h) m R ->
  (forall a, R a -> returns (on_heap h) (k a) Q) ->
  returns (on_heap h) (bind m k) Q.
Proof.
  intros Hkeep Hm Hk s s' b Hs E. unfold bind in E.
  pose proof (on_heap_kept m Hkeep s Hs) as H2. pose proof (Hm s) as H3.
  destruct (m s) as [s1 [a|f]]; [|discriminate].
  eapply Hk; [eapply H3; [exact Hs|reflexivity]|exact H2|exact E].
Qed.

Lemma returns_ret {A} (a : A) (Q : A -> Prop) : Q a -> returns (on_heap h) (ret a) Q.
Proof. intros HQ s s' b _ [= _ <-]. exact HQ. Qed.

Lemma returns_fail {A} f (Q : A -> Prop) : returns (on_heap h) (fail f) Q.
Proof. intros s s' b _ E. discriminate. Qed.

Lemma returns_getTop this : returns (on_heap h) (getTop this) (fun top => 0 <= top).
Proof.
  intros s s' top _ E. unfold getTop, lua_gettop, thread_of, stack_of, bind in E.
  destruct (heap s !! this) as [[]|]; try discriminate.
  destruct (stacks s !! _); [|discriminate].
  injection E as _ <-. lia.
Qed.

(** The body a [let* s := get_state] binds sees the heap [h]. *)
Lemma returns_get_state {B} (k : State -> M B) (Q : B -> Prop) :
  (forall s0, heap s0 = h -> returns (on_heap h) (k s0) Q) ->
  returns (on_heap h) (bind get_state k) Q.
Proof. intros Hk s s' b Hs E. rewrite bind_get_state in E. eapply Hk; eassumption. Qed.

Lemma avoids_on_get_state {B} f (k : State -> M B) :
  (forall s0, heap s0 = h -> avoids_on (on_heap h) f (k s0)) ->
  avoids_on (on_heap h) f (bind get_state k).
Proof. intros Hk s Hs. rewrite bind_get_state. apply Hk; assumption. Qed.

End OnHeap.

(** The cycle-guard map only grows. *)

Lemma done_grows_refl d : done_grows d (Some d).
Proof.
  exists d. split; [reflexivity|]. split; [|split]; [|tauto..].
  intros k i Hk Hi. eauto.
Qed.

Lemma done_grows_trans d d1 d2 :
  done_grows d (Some d1) -> done_grows d1 d2 -> done_grows d d2.
Proof.
  intros (x & [= <-] & H1 & H1z & H1p) (d3 & -> & H2 & H2z & H2p).
  exists d3. split; [reflexivity|]. split; [|split]; [|auto..].
  intros k i Hk Hi. destruct (H1 k i Hk Hi) as (j & Hj & Hj0). eauto.
Qed.

Lemma done_grows_record d k table :
  table <> 0 -> done_grows d (Some (done_record d k table)).
Proof.
  intros Ht. eexists. split; [reflexivity|].
  unfold done_record. destruct k as [k|]; [|split; [|split]; eauto].
  case_bool_decide as Hk; [split; [|split]; eauto|].
  split; [|split].
  - intros k' i Hk' Hi. rewrite lookup_insert. case_decide; eauto.
  - intros k'. rewrite lookup_insert. case_decide; [|tauto]. intros [= E]. lia.
  - intros Hp. rewrite lookup_insert_ne by congruence. exact Hp.
Qed.

Lemma grows_pushEntries h push_value L table entries :
  (forall v o, keeps same_heap (push_value v o)) ->
  (forall v d, returns (on_heap h) (push_value v (with_done d)) (done_grows d)) ->
  forall d, returns (on_heap h) (pushEntries push_value L table entries d)
              (fun d' => done_grows d (Some d')).
Proof.
  intros Hkeep Hpush. induction entries as [|[key value] rest IH]; intros d; simpl.
  - apply returns_ret, done_grows_refl.
  - eapply returns_bind; [apply Hkeep|apply returns_True|]. intros _ _.
    eapply returns_bind; [apply Hkeep|apply Hpush|]. intros d' Hd'.
    eapply returns_bind; [still|apply returns_True|]. intros _ _.
    pose proof Hd' as (d1 & -> & _). simpl.
    intros s s' d2 Hs E. eapply done_grows_trans; [exact Hd'|eapply IH; eassumption].
Qed.

Lemma grows_pushTable h push_value this L target decorations d entries narr nrec :
  (forall v o, keeps same_heap (push_value v o)) ->
  (forall v d, returns (on_heap h) (push_value v (with_done d)) (done_grows d)) ->
  returns (on_heap h)
    (pushTable push_value this L h target decorations (Some d) entries narr nrec)
    (done_grows d).
Proof.
  intros Hkeep Hpush. unfold pushTable.
  eapply returns_bind; [still|apply returns_getTop|]. intros top Htop. simpl.
  eapply returns_bind; [still|apply returns_True|]. intros _ _.
  eapply returns_bind;
    [apply still_pushEntries, Hkeep|apply grows_pushEntries; assumption|].
  intros d1 Hd1.
  eapply returns_bind; [|apply returns_True|].
  { destruct (typeof_object _); [|still]. still_with ltac:(apply Hkeep). }
  intros _ _. apply returns_ret.
  eapply done_grows_trans; [|exact Hd1]. apply done_grows_record.
  cbv beta in Htop. lia.
Qed.

(** Decomposes a goal [returns (on_heap h) m (done_grows d)] for the
    branches of [pushValue] that hand the map back as it is. *)
Ltac grows_leaf h :=
  repeat first
    [ apply returns_ret, done_grows_refl
    | apply returns_fail
    | (eapply (returns_bind h); [solve [still]|apply returns_True|intros ? _]) ].

Lemma grows_pushValue h fuel :
  forall this value d rf aw rw,
    returns (on_heap h) (pushValue fuel this value (mkPushOptions (Some d) rf aw rw))
            (done_grows d).
Proof.
  induction fuel as [|fuel IH]; intros this value d rf aw rw; cbn [pushValue].
  - apply returns_fail.
  - eapply returns_bind; [still|apply returns_True|]. intros t _.
    apply returns_get_state. intros s Hs. rewrite Hs.
    assert (Htable : forall target decorations entries narr nrec,
              returns (on_heap h)
                (pushTable (pushValue fuel this) this (address t) h target
                   decorations (Some d) entries narr nrec) (done_grows d)).
    { intros. apply grows_pushTable.
      - intros. apply still_pushValue.
      - intros v d0. apply IH. }
    destruct (getValueDecorations h value) as [target decorations].
    cbn [_done reference await raw].
    destruct (done_lookup h (Some d) target); [|grows_leaf h..].
    destruct rf; [grows_leaf h|].
    destruct target as [| |[z|r0]|str|b| | |o|f|p];
      try solve [grows_leaf h]; try apply Htable.
    destruct (h !! o) as [[]|]; try solve [grows_leaf h]; apply Htable.
Qed.

(** The measure: objects that are not settled. *)

Lemma filter_length_le {A} (p q : A -> bool) (l : list A) :
  (forall x, q x = true -> p x = true) ->
  (length (List.filter q l) <= length (List.filter p l))%nat.
Proof.
  intros Hqp. induction l as [|x l IH]; simpl; [lia|].
  destruct (q x) eqn:Hq.
  - rewrite (Hqp x Hq). simpl. lia.
  - destruct (p x); simpl; lia.
Qed.

Lemma filter_length_lt {A} (p q : A -> bool) (l : list A) (x0 : A) :
  (forall x, q x = true -> p x = true) ->
  In x0 l -> p x0 = true -> q x0 = false ->
  (length (List.filter q l) < length (List.filter p l))%nat.
Proof.
  intros Hqp Hin Hp Hq. induction l as [|x l IH]; simpl; [contradiction|].
  destruct Hin as [->|Hin].
  - rewrite Hp, Hq. simpl. pose proof (filter_length_le p q l Hqp). lia.
  - specialize (IH Hin). destruct (q x) eqn:Hqx.
    + rewrite (Hqp x Hqx). simpl. lia.
    + destruct (p x); simpl; lia.
Qed.

Lemma settled_grows h d d1 o :
  done_grows d (Some d1) -> settled h d o = true -> settled h d1 o = true.
Proof.
  intros (x & [= <-] & Hkeep & Hzero & _). unfold settled.
  destruct (ToPropertyKey h (HObject o)) as [k|]; [|tauto].
  destruct (d !! k) as [i|] eqn:Hd.
  - intros Hi. apply negb_true_iff, Z.eqb_neq in Hi.
    destruct (Hkeep k i Hd Hi) as (j & -> & Hj).
    apply negb_true_iff, Z.eqb_neq. exact Hj.
  - intros Hinh. destruct (d1 !! k) as [j|] eqn:Hd1; [|exact Hinh].
    apply negb_true_iff, Z.eqb_neq. intros ->.
    rewrite (Hzero k Hd1) in Hd. discriminate.
Qed.

Lemma pending_grows h d d1 :
  done_grows d (Some d1) -> (pending h d1 <= pending h d)%nat.
Proof.
  intros Hg. apply filter_length_le. intros o Ho.
  apply negb_true_iff in Ho. apply negb_true_iff.
  destruct (settled h d o) eqn:Hs; [|reflexivity].
  rewrite (settled_grows h d d1 o Hg Hs) in Ho. discriminate.
Qed.

Lemma pending_bound h d : (pending h d <= size h)%nat.
Proof.
  unfold pending. etransitivity; [apply List.filter_length_le|].
  rewrite <- size_dom. reflexivity.
Qed.

Lemma pending_record_lt h d o obj k table :
  h !! o = Some obj ->
  ToPropertyKey h (HObject o) = Some k ->
  settled h d o = false ->
  k <> "__proto__" -> table <> 0 ->
  (pending h (done_record d (Some k) table) < pending h d)%nat.
Proof.
  intros Ho Hk Hs Hproto Ht.
  apply (filter_length_lt _ _ _ o).
  - intros x Hx. apply negb_true_iff in Hx. apply negb_true_iff.
    destruct (settled h d x) eqn:Hsx; [|reflexivity].
    rewrite (settled_grows h d _ x (done_grows_record d (Some k) table Ht) Hsx) in Hx.
    discriminate.
  - apply list_elem_of_In, elem_of_elements, elem_of_dom. eauto.
  - rewrite Hs. reflexivity.
  - apply negb_false_iff. unfold settled, done_record. rewrite Hk.
    rewrite bool_decide_eq_false_2 by exact Hproto.
    rewrite lookup_insert_eq. apply negb_true_iff, Z.eqb_neq. exact Ht.
Qed.

Lemma done_lookup_miss h d o :
  d !! "__proto__" = None ->
  done_lookup h (Some d) (HObject o) = DMiss ->
  exists k, ToPropertyKey h (HObject o) = Some k /\ settled h d o = false /\
            k <> "__proto__".
Proof.
  intros Hproto. unfold done_lookup, settled.
  destruct (ToPropertyKey h (HObject o)) as [k|] eqn:Hk; [|discriminate Hk].
  exists k. split; [reflexivity|].
  destruct (d !! k) as [i|] eqn:Hd.
  - destruct (Z.eqb_spec i 0) as [->|]; [|discriminate].
    split; [reflexivity|]. intros ->. congruence.
  - destruct (inherited k) eqn:Hinh; [discriminate|].
    split; [reflexivity|]. intros ->. discriminate Hinh.
Qed.

(** Keys and indices need one unit of fuel. *)
Lemma pushValue_key fuel this key :
  is_key key -> avoids OutOfFuel (pushValue (S fuel) this key no_options).
Proof.
  intros Hkey. destruct key as [| |[z|r]|str| | | | | |]; try contradiction;
    simpl; avoid.
Qed.

Lemma pushEntries_fuel h push_value L table n entries :
  (forall v o, keeps same_heap (push_value v o)) ->
  (forall v d, returns (on_heap h) (push_value v (with_done d)) (done_grows d)) ->
  (forall key, is_key key -> avoids OutOfFuel (push_value key no_options)) ->
  (forall v d, d !! "__proto__" = None -> (pending h d < n)%nat ->
     avoids_on (on_heap h) OutOfFuel (push_value v (with_done d))) ->
  Forall (fun kv => is_key (fst kv)) entries ->
  forall d, d !! "__proto__" = None -> (pending h d < n)%nat ->
    avoids_on (on_heap h) OutOfFuel (pushEntries push_value L table entries d).
Proof.
  intros Hkeep Hgrow Hkey Hval Hentries.
  induction Hentries as [|[key value] rest Hk Hrest IH]; intros d Hproto Hpend; simpl.
  - apply avoids_on_avoids, avoids_ret.
  - eapply avoids_on_bind;
      [apply avoids_on_avoids, Hkey, Hk|apply Hkeep|apply returns_True|].
    intros _ _.
    eapply avoids_on_bind; [apply Hval; assumption|apply Hkeep|apply Hgrow|].
    intros d' Hd'.
    eapply avoids_on_bind; [apply avoids_on_avoids; avoid|still|apply returns_True|].
    intros _ _.
    pose proof Hd' as (d1 & -> & _ & _ & Hp1). simpl.
    apply IH; [apply Hp1, Hproto|].
    pose proof (pending_grows h d d1 Hd'). lia.
Qed.

Lemma pushTable_fuel h push_value this L target decorations done entries narr nrec n :
  (forall v o, keeps same_heap (push_value v o)) ->
  (forall v d, returns (on_heap h) (push_value v (with_done d)) (done_grows d)) ->
  (forall v d, d !! "__proto__" = None -> (pending h d < n)%nat ->
     avoids_on (on_heap h) OutOfFuel (push_value v (with_done d))) ->
  Forall (fun kv => is_key (fst kv)) entries ->
  typeof_object (decoration_prop h decorations "metatable") = false ->
  default ∅ done !! "__proto__" = None ->
  (entries = [] \/
   (forall key, is_key key -> avoids OutOfFuel (push_value key no_options)) /\
   forall table, table <> 0 ->
     (pending h (done_record (default ∅ done) (ToPropertyKey h target) table) < n)%nat) ->
  avoids_on (on_heap h) OutOfFuel
    (pushTable push_value this L h target decorations done entries narr nrec).
Proof.
  intros Hkeep Hgrow Hval Hentries Hmeta Hproto Hpend. unfold pushTable.
  eapply avoids_on_bind; [apply avoids_on_avoids; avoid|still|apply returns_getTop|].
  intros top Htop. cbv beta in Htop. cbv zeta.
  eapply avoids_on_bind; [apply avoids_on_avoids; avoid|still|apply returns_True|].
  intros _ _.
  eapply avoids_on_bind; [|apply still_pushEntries, Hkeep|apply returns_True|].
  - destruct Hpend as [->|[Hkey Hpend]].
    + simpl. apply avoids_on_avoids, avoids_ret.
    + apply (pushEntries_fuel h push_value L (top + 1) n); try assumption.
      * destruct (done_grows_record (default ∅ done) (ToPropertyKey h target) (top + 1))
          as (d1 & [= <-] & _ & _ & Hp); [lia|]. apply Hp, Hproto.
      * apply Hpend. lia.
  - intros d _. rewrite Hmeta.
    apply avoids_on_avoids. avoid.
Qed.

Lemma array_entries_keys elems : Forall (fun kv => is_key (fst kv)) (array_entries elems).
Proof.
  unfold array_entries. apply Forall_forall. intros [k v] Hin.
  apply elem_of_lookup_imap in Hin as (i & e & [= -> ->] & _).
  exact I.
Qed.

Lemma object_entries_keys props : Forall (fun kv => is_key (fst kv)) (object_entries props).
Proof.
  unfold object_entries. apply Forall_forall. intros [k v] Hin.
  apply list_elem_of_In in Hin.
  apply in_map_iff in Hin as ([k' v'] & [= <- <-] & _). exact I.
Qed.

Lemma no_metatable_decorations h value target decorations :
  no_metatable h ->
  getValueDecorations h value = (target, decorations) ->
  typeof_object (decoration_prop h decorations "metatable") = false.
Proof.
  intros Hnm. unfold getValueDecorations.
  destruct value as [| | | | | | |o| |]; try (intros [= <- <-]; reflexivity).
  destruct (h !! o) as [[]|] eqn:Ho; try (intros [= <- <-]; reflexivity).
  intros [= <- <-]. simpl. eapply Hnm, Ho.
Qed.

Ltac fuel_leaf := apply avoids_on_avoids; frame_unfold; unfold addFunction; avoid.

(** One level of [pushValue], given that the children are within fuel. *)
Lemma pushValue_level h (Hnm : no_metatable h) fuel this value options :
  (forall v d, d !! "__proto__" = None -> (pending h d < fuel)%nat ->
     avoids_on (on_heap h) OutOfFuel
       (pushValue fuel this v (with_done d))) ->
  default ∅ (_done options) !! "__proto__" = None ->
  (forall o obj k, h !! o = Some obj ->
     done_lookup h (_done options) (HObject o) = DMiss ->
     ToPropertyKey h (HObject o) = Some k ->
     forall table, table <> 0 ->
       (pending h (done_record (default ∅ (_done options)) (Some k) table) < fuel)%nat) ->
  avoids_on (on_heap h) OutOfFuel (pushValue (S fuel) this value options).
Proof.
  intros Hval Hproto Hpend. cbn [pushValue].
  eapply avoids_on_bind; [fuel_leaf|still|apply returns_True|]. intros t _.
  apply avoids_on_get_state. intros s Hs. rewrite Hs.
  destruct (getValueDecorations h value) as [target decorations] eqn:Hdec.
  pose proof (no_metatable_decorations h value target decorations Hnm Hdec) as Hmeta.
  assert (Htable : forall entries narr nrec,
            Forall (fun kv => is_key (fst kv)) entries ->
            (entries = [] \/
             forall table, table <> 0 ->
               (pending h (done_record (default ∅ (_done options))
                             (ToPropertyKey h target) table) < fuel)%nat) ->
            avoids_on (on_heap h) OutOfFuel
              (pushTable (pushValue fuel this) this (address t) h target decorations
                 (_done options) entries narr nrec)).
  { intros entries narr nrec Hkeys Hp.
    apply (pushTable_fuel h (pushValue fuel this) this (address t) target decorations
             (_done options) entries narr nrec fuel); try assumption.
    - intros. apply still_pushValue.
    - intros v d. apply grows_pushValue.
    - destruct Hp as [->|Hp]; [left; reflexivity|right].
      split; [|exact Hp].
      intros key Hkey. specialize (Hp 1 ltac:(lia)).
      destruct fuel; [lia|]. apply pushValue_key, Hkey. }
  destruct (done_lookup h (_done options) target) eqn:Hlookup; [|fuel_leaf..].
  destruct (reference options); [fuel_leaf|].
  destruct target as [| |[z|r0]|str|b| | |o|f|p]; try solve [fuel_leaf].
  - destruct (h !! o) as [obj|] eqn:Ho; [|fuel_leaf].
    assert (Hp : forall table, table <> 0 ->
              (pending h (done_record (default ∅ (_done options))
                            (ToPropertyKey h (HObject o)) table) < fuel)%nat).
    { intros table Ht.
      destruct (ToPropertyKey h (HObject o)) as [k|] eqn:Hk; [|discriminate Hk].
      eapply Hpend; eauto. }
    destruct obj; try solve [fuel_leaf]; apply Htable;
      first [apply array_entries_keys | apply object_entries_keys | idtac];
      right; exact Hp.
  - apply Htable; [constructor|left; reflexivity].
Qed.

Lemma pushValue_fuel h (Hnm : no_metatable h) fuel :
  forall this value d rf aw rw,
    d !! "__proto__" = None -> (pending h d < fuel)%nat ->
    avoids_on (on_heap h) OutOfFuel
      (pushValue fuel this value (mkPushOptions (Some d) rf aw rw)).
Proof.
  induction fuel as [|fuel IH]; intros this value d rf aw rw Hproto Hpend; [lia|].
  apply (pushValue_level h Hnm fuel).
  - intros v d0 Hp0 Hpend0. apply IH; assumption.
  - exact Hproto.
  - cbn [_done]. intros o obj k Ho Hmiss Hk table Ht.
    destruct (done_lookup_miss h d o Hproto Hmiss) as (k' & Hk' & Hs & Hne).
    assert (k' = k) by congruence. subst k'.
    pose proof (pending_record_lt h d o obj k table Ho Hk Hs Hne Ht).
    change (default ∅ (Some d)) with d. lia.
Qed.

(** From any options whose cycle-guard map, if there is one, has no own
    [__proto__]: more fuel than the heap has objects, plus one, is enough. *)
Lemma pushValue_fuel_top h (Hnm : no_metatable h) fuel this value options :
  default ∅ (_done options) !! "__proto__" = None ->
  (size h + 1 < fuel)%nat ->
  avoids_on (on_heap h) OutOfFuel (pushValue fuel this value options).
Proof.
  intros Hproto Hfuel. destruct fuel as [|fuel]; [lia|].
  apply (pushValue_level h Hnm fuel).
  - intros v d0 Hp0 Hpend0. apply pushValue_fuel; assumption.
  - exact Hproto.
  - intros o obj k Ho Hmiss Hk table Ht.
    pose proof (pending_bound h (done_record (default ∅ (_done options)) (Some k) table)).
    lia.
Qed.

(** ** A conversion that does not end (claim C6) *)

Lemma slot_bottom pre x stk :
  slot (pre ++ x :: stk) (Z.of_nat (length stk) + 1) = Some x.
Proof.
  unfold slot.
  assert ((0 <? Z.of_nat (length stk) + 1) = true) as -> by (apply Z.ltb_lt; lia).
  rewrite length_app. simpl.
  assert ((Z.of_nat (length stk) + 1 <=? Z.of_nat (length pre + S (length stk))) = true)
    as -> by (apply Z.leb_le; lia).
  replace (length pre + S (length stk) - Z.to_nat (Z.of_nat (length stk) + 1))%nat
    with (length pre) by lia.
  rewrite lookup_app_r by lia. replace (length pre - length pre)%nat with O by lia.
  reflexivity.
Qed.

Lemma bind_new_object {B} o (k : Z -> M B) s :
  bind (new_object o) k s
    = k (fresh_handle (objects s)) (set_objects <[fresh_handle (objects s) := o]> s).
Proof. reflexivity. Qed.

(** A value whose key the cycle-guard map answers is pushed as a copy of
    the recorded slot. *)
Lemma pushValue_hit fuel this t value target decorations options index v stk s :
  heap s !! this = Some (OThread t) ->
  stacks s !! address t = Some stk ->
  getValueDecorations (heap s) value = (target, decorations) ->
  done_lookup (heap s) (_done options) target = DSlot index ->
  slot stk index = Some v ->
  pushValue (S fuel) this value options s
    = (set_stacks <[address t := v :: stk]> s, Ok (_done options)).
Proof.
  intros Hthis Hstk Hdec Hhit Hslot. cbn [pushValue]. msteps.
  rewrite Hdec, Hhit. unfold lua_pushvalue. msteps. rewrite Hslot.
  unfold put_stack. msteps. reflexivity.
Qed.

Lemma surjective_pairing_fail {A} (r : State * Outcome A) f :
  snd r = Fail f -> r = (fst r, Fail f).
Proof. destruct r as [s o]. simpl. intros ->. reflexivity. Qed.

Lemma decorated_ready_heap s s' :
  decorated_ready s -> heap s' = heap s ->
  (exists stk, stacks s' !! 1 = Some stk) ->
  decorated_ready s'.
Proof.
  intros (H1 & H40 & H41 & H42 & H43 & _) Hh Hstk.
  unfold decorated_ready. rewrite Hh. tauto.
Qed.

Lemma decorated_level_array fuel s opts :
  decorated_ready s ->
  (opts = no_options \/ exists d, opts = with_done d /\ d !! "1" = None) ->
  (forall s', decorated_ready s' ->
     snd (pushValue fuel 1 (HObject 43) no_options s') = Fail OutOfFuel) ->
  snd (pushValue (S fuel) 1 (HObject 41) opts s) = Fail OutOfFuel.
Proof.
  intros Hready Hopts Hmeta.
  pose proof Hready as (Hthis & H40 & H41 & H42 & H43 & stk & Hstk).
  assert (Hkey : ToPropertyKey (heap s) (HObject 40) = Some "1").
  { unfold ToPropertyKey. cbn [ToString]. rewrite H40.
    destruct (size (heap s)); reflexivity. }
  assert (Hdec : getValueDecorations (heap s) (HObject 41)
                 = (HObject 40, Some (HObject 42))).
  { unfold getValueDecorations. rewrite H41. reflexivity. }
  assert (Hmt : decoration_prop (heap s) (Some (HObject 42)) "metatable" = HObject 43).
  { unfold decoration_prop, getProp. rewrite H42. reflexivity. }
  assert (Hmiss : done_lookup (heap s) (_done opts) (HObject 40) = DMiss).
  { destruct Hopts as [->|(d & -> & Hd)]; [reflexivity|].
    unfold done_lookup. cbn [_done with_done]. rewrite Hkey, Hd. reflexivity. }
  assert (Href : reference opts = false).
  { destruct Hopts as [->|(d & -> & Hd)]; reflexivity. }
  cbn [pushValue]. msteps. rewrite Hdec, Hmiss, Href, H40.
  unfold pushTable, getTop, lua_gettop. msteps. cbv zeta.
  rewrite Hkey, Hmt.
  cbn [typeof_object address example_root_fields].
  unfold lua_createtable. msteps. rewrite bind_new_object.
  set (p := fresh_handle (objects s)).
  unfold push, put_stack. msteps.
  cbn [array_entries imap length pushEntries].
  change (Z.of_nat 0 + 1) with 1.
  set (s1 := set_stacks _ _).
  set (d0 := done_record _ _ _).
  destruct fuel as [|f]; [reflexivity|].
  rewrite bind_bind.
  erewrite bind_ok;
    [|apply (pushValue_primitive f 1 example_root_fields (LTable p :: stk));
      [exact Hthis|subst s1; simpl; apply lookup_insert_eq|exact I]].
  cbn [pushed_as address example_root_fields].
  set (s2 := set_stacks _ s1).
  rewrite bind_bind.
  erewrite bind_ok;
    [|apply (pushValue_hit f 1 example_root_fields _ (HNumber (Integral 1)) None _
               (Z.of_nat (length stk) + 1) (LTable p)
               (LInteger 1 :: LTable p :: stk));
      [exact Hthis|subst s2; simpl; apply lookup_insert_eq|reflexivity| |]].
  - cbn [address example_root_fields].
    set (s3 := set_stacks _ s2).
    unfold lua_settable. rewrite ?bind_bind.
    erewrite bind_stack_of by (subst s3; simpl; apply lookup_insert_eq).
    change (LTable p :: LInteger 1 :: LTable p :: stk)
      with ([LTable p; LInteger 1] ++ LTable p :: stk) at 1.
    rewrite slot_bottom. cbn [app].
    rewrite ?bind_bind.
    erewrite bind_object_at by (subst s3 s2 s1; simpl; apply lookup_insert_eq).
    cbv iota beta. unfold put_stack. msteps. cbv beta.
    set (s4 := set_stacks _ _).
    rewrite ?bind_bind.
    erewrite bind_fail; [reflexivity|].
    apply surjective_pairing_fail.
    apply Hmeta. apply (decorated_ready_heap s); [exact Hready|reflexivity|].
    eexists. subst s4. simpl. apply lookup_insert_eq.
  - unfold done_lookup. cbn [_done with_done].
    change (ToPropertyKey (heap s2) (HNumber (Integral 1))) with (Some "1").
    cbv iota beta. subst d0. unfold done_record.
    rewrite bool_decide_eq_false_2 by discriminate.
    rewrite lookup_insert_eq.
    destruct (Z.eqb_spec (Z.of_nat (length stk) + 1) 0); [lia|reflexivity].
  - apply (slot_bottom [LInteger 1]).
Qed.

Lemma decorated_level_metatable fuel s :
  decorated_ready s ->
  (forall s' d, decorated_ready s' -> d !! "1" = None ->
     snd (pushValue fuel 1 (HObject 41) (with_done d) s') = Fail OutOfFuel) ->
  snd (pushValue (S fuel) 1 (HObject 43) no_options s) = Fail OutOfFuel.
Proof.
  intros Hready Hchild.
  pose proof Hready as (Hthis & H40 & H41 & H42 & H43 & stk & Hstk).
  assert (Hkey : ToPropertyKey (heap s) (HObject 43) = Some "[object Object]").
  { unfold ToPropertyKey. cbn [ToString]. rewrite H43. reflexivity. }
  assert (Hdec : getValueDecorations (heap s) (HObject 43)
                 = (HObject 43, @None HostValue)).
  { unfold getValueDecorations. rewrite H43. reflexivity. }
  assert (Henum : enumerate (heap s) (HObject 43) = [("x", HObject 41)]).
  { unfold enumerate. rewrite H43. reflexivity. }
  cbn [pushValue]. msteps. rewrite Hdec.
  cbn [done_lookup _done no_options reference]. rewrite H43.
  unfold pushTable, getTop, lua_gettop. msteps. cbv zeta.
  rewrite Hkey, Henum.
  cbn [address example_root_fields object_entries map fst snd].
  unfold lua_createtable. msteps. rewrite bind_new_object.
  set (p := fresh_handle (objects s)).
  unfold push, put_stack. msteps.
  cbn [pushEntries].
  set (s1 := set_stacks _ _).
  set (d0 := done_record _ _ _).
  destruct fuel as [|f]; [reflexivity|].
  rewrite ?bind_bind.
  erewrite bind_ok;
    [|apply (pushValue_primitive f 1 example_root_fields (LTable p :: stk));
      [exact Hthis|subst s1; simpl; apply lookup_insert_eq|exact I]].
  rewrite ?bind_bind.
  erewrite bind_fail; [reflexivity|].
  apply surjective_pairing_fail.
  apply Hchild.
  - apply (decorated_ready_heap s); [exact Hready|reflexivity|].
    eexists. simpl. apply lookup_insert_eq.
  - subst d0. unfold done_record. simpl.
    rewrite lookup_insert_ne by discriminate. apply lookup_empty.
Qed.

Lemma decorated_diverges fuel :
  (forall s opts, decorated_ready s ->
     (opts = no_options \/ exists d, opts = with_done d /\ d !! "1" = None) ->
     snd (pushValue fuel 1 (HObject 41) opts s) = Fail OutOfFuel) /\
  (forall s, decorated_ready s ->
     snd (pushValue fuel 1 (HObject 43) no_options s) = Fail OutOfFuel).
Proof.
  induction fuel as [|fuel [IHa IHm]].
  - split; reflexivity.
  - split.
    + intros s opts Hs Hopts. apply decorated_level_array; assumption.
    + intros s Hs. apply decorated_level_metatable; [assumption|].
      intros s' d Hs' Hd. apply IHa; [assumption|]. right. eauto.
Qed.

Lemma example_decorated_ready : decorated_ready example_decorated.
Proof. vm_compute. repeat split. eexists. reflexivity. Qed.

(** C6 at the failing input: object 41 is a decorated array whose metatable
    has a property that is object 41 again.  The elements of a table are
    pushed with the cycle-guard map of the call, the metatable is pushed
    without one, so the decoration is converted again inside its own
    metatable: whatever the fuel, [pushValue] does not return. *)
Theorem pushValue_metatable_cycle_diverges :
  forall fuel,
    snd (pushValue fuel 1 (HObject 41) no_options example_decorated)
      = Fail OutOfFuel.
Proof.
  intros fuel.
  apply decorated_diverges; [|left; reflexivity].
  exact example_decorated_ready.
Qed.

(** ** Termination of [getValue] on guest tables (claim C6) *)

Lemma runs_bind {A B} P (m : M A) (k : A -> M B) Q1 Q :
  runs P m Q1 -> (forall a, runs (Q1 a) (k a) Q) -> runs P (bind m k) Q.
Proof.
  intros Hm Hk s Hs. unfold bind. specialize (Hm s Hs).
  destruct (m s) as [s1 [a|f]]; simpl in *; [|exact Hm].
  apply Hk, Hm.
Qed.

Lemma runs_ret {A} (P : State -> Prop) (a : A) (Q : A -> State -> Prop) :
  (forall s, P s -> Q a s) -> runs P (ret a) Q.
Proof. intros H s Hs. simpl. apply H, Hs. Qed.

Lemma runs_fail {A} P f (Q : A -> State -> Prop) :
  f <> OutOfFuel -> runs P (fail f) Q.
Proof. intros Hf s _. exact Hf. Qed.

Lemma runs_pre {A} (P P' : State -> Prop) (m : M A) Q :
  (forall s, P' s -> P s) -> runs P m Q -> runs P' m Q.
Proof. intros HP Hm s Hs. apply Hm, HP, Hs. Qed.

Lemma runs_post {A} (P : State -> Prop) (m : M A) (Q Q' : A -> State -> Prop) :
  (forall a s, Q a s -> Q' a s) -> runs P m Q -> runs P m Q'.
Proof.
  intros HQ Hm s Hs. specialize (Hm s Hs).
  destruct (snd (m s)); [apply HQ, Hm|exact Hm].
Qed.

Lemma runs_pure {A} (phi : Prop) (P : State -> Prop) (m : M A) Q :
  (phi -> runs P m Q) -> runs (fun s => phi /\ P s) m Q.
Proof. intros H s [Hphi Hs]. apply H; assumption. Qed.

Lemma runs_ex {A X} (P : X -> State -> Prop) (m : M A) Q :
  (forall x, runs (P x) m Q) -> runs (fun s => exists x, P x s) m Q.
Proof. intros H s [x Hs]. eapply H, Hs. Qed.

Ltac run_intro :=
  cbv beta; repeat first [apply runs_ex; intros ? | apply runs_pure; intros ?].

Lemma get_frame_refl s : get_frame s s.
Proof. repeat split; auto. Qed.

Lemma get_frame_trans a b c : get_frame a b -> get_frame b c -> get_frame a c.
Proof.
  intros (H1 & H2 & H3) (H4 & H5 & H6). repeat split; [congruence..|]. eauto.
Qed.

Lemma get_frame_new_host o : keeps get_frame (new_host o).
Proof.
  intros s. repeat split. simpl. intros this t Ht.
  rewrite lookup_insert_ne; [exact Ht|].
  intros <-. rewrite fresh_handle_fresh in Ht. discriminate.
Qed.

Lemma get_frame_set_property o key value : keeps get_frame (set_property o key value).
Proof.
  intros s. unfold set_property. rewrite bind_get_state.
  destruct (heap s !! o) as [[]|] eqn:Ho; try apply get_frame_refl.
  destruct (ToPropertyKey (heap s) key); [|apply get_frame_refl].
  case_bool_decide; [apply get_frame_refl|].
  repeat split. simpl. intros this t Ht.
  rewrite lookup_insert_ne; [exact Ht|]. congruence.
Qed.

Ltac get_frame_with tac :=
  repeat first
    [ assumption
    | tac
    | apply get_frame_new_host
    | apply get_frame_set_property
    | match goal with
      | |- keeps _ (modify _) => apply keeps_modify; intros ?; repeat split; auto
      end
    | keep_step get_frame_refl get_frame_trans ].

Ltac get_frame_leaf := get_frame_with fail.

Lemma get_frame_stateToThread this L : keeps get_frame (stateToThread this L).
Proof. unfold stateToThread. get_frame_leaf. Qed.

Lemma get_frame_getRef h : keeps get_frame (getRef h).
Proof. unfold getRef. get_frame_leaf. Qed.

Lemma get_frame_module_getValue p : keeps get_frame (module_getValue p).
Proof. unfold module_getValue. get_frame_leaf. Qed.

Lemma get_frame_luaL_testudata L idx tname : keeps get_frame (luaL_testudata L idx tname).
Proof. unfold luaL_testudata. get_frame_leaf. Qed.

Lemma get_frame_lua_tonumberx L idx : keeps get_frame (lua_tonumberx L idx).
Proof. unfold lua_tonumberx. get_frame_leaf. Qed.

Lemma entry_after_app pre k v suf :
  k ∉ pre.*1 -> entry_after (pre ++ (k, v) :: suf) k = Some (head suf).
Proof.
  induction pre as [|[k0 v0] pre IH]; simpl; intros Hk.
  - destruct (decide (k = k)); [reflexivity|congruence].
  - apply not_elem_of_cons in Hk as [Hne Hk].
    destruct (decide (k0 = k)); [congruence|]. apply IH, Hk.
Qed.

Lemma next_entry_traversed E pre suf k :
  NoDup (E.*1) -> LNil ∉ E.*1 -> E = pre ++ suf -> traversed pre k ->
  next_entry E k = Some (head suf).
Proof.
  intros Hnd Hnil -> [[-> ->]|(pre' & v & ->)]; [reflexivity|].
  rewrite <- app_assoc in *. simpl app in *.
  rewrite fmap_app, fmap_cons in Hnd, Hnil. simpl in Hnd, Hnil.
  apply NoDup_app in Hnd as (_ & Hnot & _).
  assert (k ∉ pre'.*1) as Hk.
  { intros Hin. apply (Hnot k Hin). left. }
  assert (k <> LNil) as Hne.
  { intros ->. apply Hnil, elem_of_app. right. left. }
  rewrite <- (entry_after_app pre' k v suf Hk).
  destruct k; try reflexivity. congruence.
Qed.

Lemma slot_under stk idx v k :
  slot stk idx = Some v ->
  slot (k :: stk) (if idx <? 0 then idx - 1 else idx) = Some v.
Proof.
  unfold slot. intros H.
  destruct (Z.ltb_spec 0 idx) as [Hpos|Hpos].
  - destruct (Z.ltb_spec idx 0) as [?|_]; [lia|].
    destruct (Z.ltb_spec 0 idx) as [_|?]; [|lia].
    destruct (Z.leb_spec idx (Z.of_nat (length stk))) as [Hle|]; [|discriminate].
    destruct (Z.leb_spec idx (Z.of_nat (length (k :: stk)))) as [_|Hgt];
      [|simpl length in Hgt; lia].
    simpl length.
    replace (S (length stk) - Z.to_nat idx)%nat
      with (S (length stk - Z.to_nat idx)) by lia.
    exact H.
  - destruct (Z.ltb_spec idx 0) as [Hneg|_]; [|discriminate].
    destruct (Z.ltb_spec 0 (idx - 1)) as [?|_]; [lia|].
    destruct (Z.ltb_spec (idx - 1) 0) as [_|?]; [|lia].
    replace (Z.to_nat (- (idx - 1)) - 1)%nat
      with (S (Z.to_nat (- idx) - 1)) by lia.
    exact H.
Qed.

Lemma slot_top v stk : slot (v :: stk) (-1) = Some v.
Proof. reflexivity. Qed.

Lemma visited_mono d d' p : d ⊆ d' -> visited d p = true -> visited d' p = true.
Proof.
  unfold visited. intros Hsub H. apply bool_decide_eq_true in H as [x Hx].
  apply bool_decide_eq_true. exists x. eapply lookup_weaken; eassumption.
Qed.

Lemma unvisited_mono O d d' : d ⊆ d' -> (unvisited O d' <= unvisited O d)%nat.
Proof.
  intros Hsub. apply filter_length_le. intros p Hp.
  apply negb_true_iff in Hp. apply negb_true_iff.
  destruct (visited d p) eqn:Hv; [|reflexivity].
  rewrite (visited_mono d d' p Hsub Hv) in Hp. discriminate.
Qed.

Lemma unvisited_insert O d p v :
  is_Some (O !! p) -> d !! p = None ->
  (unvisited O (<[p := v]> d) < unvisited O d)%nat.
Proof.
  intros HO Hd. apply (filter_length_lt _ _ _ p).
  - intros x Hx. apply negb_true_iff in Hx. apply negb_true_iff.
    destruct (visited d x) eqn:Hv; [|reflexivity].
    rewrite (visited_mono d (<[p := v]> d) x) in Hx; [discriminate| |exact Hv].
    apply insert_subseteq, Hd.
  - apply list_elem_of_In, elem_of_elements, elem_of_dom, HO.
  - apply negb_true_iff, bool_decide_eq_false. rewrite Hd. intros [? ?]. discriminate.
  - apply negb_false_iff, bool_decide_eq_true. rewrite lookup_insert_eq. eauto.
Qed.

Lemma unvisited_bound O d : (unvisited O d <= size O)%nat.
Proof.
  unfold unvisited. etransitivity; [apply List.filter_length_le|].
  rewrite <- size_dom. reflexivity.
Qed.

Lemma foldr_max_le (l : list nat) n : n ∈ l -> (n <= foldr Nat.max 0%nat l)%nat.
Proof.
  induction l as [|x l IH]; intros Hin.
  - apply elem_of_nil in Hin. contradiction.
  - simpl. apply elem_of_cons in Hin as [->|Hin]; [lia|].
    specialize (IH Hin). lia.
Qed.

Lemma entries_within_widest O : entries_within O (widest O).
Proof.
  intros p entries mt Hp. unfold widest.
  apply (foldr_max_le _ (width (VTable entries mt))).
  apply list_elem_of_fmap. exists (VTable entries mt). split; [reflexivity|].
  apply list_elem_of_fmap. exists (p, VTable entries mt). split; [reflexivity|].
  apply elem_of_map_to_list, Hp.
Qed.

Section GetValue.
Context (this : Z) (t : ThreadFields) (O : gmap Z LuaObject).

Lemma runs_frame {A} (m : M A) stk :
  keeps get_frame m -> avoids OutOfFuel m ->
  runs (get_inv this t O stk) m (fun _ => get_inv this t O stk).
Proof.
  intros Hm Ha s (Hstk & Hobj & Hthis).
  destruct (Hm s) as (H1 & H2 & H3). specialize (Ha s).
  destruct (m s) as [s' [a|f]]; simpl in *; [|congruence].
  repeat split; [congruence|congruence|apply H3, Hthis].
Qed.

(** A primitive that only reads the stack. *)
Lemma runs_read {A} (f : list LuaValue -> A) stk :
  runs (get_inv this t O stk)
    (let* stk := stack_of (address t) in ret (f stk))
    (fun a s' => a = f stk /\ get_inv this t O stk s').
Proof.
  intros s Hinv. pose proof Hinv as (Hstk & _).
  rewrite (bind_stack_of _ _ _ _ Hstk). simpl. tauto.
Qed.

Lemma runs_lua_type idx stk :
  runs (get_inv this t O stk) (lua_type (address t) idx)
    (fun a s' => a = actual_type stk idx /\ get_inv this t O stk s').
Proof.
  intros s Hinv. pose proof Hinv as (Hstk & _). unfold lua_type.
  rewrite (bind_stack_of _ _ _ _ Hstk).
  destruct (acceptable stk idx); simpl; [tauto|discriminate].
Qed.

Lemma runs_thread_of stk :
  runs (get_inv this t O stk) (thread_of this)
    (fun a s' => a = t /\ get_inv this t O stk s').
Proof.
  intros s Hinv. pose proof Hinv as (_ & _ & Hthis).
  unfold thread_of. rewrite Hthis. simpl. tauto.
Qed.

Lemma get_inv_put stk stk' s :
  get_inv this t O stk s ->
  get_inv this t O stk' (set_stacks <[address t := stk']> s).
Proof.
  intros (_ & Hobj & Hthis). repeat split; [|exact Hobj|exact Hthis].
  simpl. apply lookup_insert_eq.
Qed.

Lemma runs_push v stk :
  runs (get_inv this t O stk) (push (address t) v)
    (fun _ => get_inv this t O (v :: stk)).
Proof.
  intros s Hinv. pose proof Hinv as (Hstk & _). unfold push, put_stack.
  rewrite (bind_stack_of _ _ _ _ Hstk). simpl.
  apply (get_inv_put stk), Hinv.
Qed.

Lemma runs_pushvalue idx stk :
  runs (get_inv this t O stk) (lua_pushvalue (address t) idx)
    (fun _ s' => exists v, get_inv this t O (v :: stk) s').
Proof.
  intros s Hinv. pose proof Hinv as (Hstk & _). unfold lua_pushvalue, put_stack.
  rewrite (bind_stack_of _ _ _ _ Hstk).
  destruct (slot stk idx) as [v|]; simpl; [|discriminate].
  exists v. apply (get_inv_put stk), Hinv.
Qed.

Lemma runs_luaL_ref v stk :
  runs (get_inv this t O (v :: stk)) (luaL_ref (address t))
    (fun _ => get_inv this t O stk).
Proof.
  intros s Hinv. pose proof Hinv as (Hstk & Hobj & Hthis).
  unfold luaL_ref, put_stack.
  rewrite (bind_stack_of _ _ _ _ Hstk).
  destruct v; cbv iota beta;
    repeat (first [rewrite bind_get_state | rewrite bind_modify | rewrite bind_ret];
            cbv beta);
    simpl; (repeat split; [simpl; apply lookup_insert_eq|exact Hobj|exact Hthis]).
Qed.

Lemma runs_luaL_tolstring idx stk :
  runs (get_inv this t O stk) (luaL_tolstring (address t) idx)
    (fun _ s' => exists x, get_inv this t O (x :: stk) s').
Proof.
  intros s Hinv. pose proof Hinv as (Hstk & _).
  unfold luaL_tolstring, push, put_stack.
  rewrite (bind_stack_of _ _ _ _ Hstk).
  rewrite bind_bind. rewrite (bind_stack_of _ _ _ _ Hstk).
  rewrite bind_modify. simpl.
  eexists. apply (get_inv_put stk), Hinv.
Qed.

Lemma runs_pop x stk :
  runs (get_inv this t O (x :: stk)) (pop this 1) (fun _ => get_inv this t O stk).
Proof.
  intros s Hinv. pose proof Hinv as (Hstk & Hobj & Hthis).
  unfold pop, lua_pop, put_stack.
  rewrite (bind_thread_of _ _ _ _ Hthis).
  rewrite (bind_stack_of _ _ _ _ Hstk).
  assert (((0 <=? 1) && (1 <=? Z.of_nat (length (x :: stk)))) = true) as Hc.
  { simpl length. apply andb_true_intro. split; [reflexivity|]. apply Z.leb_le. lia. }
  rewrite Hc. simpl.
  apply (get_inv_put (x :: stk)), Hinv.
Qed.

Lemma runs_lua_tolstring idx stk :
  actual_type stk idx = TString ->
  runs (get_inv this t O stk) (lua_tolstring (address t) idx)
    (fun _ => get_inv this t O stk).
Proof.
  intros Hty s Hinv. pose proof Hinv as (Hstk & _).
  unfold lua_tolstring.
  rewrite (bind_stack_of _ _ _ _ Hstk). unfold actual_type in Hty.
  destruct (slot stk idx) as [[]|]; try discriminate. simpl. exact Hinv.
Qed.

(** [lua_next] on a stack with the key on top. *)
Lemma runs_lua_next idx k stk :
  runs (get_inv this t O (k :: stk)) (lua_next (address t) idx)
    (fun more s' =>
       exists p entries mt,
         slot (k :: stk) idx = Some (LTable p) /\
         O !! p = Some (VTable entries mt) /\
         if more : bool
         then exists k' v', next_entry entries k = Some (Some (k', v')) /\
                            get_inv this t O (v' :: k' :: stk) s'
         else next_entry entries k = Some None /\ get_inv this t O stk s').
Proof.
  intros s Hinv. pose proof Hinv as (Hstk & Hobj & Hthis).
  unfold lua_next, put_stack.
  rewrite (bind_stack_of _ _ _ _ Hstk).
  destruct (slot (k :: stk) idx) as [[| | | | |p| | | |]|]; try (simpl; discriminate).
  unfold object_at, bind. rewrite Hobj.
  destruct (O !! p) as [[entries mt| | |]|] eqn:Hp; try (simpl; discriminate).
  destruct (next_entry entries k) as [[[k' v']|]|] eqn:Hn; try (simpl; discriminate);
    simpl; exists p, entries, mt; (split; [reflexivity|]); (split; [exact Hp|]).
  - exists k', v'. split; [exact Hn|]. apply (get_inv_put (k :: stk)), Hinv.
  - split; [exact Hn|]. apply (get_inv_put (k :: stk)), Hinv.
Qed.

Context (Hwf : wf_tables O) (bound : nat) (Hbound : entries_within O bound).

Lemma runs_getTableValue_loop get_value U table p idx stk :
  (forall k, slot (k :: stk) idx = Some (LTable p)) ->
  (is_Some (O !! p) ->
   forall idx type options stk,
     consistent type stk idx ->
     (unvisited O (default ∅ (get_done options)) <= U)%nat ->
     runs (get_inv this t O stk) (get_value idx type options)
       (fun r s' => default ∅ (get_done options) ⊆ snd r /\ get_inv this t O stk s')) ->
  forall n pre suf k done,
    (0 < n)%nat ->
    (forall E mt, O !! p = Some (VTable E mt) -> E = pre ++ suf /\ (length suf < n)%nat) ->
    traversed pre k ->
    (unvisited O done <= U)%nat ->
    runs (get_inv this t O (k :: stk))
      (getTableValue_loop get_value n (address t) idx this table done)
      (fun d s' => done ⊆ d /\ get_inv this t O stk s').
Proof.
  intros Hslot Hget. induction n as [|n IH]; intros pre suf k done Hn Hpos Htr HU; [lia|].
  cbn [getTableValue_loop].
  eapply runs_bind; [apply runs_lua_next|]. intros more. cbv beta.
  apply runs_ex; intros p'. apply runs_ex; intros E. apply runs_ex; intros mt.
  apply runs_pure; intros Hp'. apply runs_pure; intros H0.
  rewrite Hslot in Hp'. injection Hp' as <-.
  destruct (Hpos _ _ H0) as [HE Hlen].
  destruct (Hwf _ _ _ H0) as [Hnd Hnil].
  pose proof (next_entry_traversed _ _ _ _ Hnd Hnil HE Htr) as Hnext.
  destruct more.
  - apply runs_ex; intros x. apply runs_ex; intros x0. apply runs_pure; intros H.
    rewrite Hnext in H. injection H as Hhead.
    destruct suf as [|[k0 v0] suf']; [discriminate|]. injection Hhead as -> ->.
    eapply runs_bind; [apply runs_lua_type|]. intros keyType. run_intro. subst keyType.
    eapply runs_bind.
    { apply Hget; [eauto| |exact HU]. right. reflexivity. }
    intros key. apply runs_pure; intros H. simpl in H.
    eapply runs_bind; [apply runs_lua_type|]. intros valueType. run_intro. subst valueType.
    eapply runs_bind.
    { apply Hget; [eauto|right; reflexivity|]. simpl.
      etransitivity; [apply unvisited_mono, H|exact HU]. }
    intros value. apply runs_pure; intros H1. simpl in H1.
    eapply runs_bind; [apply runs_frame; [apply get_frame_set_property|avoid]|]. intros ?.
    eapply runs_bind; [apply runs_pop|]. intros ?.
    eapply runs_post; [|apply (IH (pre ++ [(x, x0)]) suf' x (snd value))].
    + intros d s [Hd Hs]. split; [|exact Hs].
      etransitivity; [exact H|]. etransitivity; [exact H1|exact Hd].
    + simpl in Hlen. lia.
    + intros E' mt' HE'. split; [|simpl in Hlen; lia].
      rewrite <- app_assoc. simpl. congruence.
    + right. eauto.
    + etransitivity; [apply unvisited_mono|exact HU].
      etransitivity; [exact H|exact H1].
  - apply runs_pure; intros _.
    apply runs_ret. intros s Hs. split; [reflexivity|exact Hs].
Qed.

Lemma runs_lua_topointer idx stk :
  runs (get_inv this t O stk) (lua_topointer (address t) idx)
    (fun a s' => (forall p, slot stk idx = Some (LTable p) -> a = p) /\
                 get_inv this t O stk s').
Proof.
  eapply runs_post; [|apply runs_read]. cbv beta.
  intros a s [Ha Hs]. split; [|exact Hs]. intros p Hp. rewrite Ha, Hp. reflexivity.
Qed.

Lemma runs_type_argument type idx stk :
  consistent type stk idx ->
  runs (get_inv this t O stk)
    (match type with
     | Some ty => if LuaType_code ty =? 0 then lua_type (address t) idx else ret ty
     | None => lua_type (address t) idx
     end)
    (fun a s' => a = actual_type stk idx /\ get_inv this t O stk s').
Proof.
  intros Hc. destruct type as [ty|]; [|apply runs_lua_type].
  destruct (Z.eqb_spec (LuaType_code ty) 0) as [Heq|Hne]; [apply runs_lua_type|].
  destruct Hc as [Hz|Hty]; [contradiction|].
  apply runs_ret. intros s Hs. split; [exact Hty|exact Hs].
Qed.

Ltac run_leaf :=
  first
    [ apply runs_ret; intros ? ?; split; [reflexivity|assumption]
    | apply runs_fail; discriminate ].

Ltac run_quiet lem :=
  eapply runs_bind; [apply runs_frame; [apply lem|avoid]|]; intros ?; cbv beta.

Lemma runs_getValue fuel :
  forall idx type options stk,
    consistent type stk idx ->
    (unvisited O (default ∅ (get_done options)) + bound + 1 < fuel)%nat ->
    runs (get_inv this t O stk) (getValue fuel this idx type options)
      (fun r s' => default ∅ (get_done options) ⊆ snd r /\ get_inv this t O stk s').
Proof.
  induction fuel as [|fuel IH]; intros idx type options stk Hc Hfuel; [lia|].
  cbn [getValue].
  destruct (idx =? 0); [apply runs_fail; discriminate|].
  eapply runs_bind; [apply runs_thread_of|]. intros t'. apply runs_pure; intros ->.
  eapply runs_bind; [apply runs_type_argument, Hc|].
  intros ty. apply runs_pure; intros ->.
  assert (runs (get_inv this t O stk)
            (luaL_tolstring (address t) idx;; pop this 1;;
             let* p := lua_topointer (address t) idx in
             ret (HPointer p, default ∅ (get_done options)))
            (fun r s' => default ∅ (get_done options) ⊆ snd r /\
                         get_inv this t O stk s')) as Hunsupported.
  { eapply runs_bind; [apply runs_luaL_tolstring|]. intros ?. apply runs_ex; intros x.
    eapply runs_bind; [apply runs_pop|]. intros ?.
    eapply runs_bind; [apply runs_lua_topointer|]. intros p. apply runs_pure; intros _.
    run_leaf. }
  destruct (actual_type stk idx) eqn:Hty.
  - run_leaf.
  - run_leaf.
  - eapply runs_bind; [apply runs_read|]. intros b. apply runs_pure; intros _. run_leaf.
  - exact Hunsupported.
  - run_quiet get_frame_lua_tonumberx. run_leaf.
  - eapply runs_bind; [apply runs_lua_tolstring, Hty|]. intros str. run_leaf.
  - destruct (get_raw options).
    { eapply runs_bind; [apply runs_lua_topointer|]. intros p. apply runs_pure; intros _.
      run_leaf. }
    run_quiet get_frame_new_host. rename a into table.
    eapply runs_bind; [apply runs_lua_topointer|].
    intros pointer. apply runs_pure; intros Hpointer.
    destruct (default ∅ (get_done options) !! pointer) as [known|] eqn:Hdone; [run_leaf|].
    unfold actual_type in Hty.
    destruct (slot stk idx) as [[| | | | |p| | | |]|] eqn:Hslot; try discriminate.
    rewrite (Hpointer p eq_refl) in *. clear Hpointer pointer.
    eapply runs_bind; [apply runs_push|]. intros ?.
    eapply runs_bind.
    { apply (runs_getTableValue_loop (getValue fuel this)
               (unvisited O (<[p := HObject table]> (default ∅ (get_done options))))
               table p _ stk)
        with (pre := []) (suf := match O !! p with
                                 | Some (VTable E _) => E
                                 | _ => []
                                 end).
      - intros k. apply slot_under, Hslot.
      - intros Hp idx0 type0 options0 stk0 Hc0 HU. apply IH; [exact Hc0|].
        pose proof (unvisited_insert O _ p (HObject table) Hp Hdone). lia.
      - lia.
      - intros E mt HE. rewrite HE. split; [reflexivity|].
        pose proof (Hbound _ _ _ HE). lia.
      - left. split; reflexivity.
      - lia. }
    intros done2. apply runs_pure; intros Hsub. apply runs_ret.
    intros s Hs. split; [|exact Hs]. simpl.
    etransitivity; [|exact Hsub]. apply insert_subseteq, Hdone.
  - destruct (get_raw options).
    { eapply runs_bind; [apply runs_lua_topointer|]. intros p. apply runs_pure; intros _.
      run_leaf. }
    eapply runs_bind; [apply runs_pushvalue|]. intros ?. apply runs_ex; intros v.
    eapply runs_bind; [apply runs_luaL_ref|]. intros func.
    run_quiet get_frame_new_host. run_leaf.
  - run_quiet get_frame_luaL_testudata.
    destruct (negb (a =? 0)).
    { run_quiet get_frame_module_getValue. run_quiet get_frame_getRef. run_leaf. }
    run_quiet get_frame_luaL_testudata.
    destruct (negb (a0 =? 0)).
    { run_quiet get_frame_module_getValue. run_quiet get_frame_getRef. run_leaf. }
    exact Hunsupported.
  - eapply runs_bind; [apply runs_read|]. intros value. apply runs_pure; intros _.
    destruct (get_raw options); [run_leaf|].
    run_quiet get_frame_stateToThread. run_leaf.
Qed.

End GetValue.

Lemma no_metatable_check_sound h : no_metatable_check h = true -> no_metatable h.
Proof.
  intros H o target options Ho. unfold no_metatable_check in H.
  rewrite forallb_forall in H.
  specialize (H (ODecoration target options)). simpl in H.
  apply negb_true_iff, H, list_elem_of_In, list_elem_of_fmap.
  exists (o, ODecoration target options). split; [reflexivity|].
  apply elem_of_map_to_list, Ho.
Qed.

Lemma wf_tables_check_sound O : wf_tables_check O = true -> wf_tables O.
Proof.
  intros H p entries mt Hp. unfold wf_tables_check in H.
  rewrite forallb_forall in H.
  specialize (H (VTable entries mt)). simpl in H.
  assert (In (VTable entries mt) (map_to_list O).*2) as Hin.
  { apply list_elem_of_In, list_elem_of_fmap.
    exists (p, VTable entries mt). split; [reflexivity|].
    apply elem_of_map_to_list, Hp. }
  apply H, andb_true_iff in Hin as [H1 H2].
  split; [apply bool_decide_eq_true in H1|apply bool_decide_eq_true in H2]; assumption.
Qed.

(** More fuel than the VM has objects plus the entries of its largest table,
    plus one, is enough for [getValue]. *)
Lemma getValue_fuel_top s this t stk fuel idx type options :
  heap s !! this = Some (OThread t) ->
  stacks s !! address t = Some stk ->
  wf_tables (objects s) ->
  consistent type stk idx ->
  (size (objects s) + widest (objects s) + 1 < fuel)%nat ->
  snd (getValue fuel this idx type options s) <> Fail OutOfFuel /\
  forall r, snd (getValue fuel this idx type options s) = Ok r ->
    stacks (fst (getValue fuel this idx type options s)) !! address t = Some stk.
Proof.
  intros Hthis Hstk Hwf Hc Hfuel.
  assert (get_inv this t (objects s) stk s) as Hinv by (repeat split; assumption).
  pose proof (runs_getValue this t (objects s) Hwf (widest (objects s))
                (entries_within_widest _) fuel idx type options stk Hc) as Hruns.
  pose proof (unvisited_bound (objects s) (default ∅ (get_done options))) as Hle.
  specialize (Hruns ltac:(lia) s Hinv).
  destruct (snd (getValue fuel this idx type options s)) as [r|f].
  - split; [discriminate|]. intros _ _. apply Hruns.
  - split; [congruence|]. discriminate.
Qed.


(** A table the cycle-guard map has an entry for is read as the host value
    recorded there. *)
Lemma getValue_shared s this t stk fuel idx type options p known :
  heap s !! this = Some (OThread t) ->
  stacks s !! address t = Some stk ->
  idx <> 0 ->
  consistent type stk idx ->
  get_raw options = false ->
  slot stk idx = Some (LTable p) ->
  default ∅ (get_done options) !! p = Some known ->
  snd (getValue (S fuel) this idx type options s)
    = Ok (known, default ∅ (get_done options)).
Proof.
  intros Hthis Hstk Hidx Hc Hraw Hslot Hdone. cbn [getValue].
  rewrite (proj2 (Z.eqb_neq idx 0) Hidx). msteps.
  assert (actual_type stk idx = TTable) as Hty by (unfold actual_type; rewrite Hslot; reflexivity).
  assert (lua_type (address t) idx s = (s, Ok TTable)) as Hlt.
  { apply (lua_type_slot _ stk idx (LTable p)); assumption. }
  assert ((match type with
           | Some ty => if LuaType_code ty =? 0 then lua_type (address t) idx else ret ty
           | None => lua_type (address t) idx
           end) s = (s, Ok TTable)) as Htype.
  { destruct type as [ty|]; [|exact Hlt].
    destruct (Z.eqb_spec (LuaType_code ty) 0) as [Heq|Hne]; [exact Hlt|].
    destruct Hc as [Hz|Hc]; [contradiction|]. rewrite Hc, Hty. reflexivity. }
  rewrite (bind_ok _ _ _ _ _ Htype). cbn iota. rewrite Hraw.
  unfold new_host, lua_topointer. unfold bind at 1. cbn beta iota. msteps.
  rewrite Hslot, Hdone. reflexivity.
Qed.

(** ** What ends: the conversions without a metatable cycle *)



(** On the example, the two conversions return: the host object that refers
    to itself becomes a guest table that refers to itself, and the guest
    table that refers to itself a host object that refers to itself. *)
Lemma conversion_cyclic_example :
  let pushed := pushValue 9 1 (HObject 50) no_options example_cyclic in
  let read := getValue 25 1 (-1) None no_get_options example_cyclic in
  (exists d, snd pushed = Ok d) /\
  stacks (fst pushed) !! 1 = Some [LTable 101; LTable 100] /\
  objects (fst pushed) !! 101 = Some (VTable [(LString "self", LTable 101)] None) /\
  (exists d, snd read = Ok (HObject 51, d)) /\
  stacks (fst read) !! 1 = Some [LTable 100] /\
  heap (fst read) !! 51 = Some (OPlain [("self", HObject 51)]).
Proof.
  repeat split; try (vm_compute; reflexivity); vm_compute; eexists; reflexivity.
Qed.

(** * Further properties of the bridge *)

(** ** Reading slots without a trace: [dumpStack] *)

Lemma put_stack_same s L stk :
  stacks s !! L = Some stk -> set_stacks <[L := stk]> s = s.
Proof.
  intros H. destruct s. unfold set_stacks. simpl in *. f_equal.
  apply insert_id, H.
Qed.

Lemma push_pop_same s L x stk :
  stacks s !! L = Some stk ->
  set_stacks <[L := stk]> (set_stacks <[L := x :: stk]> s) = s.
Proof.
  intros H. destruct s. unfold set_stacks. simpl in *. f_equal.
  rewrite insert_insert_eq. apply insert_id, H.
Qed.

Lemma luaL_testudata_userdata s L stk i p tname :
  stacks s !! L = Some stk ->
  slot stk i = Some (LUserData p) ->
  exists a, luaL_testudata L i tname s = (s, Ok a) /\
            (a = 0 \/ a = p /\ exists w mt, objects s !! p = Some (VUserData w mt)).
Proof.
  intros Hstk Hslot. unfold luaL_testudata. msteps. rewrite Hslot. cbn iota beta.
  destruct (objects s !! p) as [[entries mt|w [m|]|fn ups|]|] eqn:Hp;
    try (exists 0; split; [reflexivity|left; reflexivity]).
  destruct (metatables s !! LuaMetatables_name tname) as [m'|];
    [|exists 0; split; [reflexivity|left; reflexivity]].
  destruct (decide (m = m')); [|exists 0; split; [reflexivity|left; reflexivity]].
  exists p. split; [reflexivity|]. right. eauto.
Qed.

Lemma read_reference_same {A} s p w mt (d : A) :
  objects s !! p = Some (VUserData w mt) ->
  exists v, (let* referencePointer := module_getValue p in
             let* v := getRef referencePointer in ret (v, d)) s = (s, Ok (v, d)).
Proof.
  intros Hp. unfold module_getValue, getRef. msteps. eauto.
Qed.

(** A slot whose reported type is passed along is read in raw mode without
    any change of the state, and the read succeeds. *)
Lemma getValue_raw_same fuel this t stk i s :
  heap s !! this = Some (OThread t) ->
  stacks s !! address t = Some stk ->
  i <> 0 ->
  exists v, getValue (S fuel) this i (Some (actual_type stk i)) (get_raw_options true) s
            = (s, Ok v).
Proof.
  intros Hthis Hstk Hi. cbn [getValue].
  rewrite (proj2 (Z.eqb_neq i 0) Hi). msteps.
  assert ((if LuaType_code (actual_type stk i) =? 0
           then lua_type (address t) i else ret (actual_type stk i)) s
          = (s, Ok (actual_type stk i))) as Htype.
  { destruct (LuaType_code (actual_type stk i) =? 0) eqn:Hcode; [|reflexivity].
    unfold actual_type in *.
    destruct (slot stk i) as [v|] eqn:Hslot; [|discriminate Hcode].
    apply (lua_type_slot _ stk i v); assumption. }
  rewrite (bind_ok _ _ _ _ _ Htype). clear Htype.
  assert (exists v,
    (luaL_tolstring (address t) i;; pop this 1;;
     let* p := lua_topointer (address t) i in
     ret (HPointer p, default ∅ (get_done (get_raw_options true)))) s = (s, Ok v))
    as Hunsupported.
  { unfold luaL_tolstring, push, put_stack, pop, lua_pop, lua_topointer. msteps.
    simpl length.
    assert ((1 <=? Z.of_nat (S (length stk))) = true) as -> by (apply Z.leb_le; lia).
    simpl. unfold put_stack. msteps. simpl.
    rewrite (push_pop_same s _ _ _ Hstk). eauto. }
  unfold actual_type in *.
  destruct (slot stk i) as [[| | | | | | |p| |]|] eqn:Hslot; cbn [type_of_value].
  all: try exact Hunsupported.
  all: change (get_raw (get_raw_options true)) with true; cbn iota.
  all: unfold lua_tonumberx, lua_tolstring, lua_toboolean, lua_topointer, lua_tothread.
  all: try (msteps; rewrite ?Hslot; cbn iota beta; eauto; fail).
  destruct (luaL_testudata_userdata s _ stk i p JsReference Hstk Hslot)
    as (a & Ea & Ha).
  rewrite (bind_ok _ _ _ _ _ Ea).
  destruct (Z.eqb_spec a 0) as [Ha0|Ha0]; cbn [negb].
  - destruct (luaL_testudata_userdata s _ stk i p PromiseMt Hstk Hslot)
      as (a' & Ea' & Ha').
    rewrite (bind_ok _ _ _ _ _ Ea').
    destruct (Z.eqb_spec a' 0) as [Hb0|Hb0]; cbn [negb]; [exact Hunsupported|].
    destruct Ha' as [|[-> (w & mt & Hp)]]; [contradiction|].
    destruct (read_reference_same s p w mt (default ∅ (get_done (get_raw_options true))) Hp)
      as (v & Hv).
    eauto.
  - destruct Ha as [|[-> (w & mt & Hp)]]; [contradiction|].
    destruct (read_reference_same s p w mt (default ∅ (get_done (get_raw_options true))) Hp)
      as (v & Hv).
    eauto.
Qed.

Lemma dumpStack_from_same this t stk s count :
  heap s !! this = Some (OThread t) ->
  stacks s !! address t = Some stk ->
  forall i, 0 < i -> dumpStack_from this (address t) i count s = (s, Ok tt).
Proof.
  intros Hthis Hstk. induction count as [|count IH]; intros i Hi; [reflexivity|].
  cbn [dumpStack_from]. unfold lua_type. msteps.
  rewrite (acceptable_positive stk i Hi). msteps.
  destruct (getValue_raw_same 0 this t stk i s Hthis Hstk ltac:(lia)) as (v & Hv).
  unfold actual_type in Hv. rewrite (bind_ok _ _ _ _ _ Hv).
  apply IH. lia.
Qed.

Lemma dumpStack_quiet this t stk s :
  heap s !! this = Some (OThread t) ->
  stacks s !! address t = Some stk ->
  dumpStack this s = (s, Ok tt).
Proof.
  intros Hthis Hstk. unfold dumpStack, getTop, lua_gettop. msteps.
  apply (dumpStack_from_same this t stk); [assumption..|lia].
Qed.

(** [dumpStack()] succeeds on every context with a stack and leaves the
    whole state, guest and host side, exactly as it was. *)
Theorem dumpStack_same this t stk s
    (Hthis : heap s !! this = Some (OThread t))
    (Hstk : stacks s !! address t = Some stk) :
  dumpStack this s = (s, Ok tt).
Proof. apply (dumpStack_quiet this t stk); assumption. Qed.

Lemma dumpStack_same_witness :
  dumpStack 1 example_cyclic = (example_cyclic, Ok tt).
Proof.
  apply (dumpStack_same 1 example_root_fields [LTable 100]); vm_compute; reflexivity.
Defined.

(** ** Reading primitive slots; [get], [set] and [getValues] *)

Lemma type_argument_same s L stk idx type :
  stacks s !! L = Some stk ->
  acceptable stk idx = true ->
  consistent type stk idx ->
  (match type with
   | Some ty => if LuaType_code ty =? 0 then lua_type L idx else ret ty
   | None => lua_type L idx
   end) s = (s, Ok (actual_type stk idx)).
Proof.
  intros Hstk Hacc Hc.
  assert (lua_type L idx s = (s, Ok (actual_type stk idx))) as Hlt.
  { unfold lua_type. msteps. rewrite Hacc. reflexivity. }
  destruct type as [ty|]; [|exact Hlt].
  destruct (Z.eqb_spec (LuaType_code ty) 0) as [Heq|Hne]; [exact Hlt|].
  destruct Hc as [Hz|Hc]; [contradiction|]. rewrite Hc. reflexivity.
Qed.

Lemma getValue_primitive_slot fuel this t stk idx lv type options s :
  heap s !! this = Some (OThread t) ->
  stacks s !! address t = Some stk ->
  idx <> 0 ->
  consistent type stk idx ->
  slot stk idx = Some lv ->
  primitive_slot lv ->
  getValue (S fuel) this idx type options s
    = (s, Ok (read_as lv, default ∅ (get_done options))).
Proof.
  intros Hthis Hstk Hidx Hc Hslot Hprim. cbn [getValue].
  rewrite (proj2 (Z.eqb_neq idx 0) Hidx). msteps.
  rewrite (bind_ok _ _ _ _ _ (type_argument_same s _ stk idx type Hstk
                                (slot_acceptable _ _ _ Hslot) Hc)).
  unfold actual_type. rewrite Hslot.
  destruct lv as [|[|]| | | | | | | |]; try contradiction; cbn [type_of_value];
    unfold lua_tonumberx, lua_tolstring, lua_toboolean; msteps; rewrite ?Hslot;
    reflexivity.
Qed.

Lemma slot_negative stk idx :
  idx < 0 -> - idx <= Z.of_nat (length stk) -> is_Some (slot stk idx).
Proof.
  intros Hneg Hlen. unfold slot.
  destruct (Z.ltb_spec 0 idx); [lia|]. destruct (Z.ltb_spec idx 0); [|lia].
  apply lookup_lt_is_Some_2. lia.
Qed.

Lemma primitive_slot_pushed_as v : primitive_slot (pushed_as v).
Proof. destruct v as [| |[z|r]|str|b| | | | |]; exact I. Qed.

Lemma consistent_actual stk idx : consistent (Some (actual_type stk idx)) stk idx.
Proof. right. reflexivity. Qed.

(** [set(name, v)] followed by [get(name)], for a primitive [v]: what comes
    back is the reading of the slot [v] was pushed as, which is [v] itself
    when the VM holds [v] without loss ([undefined] as [null]); [set] leaves
    the stack and the globals of every other name as they were, and [get]
    leaves the value it read on the stack.  The VM sees the name as far as
    its first NUL. *)
Theorem set_get_roundtrip fuel fuel' this t stk name v s
    (Hthis : heap s !! this = Some (OThread t))
    (Hstk : stacks s !! address t = Some stk)
    (Hprim : primitive v) :
  exists s1 s2,
    set (S fuel) this name v s = (s1, Ok tt) /\
    stacks s1 !! address t = Some stk /\
    (forall other, other <> c_string name -> globals s1 !! other = globals s !! other) /\
    get (S fuel') this name s1 = (s2, Ok (read_as (pushed_as v))) /\
    (lossless v ->
     get (S fuel') this name s1
       = (s2, Ok (match v with HUndefined => HNull | _ => v end))) /\
    stacks s2 !! address t = Some (pushed_as v :: stk).
Proof.
  pose (s1 := set_stacks <[address t := stk]>
                (set_globals <[c_string name := pushed_as v]>
                   (set_stacks <[address t := pushed_as v :: stk]> s))).
  assert (globals s1 !! c_string name = Some (pushed_as v)) as Hg by apply lookup_insert_eq.
  assert (stacks s1 !! address t = Some stk) as Hs1 by apply lookup_insert_eq.
  assert (heap s1 !! this = Some (OThread t)) as Hh1 by exact Hthis.
  exists s1, (set_stacks <[address t := pushed_as v :: stk]> s1).
  assert (get (S fuel') this name s1
          = (set_stacks <[address t := pushed_as v :: stk]> s1,
             Ok (read_as (pushed_as v)))) as Hget.
  { clearbody s1. unfold get, lua_getglobal, push, put_stack. msteps.
    rewrite Hg. cbn [default from_option id].
    erewrite bind_ok; [|apply (getValue_primitive_slot fuel' this t (pushed_as v :: stk)
                                (-1) (pushed_as v))].
    + reflexivity.
    + exact Hh1.
    + simpl. apply lookup_insert_eq.
    + lia.
    + right. reflexivity.
    + reflexivity.
    + apply primitive_slot_pushed_as. }
  split; [|split; [|split; [|split; [|split]]]].
  - unfold set. msteps.
    rewrite (bind_ok _ _ _ _ _ (pushValue_primitive fuel this t stk v s Hthis Hstk Hprim)).
    unfold lua_setglobal, put_stack. msteps. reflexivity.
  - exact Hs1.
  - intros other Hother. simpl. apply lookup_insert_ne. congruence.
  - exact Hget.
  - intros Hl. rewrite Hget. rewrite (lossless_pushed v Hprim Hl). reflexivity.
  - simpl. apply lookup_insert_eq.
Qed.

Lemma set_get_roundtrip_witness :
  exists s1 s2,
    set 1 1 "answer" (HNumber (Integral 42)) example_root = (s1, Ok tt) /\
    stacks s1 !! 1 = Some [] /\
    get 1 1 "answer" s1 = (s2, Ok (HNumber (Integral 42))) /\
    stacks s2 !! 1 = Some [LInteger 42].
Proof.
  destruct (set_get_roundtrip 0 0 1 example_root_fields [] "answer"
              (HNumber (Integral 42)) example_root)
    as (s1 & s2 & Hset & Hstk & _ & _ & Hget & Hstk2).
  - vm_compute. reflexivity.
  - vm_compute. reflexivity.
  - exact I.
  - exists s1, s2. split; [exact Hset|]. split; [exact Hstk|].
    split; [apply Hget; vm_compute; split; discriminate|exact Hstk2].
Defined.

(** [get(name)] of a name no global is bound to returns [null], and the nil
    it read stays on the stack.  The name is the one the VM sees, which ends
    at the first NUL. *)
Theorem get_unbound fuel this t stk name s
    (Hthis : heap s !! this = Some (OThread t))
    (Hstk : stacks s !! address t = Some stk)
    (Hname : globals s !! c_string name = None) :
  get (S fuel) this name s = (set_stacks <[address t := LNil :: stk]> s, Ok HNull).
Proof.
  unfold get, lua_getglobal, push, put_stack. msteps.
  rewrite Hname. cbn [default from_option id].
  erewrite bind_ok; [|apply (getValue_primitive_slot fuel this t (LNil :: stk) (-1) LNil)].
  - reflexivity.
  - exact Hthis.
  - simpl. apply lookup_insert_eq.
  - lia.
  - left. reflexivity.
  - reflexivity.
  - exact I.
Qed.

Lemma get_unbound_witness :
  get 1 1 "missing" example_root
    = (set_stacks <[1 := [LNil]]> example_root, Ok HNull).
Proof.
  apply (get_unbound 0 1 example_root_fields [] "missing"); vm_compute; reflexivity.
Defined.

Lemma slot_positive stk (n : nat) :
  (0 < n <= length stk)%nat ->
  slot stk (Z.of_nat (length stk) - Z.of_nat n + 1) = stk !! (n - 1)%nat.
Proof.
  intros Hn. unfold slot.
  destruct (Z.ltb_spec 0 (Z.of_nat (length stk) - Z.of_nat n + 1)); [|lia].
  destruct (Z.leb_spec (Z.of_nat (length stk) - Z.of_nat n + 1) (Z.of_nat (length stk)));
    [|lia].
  f_equal. lia.
Qed.

Lemma getValues_from_primitive fuel this t stk count s :
  heap s !! this = Some (OThread t) ->
  stacks s !! address t = Some stk ->
  forall n : nat,
    (n <= length stk)%nat ->
    Forall primitive_slot (take n stk) ->
    getValues_from (S fuel) this (Z.of_nat (length stk)) count (count - Z.of_nat n) n s
      = (s, Ok (read_as <$> reverse (take n stk))).
Proof.
  intros Hthis Hstk. induction n as [|n IH]; intros Hn Hprim.
  - rewrite take_0. reflexivity.
  - cbn [getValues_from].
    destruct (lookup_lt_is_Some_2 stk n ltac:(lia)) as [lv Hlv].
    rewrite (take_S_r _ _ _ Hlv) in Hprim |- *.
    apply Forall_app in Hprim as [Hprim Hlast].
    apply (proj1 (Forall_singleton _ _)) in Hlast.
    replace (Z.of_nat (length stk) - count + (count - Z.of_nat (S n)) + 1)
      with (Z.of_nat (length stk) - Z.of_nat (S n) + 1) by lia.
    assert (slot stk (Z.of_nat (length stk) - Z.of_nat (S n) + 1) = Some lv) as Hslot.
    { rewrite slot_positive by lia. rewrite <- Hlv. f_equal. lia. }
    rewrite (bind_ok _ _ _ _ _
               (getValue_primitive_slot fuel this t stk
                  (Z.of_nat (length stk) - Z.of_nat (S n) + 1) lv None no_get_options s
                  Hthis Hstk ltac:(lia) I Hslot Hlast)).
    replace (count - Z.of_nat (S n) + 1) with (count - Z.of_nat n) by lia.
    rewrite (bind_ok _ _ _ _ _ (IH ltac:(lia) Hprim)).
    rewrite reverse_snoc. reflexivity.
Qed.



Lemma getValues_from_zero fuel this top count :
  forall n i s,
    i <= count - top - 1 < i + Z.of_nat n ->
    forall r, snd (getValues_from fuel this top count i n s) <> Ok r.
Proof.
  induction n as [|n IH]; intros i s Hi r; [lia|].
  cbn [getValues_from]. unfold bind at 1.
  destruct (getValue fuel this (top - count + i + 1) None no_get_options s)
    as [s1 [v|f]] eqn:Hv; [|discriminate].
  destruct (Z.eq_dec i (count - top - 1)) as [Heq|Hne].
  - exfalso. replace (top - count + i + 1) with 0 in Hv by lia.
    destruct fuel; discriminate.
  - unfold bind. specialize (IH (i + 1) s1 ltac:(lia)).
    destruct (getValues_from fuel this top count (i + 1) n s1) as [s2 [vs|f]];
      [|discriminate].
    exfalso. eapply IH. reflexivity.
Qed.

Lemma getValues_from_throws fuel this t stk count s :
  heap s !! this = Some (OThread t) ->
  stacks s !! address t = Some stk ->
  Forall primitive_slot stk ->
  count <= 2 * Z.of_nat (length stk) + 1 ->
  forall n i,
    0 <= i -> i <= count - Z.of_nat (length stk) - 1 < i + Z.of_nat n ->
    getValues_from (S fuel) this (Z.of_nat (length stk)) count i n s
      = (s, Fail (Throw IndexMustBeNonZero)).
Proof.
  intros Hthis Hstk Hprim Hcount. induction n as [|n IH]; intros i Hi0 Hi; [lia|].
  cbn [getValues_from].
  destruct (Z.eq_dec i (count - Z.of_nat (length stk) - 1)) as [Heq|Hne].
  - replace (Z.of_nat (length stk) - count + i + 1) with 0 by lia. reflexivity.
  - destruct (slot_negative stk (Z.of_nat (length stk) - count + i + 1)
                ltac:(lia) ltac:(lia)) as [lv Hlv].
    assert (primitive_slot lv) as Hslot.
    { unfold slot in Hlv.
      destruct (Z.ltb_spec 0 (Z.of_nat (length stk) - count + i + 1)); [lia|].
      destruct (Z.ltb_spec (Z.of_nat (length stk) - count + i + 1) 0); [|lia].
      eapply Forall_lookup_1; eassumption. }
    rewrite (bind_ok _ _ _ _ _
               (getValue_primitive_slot fuel this t stk
                  (Z.of_nat (length stk) - count + i + 1) lv None no_get_options s
                  Hthis Hstk ltac:(lia) I Hlv Hslot)).
    rewrite (bind_fail _ _ _ _ _ (IH (i + 1) ltac:(lia) ltac:(lia))). reflexivity.
Qed.

(** [getValues(count)] with more values asked for than the stack holds never
    returns: the indices it reads run through 0.  When the first index it
    reads is still one the VM accepts, which is so up to twice the depth of
    the stack plus one, and the slots hold primitive values, the call
    throws "index must be non-zero" and leaves the state as it was.  A
    negative count is refused with a RangeError before the stack is looked
    at. *)
Theorem getValues_beyond_top this t stk count s
    (Hthis : heap s !! this = Some (OThread t))
    (Hstk : stacks s !! address t = Some stk)
    (Hcount : Z.of_nat (length stk) < count) :
  (forall fuel r, snd (getValues fuel this count s) <> Ok r) /\
  (Forall primitive_slot stk -> count <= 2 * Z.of_nat (length stk) + 1 ->
   forall fuel, getValues (S fuel) this count s = (s, Fail (Throw IndexMustBeNonZero))) /\
  (forall fuel negative, negative < 0 ->
   getValues fuel this negative s = (s, Fail (Throw InvalidArrayLength))).
Proof.
  split; [|split].
  - intros fuel r. unfold getValues, getTop, lua_gettop.
    destruct (Z.ltb_spec count 0) as [|_]; [lia|]. msteps.
    unfold bind.
    pose proof (getValues_from_zero fuel this (Z.of_nat (length stk)) count
                  (Z.to_nat count) 0 s ltac:(lia)) as H.
    destruct (getValues_from fuel this _ count 0 (Z.to_nat count) s) as [s1 [vs|f]];
      [|discriminate].
    exfalso. eapply H. reflexivity.
  - intros Hprim Hle fuel. unfold getValues, getTop, lua_gettop.
    destruct (Z.ltb_spec count 0) as [|_]; [lia|]. msteps.
    rewrite (bind_fail _ _ _ _ _
               (getValues_from_throws fuel this t stk count s Hthis Hstk Hprim Hle
                  (Z.to_nat count) 0 ltac:(lia) ltac:(lia))).
    reflexivity.
  - intros fuel negative Hneg. unfold getValues.
    destruct (Z.ltb_spec negative 0) as [_|]; [reflexivity|lia].
Qed.

Lemma getValues_beyond_top_witness :
  let s := set_stacks <[1 := [LString "b"; LInteger 7]]> example_root in
  getValues 1 1 4 s = (s, Fail (Throw IndexMustBeNonZero)).
Proof.
  intros s.
  destruct (getValues_beyond_top 1 example_root_fields [LString "b"; LInteger 7] 4 s)
    as (_ & H & _).
  - vm_compute. reflexivity.
  - vm_compute. reflexivity.
  - simpl. lia.
  - apply (H ltac:(repeat constructor) ltac:(simpl; lia) 0%nat).
Defined.

(** ** Status codes: [assertOk] and its callers *)

Lemma assertOk_ok this r s :
  r = ROk \/ r = RYield -> assertOk this r s = (s, Ok tt).
Proof. intros [->| ->]; reflexivity. Qed.

Lemma assertOk_throws this t stk r s
    (Hthis : heap s !! this = Some (OThread t))
    (Hstk : stacks s !! address t = Some stk)
    (Hok : r <> ROk) (Hyield : r <> RYield) :
  assertOk this r s
    = (match stk with
       | [] => s
       | _ :: rest => set_stacks <[address t := rest]> s
       end,
       Fail (Throw (LuaError r (error_message stk)))).
Proof.
  unfold assertOk.
  rewrite (bool_decide_eq_true_2 _ Hok), (bool_decide_eq_true_2 _ Hyield).
  cbn [andb]. unfold getTop, lua_gettop. msteps.
  destruct stk as [|v rest].
  - reflexivity.
  - assert ((0 <? Z.of_nat (length (v :: rest))) = true) as ->
      by (apply Z.ltb_lt; simpl length; lia).
    assert (forall x s',
      heap s' !! this = Some (OThread t) ->
      (exists top, stacks s' !! address t = Some (top :: rest)) ->
      set_stacks <[address t := rest]> s' = set_stacks <[address t := rest]> s ->
      (pop this 1;; @throw unit (LuaError r (Some x))) s'
      = (set_stacks <[address t := rest]> s, Fail (Throw (LuaError r (Some x)))))
      as Hpop.
    { intros x s' Hthis' [top Hstk'] Heq. unfold pop, lua_pop, put_stack. msteps.
      simpl length.
      assert ((1 <=? Z.of_nat (S (length rest))) = true) as ->
        by (apply Z.leb_le; lia).
      cbn [andb]. msteps. unfold throw, fail. simpl. rewrite <- Heq. reflexivity. }
    unfold lua_tolstring, put_stack. msteps.
    change (slot (v :: rest) (-1)) with (Some v). cbn iota beta.
    destruct v; cbn iota beta; msteps;
      first [ apply Hpop; [exact Hthis|eauto|reflexivity]
            | apply Hpop;
              [exact Hthis
              |eexists; simpl; apply lookup_insert_eq
              |destruct s; unfold set_stacks; simpl; f_equal; apply insert_insert_eq] ].
Qed.

(** [assertOk(result)] for a status that is neither Ok nor Yield always
    throws: the error carries the status and the text of the top slot, which
    is popped; on an empty stack it carries the status alone. *)
Theorem assertOk_error this t stk r s
    (Hthis : heap s !! this = Some (OThread t))
    (Hstk : stacks s !! address t = Some stk)
    (Hok : r <> ROk) (Hyield : r <> RYield) :
  assertOk this r s
    = (match stk with
       | [] => s
       | _ :: rest => set_stacks <[address t := rest]> s
       end,
       Fail (Throw (LuaError r (error_message stk)))).
Proof. apply assertOk_throws; assumption. Qed.

Lemma assertOk_error_witness :
  assertOk 1 RErrorRun (set_stacks <[1 := [LString "boom"; LInteger 1]]> example_root)
    = (set_stacks <[1 := [LInteger 1]]>
         (set_stacks <[1 := [LString "boom"; LInteger 1]]> example_root),
       Fail (Throw (LuaError RErrorRun (Some "boom")))).
Proof.
  apply (assertOk_error 1 example_root_fields [LString "boom"; LInteger 1] RErrorRun).
  - vm_compute. reflexivity.
  - vm_compute. reflexivity.
  - discriminate.
  - discriminate.
Defined.

Lemma load_status (load : Z -> string -> State -> State * LuaReturn) this t stk text r s s1 :
  heap s !! this = Some (OThread t) ->
  load (address t) text s = (s1, r) ->
  heap s1 !! this = Some (OThread t) ->
  stacks s1 !! address t = Some stk ->
  (let* t := thread_of this in
   let* r := lift (load (address t) text) in
   assertOk this r) s
  = if bool_decide (r = ROk \/ r = RYield) then (s1, Ok tt)
    else (match stk with
          | [] => s1
          | _ :: rest => set_stacks <[address t := rest]> s1
          end,
          Fail (Throw (LuaError r (error_message stk)))).
Proof.
  intros Hthis Hload Hthis1 Hstk1. msteps.
  unfold lift, bind at 1. rewrite Hload.
  case_bool_decide as Hr.
  - apply assertOk_ok, Hr.
  - apply (assertOk_throws this t stk r s1 Hthis1 Hstk1); intros ->; apply Hr; auto.
Qed.

(** [loadString] and [loadFile] return exactly when the compiler of the VM
    reports Ok (or Yield); for any other status they throw the Lua error
    with that status and the text of the slot the compiler left on top,
    which is popped.  The compiler may do to the VM what it likes, as long
    as the context [this] stays a context. *)
Theorem load_outcome (load : Z -> string -> State -> State * LuaReturn)
    this t stk text r s s1
    (Hthis : heap s !! this = Some (OThread t))
    (Hload : load (address t) text s = (s1, r))
    (Hthis1 : heap s1 !! this = Some (OThread t))
    (Hstk1 : stacks s1 !! address t = Some stk) :
  let outcome :=
    if bool_decide (r = ROk \/ r = RYield) then (s1, Ok tt)
    else (match stk with
          | [] => s1
          | _ :: rest => set_stacks <[address t := rest]> s1
          end,
          Fail (Throw (LuaError r (error_message stk)))) in
  loadString load this text s = outcome /\ loadFile load this text s = outcome.
Proof.
  split; apply (load_status load this t stk text r s s1); assumption.
Qed.

Lemma load_outcome_witness :
  let load := fun (L : Z) (code : string) (s : State) =>
                (set_stacks <[L := [LString (code +:+ ": unexpected symbol")]]> s,
                 RErrorSyntax) in
  loadString load 1 "x = = 1" example_root
    = (set_stacks <[1 := []]>
         (set_stacks <[1 := [LString "x = = 1: unexpected symbol"]]> example_root),
       Fail (Throw (LuaError RErrorSyntax (Some "x = = 1: unexpected symbol")))).
Proof.
  intros load.
  destruct (load_outcome load 1 example_root_fields
              [LString "x = = 1: unexpected symbol"] "x = = 1" RErrorSyntax
              example_root
              (set_stacks <[1 := [LString "x = = 1: unexpected symbol"]]> example_root))
    as [H _].
  - vm_compute. reflexivity.
  - reflexivity.
  - vm_compute. reflexivity.
  - vm_compute. reflexivity.
  - exact H.
Defined.

(** ** Closed contexts: [isClosed] along the parent links *)

Lemma isClosed_along_ancestor h a ta :
  h !! a = Some (OThread ta) -> closed ta = true ->
  forall path c n,
    ancestry h c path a -> (length path < n)%nat ->
    isClosed_along n h c = Some true.
Proof.
  intros Ha Hclosed. induction path as [|p rest IH]; intros c n Hanc Hn.
  - simpl in Hanc. subst c. destruct n as [|n]; [simpl in Hn; lia|].
    simpl. rewrite Ha, Hclosed.
    destruct (match global ta with Some _ => address ta =? 0 | None => false end);
      reflexivity.
  - destruct Hanc as (t & Hc & Hp & Hrest).
    destruct n as [|n]; [simpl in Hn; lia|].
    simpl. rewrite Hc, Hp.
    destruct (match global t with Some _ => address t =? 0 | None => false end);
      [reflexivity|].
    destruct (closed t); [reflexivity|].
    apply IH; [exact Hrest|]. simpl in Hn. lia.
Qed.

Lemma ancestry_dom h a ta :
  h !! a = Some (OThread ta) ->
  forall path c, ancestry h c path a -> forall x, x ∈ path -> x ∈ dom h.
Proof.
  intros Ha. induction path as [|p rest IH]; intros c Hanc x Hx.
  - apply elem_of_nil in Hx. contradiction.
  - destruct Hanc as (t & Hc & Hp & Hrest).
    apply elem_of_cons in Hx as [->|Hx]; [|eapply IH; eassumption].
    destruct rest as [|q rest'].
    + simpl in Hrest. subst p. apply elem_of_dom. eauto.
    + destruct Hrest as (tp & Hp' & _). apply elem_of_dom. eauto.
Qed.

Lemma NoDup_within_size {A} (h : gmap Z A) (path : list Z) :
  NoDup path -> (forall x, x ∈ path -> x ∈ dom h) -> (length path <= size h)%nat.
Proof.
  intros Hnd Hin. rewrite <- size_dom.
  unfold size, set_size. simpl.
  apply submseteq_length, NoDup_submseteq; [exact Hnd|].
  intros x Hx. apply elem_of_elements, Hin, Hx.
Qed.

Lemma ancestry_set_closed h root t b :
  h !! root = Some (OThread t) ->
  forall path c a,
    ancestry h c path a ->
    ancestry (<[root := OThread (set_closed b t)]> h) c path a.
Proof.
  intros Hroot. induction path as [|p rest IH]; intros c a Hanc; [exact Hanc|].
  destruct Hanc as (tc & Hc & Hp & Hrest).
  destruct (decide (c = root)) as [->|Hne].
  - exists (set_closed b t). rewrite lookup_insert_eq.
    split; [reflexivity|]. split; [|apply IH, Hrest].
    rewrite Hroot in Hc. injection Hc as <-. exact Hp.
  - exists tc. rewrite lookup_insert_ne by congruence.
    split; [exact Hc|]. split; [exact Hp|apply IH, Hrest].
Qed.

Lemma close_heap this t g stk s :
  heap s !! this = Some (OThread t) ->
  global t = Some g ->
  closed t = false ->
  stacks s !! address t = Some stk ->
  exists s1, close this s = (s1, Ok tt) /\
             heap s1 = <[this := OThread (set_closed true t)]> (heap s).
Proof.
  intros Hthis Hglobal Hopen Hlive.
  unfold close. msteps. rewrite Hglobal, Hopen.
  unfold update_thread. msteps.
  set (sa := set_heap _ s).
  destruct (lua_close_spec (address t) stk sa Hlive) as (sb & mid & Eb & Hh & Ht).
  rewrite (bind_ok _ _ _ _ _ Eb).
  unfold removeFunction. msteps.
  eexists. split; [reflexivity|]. simpl. exact Hh.
Qed.

Lemma isClosed_closed_ancestor c path a ta s :
  ancestry (heap s) c path a ->
  NoDup path ->
  heap s !! a = Some (OThread ta) ->
  closed ta = true ->
  isClosed c s = (s, Ok true).
Proof.
  intros Hanc Hdistinct Ha Hclosed.
  unfold isClosed. rewrite bind_get_state.
  rewrite (isClosed_along_ancestor (heap s) a ta Ha Hclosed path c); [reflexivity|exact Hanc|].
  pose proof (NoDup_within_size (heap s) path Hdistinct
                (ancestry_dom (heap s) a ta Ha path c Hanc)).
  lia.
Qed.

(** A context is closed as soon as one of the contexts its parent links lead
    to, itself included, carries the closed flag. *)
Theorem isClosed_ancestor c path a ta s
    (Hanc : ancestry (heap s) c path a)
    (Hdistinct : NoDup path)
    (Ha : heap s !! a = Some (OThread ta))
    (Hclosed : closed ta = true) :
  isClosed c s = (s, Ok true).
Proof. apply (isClosed_closed_ancestor c path a ta); assumption. Qed.

Lemma isClosed_ancestor_witness :
  let s := fst (newThread 7 example_child) in
  let closed_root := set_heap <[1 := OThread (set_closed true example_root_fields)]> s in
  isClosed (fresh_handle (heap example_child)) closed_root = (closed_root, Ok true).
Proof.
  intros s closed_root.
  apply (isClosed_ancestor _ [7; 1] 1 (set_closed true example_root_fields)).
  - vm_compute. eexists. split; [reflexivity|]. split; [reflexivity|].
    eexists. split; [reflexivity|]. split; reflexivity.
  - apply (bool_decide_unpack _). reflexivity.
  - vm_compute. reflexivity.
  - reflexivity.
Defined.

(** [close()] on an open root closes every context whose parent links lead
    to the root: each of them, and the root itself, answers [isClosed()]
    with true afterwards. *)
Theorem close_closes_descendants root t g stk c path s
    (Hroot : heap s !! root = Some (OThread t))
    (Hglobal : global t = Some g)
    (Hopen : closed t = false)
    (Hlive : stacks s !! address t = Some stk)
    (Hanc : ancestry (heap s) c path root)
    (Hdistinct : NoDup path) :
  exists s1, close root s = (s1, Ok tt) /\ isClosed c s1 = (s1, Ok true).
Proof.
  destruct (close_heap root t g stk s Hroot Hglobal Hopen Hlive) as (s1 & Hclose & Hheap).
  exists s1. split; [exact Hclose|].
  apply (isClosed_closed_ancestor c path root (set_closed true t)).
  - rewrite Hheap. apply ancestry_set_closed; assumption.
  - exact Hdistinct.
  - rewrite Hheap. apply lookup_insert_eq.
  - reflexivity.
Qed.

Lemma close_closes_descendants_witness :
  exists s1, close 1 example_child = (s1, Ok tt) /\ isClosed 7 s1 = (s1, Ok true).
Proof.
  apply (close_closes_descendants 1 example_root_fields (mkGlobal 2 3 4 1)
           [LThread 2] 7 [1]).
  - vm_compute. reflexivity.
  - reflexivity.
  - reflexivity.
  - vm_compute. reflexivity.
  - vm_compute. eexists. split; [reflexivity|]. split; reflexivity.
  - apply (bool_decide_unpack _). reflexivity.
Defined.

(** ** Host references: userdata with a registered metatable *)

Lemma bind_ref {B} v (k : Z -> M B) s :
  bind (ref v) k s = k (fresh_handle (refs s)) (set_refs <[fresh_handle (refs s) := v]> s).
Proof. reflexivity. Qed.

Lemma bind_addFunction {B} f (k : Z -> M B) s :
  bind (addFunction f) k s
    = k (fresh_handle (fn_table s))
        (emit (EAddFunction (fresh_handle (fn_table s)))
              (set_fn_table <[fresh_handle (fn_table s) := f]> s)).
Proof. reflexivity. Qed.

Lemma bind_new_host {B} o (k : Z -> M B) s :
  bind (new_host o) k s
    = k (fresh_handle (heap s)) (set_heap <[fresh_handle (heap s) := o]> s).
Proof. reflexivity. Qed.

Ltac userdata_steps Hmt :=
  unfold lua_newuserdatauv, module_setValue, luaL_getmetatable, lua_setmetatable,
    set_metatable_of, push, put_stack, unref, pop, lua_pop;
  msteps; rewrite ?bind_ref; msteps; rewrite ?bind_new_object; msteps;
  simpl in Hmt; simpl; rewrite Hmt; msteps.

Ltac userdata_done :=
  destruct (decide (TTable = TNil)) as [?|_]; [discriminate|];
  msteps; simpl; msteps;
  eexists; split; [reflexivity|]; simpl; rewrite !insert_insert_eq; repeat split.

Lemma createAndPushJsReference_ok this t stk m v s :
  heap s !! this = Some (OThread t) ->
  stacks s !! address t = Some stk ->
  metatables s !! LuaMetatables_name JsReference = Some m ->
  exists s1,
    createAndPushJsReference this v s = (s1, Ok tt) /\
    stacks s1 = <[address t := LUserData (fresh_handle (objects s)) :: stk]> (stacks s) /\
    objects s1 = <[fresh_handle (objects s) :=
                     VUserData (fresh_handle (refs s)) (Some m)]> (objects s) /\
    refs s1 = <[fresh_handle (refs s) := v]> (refs s) /\
    heap s1 = heap s /\ metatables s1 = metatables s /\
    fn_table s1 = fn_table s /\ registry s1 = registry s /\ globals s1 = globals s /\
    trace s1 = trace s.
Proof.
  intros Hthis Hstk Hmt. unfold createAndPushJsReference.
  userdata_steps Hmt. userdata_done.
Qed.

Lemma pushPromise_ok this t stk m v s :
  heap s !! this = Some (OThread t) ->
  stacks s !! address t = Some stk ->
  metatables s !! LuaMetatables_name PromiseMt = Some m ->
  exists s1,
    pushPromise this v s = (s1, Ok tt) /\
    stacks s1 = <[address t := LUserData (fresh_handle (objects s)) :: stk]> (stacks s) /\
    objects s1 = <[fresh_handle (objects s) :=
                     VUserData (fresh_handle (refs s)) (Some m)]> (objects s) /\
    refs s1 = <[fresh_handle (refs s) := v]> (refs s) /\
    heap s1 = heap s /\ metatables s1 = metatables s /\
    fn_table s1 = fn_table s /\ registry s1 = registry s /\ globals s1 = globals s /\
    trace s1 = trace s.
Proof.
  intros Hthis Hstk Hmt. unfold pushPromise.
  userdata_steps Hmt. userdata_done.
Qed.

Lemma createAndPushFunctionReference_ok this t stk m pointer s :
  heap s !! this = Some (OThread t) ->
  stacks s !! address t = Some stk ->
  metatables s !! LuaMetatables_name FunctionReference = Some m ->
  exists s1,
    createAndPushFunctionReference this pointer s = (s1, Ok tt) /\
    stacks s1 = <[address t := LUserData (fresh_handle (objects s)) :: stk]> (stacks s) /\
    objects s1 = <[fresh_handle (objects s) := VUserData pointer (Some m)]> (objects s) /\
    refs s1 = refs s /\
    heap s1 = heap s /\ metatables s1 = metatables s /\
    fn_table s1 = fn_table s /\ registry s1 = registry s /\ globals s1 = globals s /\
    trace s1 = trace s.
Proof.
  intros Hthis Hstk Hmt. unfold createAndPushFunctionReference.
  userdata_steps Hmt. userdata_done.
Qed.

(** Reading a userdata whose metatable is the one registered for host
    references or for promises gives the value its handle refers to. *)
Lemma getValue_reference fuel this t stk p handle m tname options s :
  heap s !! this = Some (OThread t) ->
  stacks s !! address t = Some (LUserData p :: stk) ->
  objects s !! p = Some (VUserData handle (Some m)) ->
  p <> 0 ->
  tname = JsReference \/ tname = PromiseMt ->
  metatables s !! LuaMetatables_name tname = Some m ->
  getValue (S fuel) this (-1) None options s
    = (s, Ok (default HUndefined (refs s !! handle), default ∅ (get_done options))).
Proof.
  intros Hthis Hstk Hp Hp0 Htname Hmt. cbn [getValue].
  change (-1 =? 0) with false. cbn iota. msteps.
  rewrite (bind_ok _ _ _ _ _ (lua_type_slot _ _ (-1) (LUserData p) _ Hstk eq_refl)).
  cbn [type_of_value]. cbn iota.
  assert (forall a, a <> 0 -> a = p ->
    (let* referencePointer := module_getValue a in
     let* v := getRef referencePointer in ret (v, default ∅ (get_done options))) s
    = (s, Ok (default HUndefined (refs s !! handle), default ∅ (get_done options))))
    as Hread.
  { intros a _ ->. unfold module_getValue, getRef. msteps. reflexivity. }
  unfold luaL_testudata at 1. msteps.
  change (slot (LUserData p :: stk) (-1)) with (Some (LUserData p)). cbn iota.
  rewrite Hp.
  destruct Htname as [-> | ->].
  - rewrite Hmt. destruct (decide (m = m)) as [_|?]; [|congruence]. msteps.
    rewrite (proj2 (Z.eqb_neq p 0) Hp0). cbn [negb]. apply Hread; [exact Hp0|reflexivity].
  - destruct (metatables s !! LuaMetatables_name JsReference) as [m'|] eqn:Hjs.
    + destruct (decide (m = m')) as [_|Hne]; msteps.
      * rewrite (proj2 (Z.eqb_neq p 0) Hp0). cbn [negb].
        apply Hread; [exact Hp0|reflexivity].
      * change (0 =? 0) with true. cbn [negb].
        unfold luaL_testudata. msteps.
        change (slot (LUserData p :: stk) (-1)) with (Some (LUserData p)). cbn iota.
        rewrite Hp, Hmt. destruct (decide (m = m)) as [_|?]; [|congruence]. msteps.
        rewrite (proj2 (Z.eqb_neq p 0) Hp0). cbn [negb].
        apply Hread; [exact Hp0|reflexivity].
    + msteps. change (0 =? 0) with true. cbn [negb].
      unfold luaL_testudata. msteps.
      change (slot (LUserData p :: stk) (-1)) with (Some (LUserData p)). cbn iota.
      rewrite Hp, Hmt. destruct (decide (m = m)) as [_|?]; [|congruence]. msteps.
      rewrite (proj2 (Z.eqb_neq p 0) Hp0). cbn [negb].
      apply Hread; [exact Hp0|reflexivity].
Qed.

(** A host value pushed with [{ reference: true }] is read back as the very
    same value, whatever it is: the guest holds a userdata with the
    reference metatable, not a copy. *)
Theorem reference_roundtrip fuel fuel' this t stk m v aw rw s
    (Hthis : heap s !! this = Some (OThread t))
    (Hstk : stacks s !! address t = Some stk)
    (Hmt : metatables s !! LuaMetatables_name JsReference = Some m) :
  exists s1,
    pushValue (S fuel) this v (mkPushOptions None true aw rw) s = (s1, Ok None) /\
    stacks s1 !! address t = Some (LUserData (fresh_handle (objects s)) :: stk) /\
    heap s1 = heap s /\
    getValue (S fuel') this (-1) None no_get_options s1 = (s1, Ok (v, ∅)).
Proof.
  destruct (createAndPushJsReference_ok this t stk m v s Hthis Hstk Hmt)
    as (s1 & Hpush & Hs & Ho & Hr & Hh & Hm & _).
  exists s1. split; [|split; [|split]].
  - cbn [pushValue]. msteps.
    destruct (getValueDecorations (heap s) v) as [target decorations].
    cbn [_done reference done_lookup]. rewrite (bind_ok _ _ _ _ _ Hpush). reflexivity.
  - rewrite Hs. apply lookup_insert_eq.
  - exact Hh.
  - rewrite (getValue_reference fuel' this t stk (fresh_handle (objects s))
               (fresh_handle (refs s)) m JsReference no_get_options s1).
    + rewrite Hr, lookup_insert_eq. reflexivity.
    + rewrite Hh. exact Hthis.
    + rewrite Hs. apply lookup_insert_eq.
    + rewrite Ho. apply lookup_insert_eq.
    + apply fresh_handle_nonzero.
    + left. reflexivity.
    + rewrite Hm. exact Hmt.
Qed.

Lemma reference_roundtrip_witness :
  exists s1,
    pushValue 1 1 (HSymbol "tag") (mkPushOptions None true false false) example_root
      = (s1, Ok None) /\
    getValue 1 1 (-1) None no_get_options s1 = (s1, Ok (HSymbol "tag", ∅)).
Proof.
  destruct (reference_roundtrip 0 0 1 example_root_fields [] 3 (HSymbol "tag")
              false false example_root) as (s1 & Hpush & _ & _ & Hget).
  - vm_compute. reflexivity.
  - vm_compute. reflexivity.
  - vm_compute. reflexivity.
  - exists s1. split; assumption.
Defined.

(** A promise is pushed as a userdata with the promise metatable and is read
    back as the same promise object. *)
Theorem promise_roundtrip fuel fuel' this t stk m o kind aw rw s
    (Hthis : heap s !! this = Some (OThread t))
    (Hstk : stacks s !! address t = Some stk)
    (Hmt : metatables s !! LuaMetatables_name PromiseMt = Some m)
    (Hpromise : heap s !! o = Some (OPromise kind)) :
  exists s1,
    pushValue (S fuel) this (HObject o) (mkPushOptions None false aw rw) s
      = (s1, Ok None) /\
    stacks s1 !! address t = Some (LUserData (fresh_handle (objects s)) :: stk) /\
    heap s1 = heap s /\
    getValue (S fuel') this (-1) None no_get_options s1 = (s1, Ok (HObject o, ∅)).
Proof.
  destruct (pushPromise_ok this t stk m (HObject o) s Hthis Hstk Hmt)
    as (s1 & Hpush & Hs & Ho & Hr & Hh & Hm & _).
  exists s1. split; [|split; [|split]].
  - cbn [pushValue]. msteps. unfold getValueDecorations. rewrite Hpromise.
    cbn [_done reference done_lookup]. rewrite Hpromise.
    rewrite (bind_ok _ _ _ _ _ Hpush). reflexivity.
  - rewrite Hs. apply lookup_insert_eq.
  - exact Hh.
  - rewrite (getValue_reference fuel' this t stk (fresh_handle (objects s))
               (fresh_handle (refs s)) m PromiseMt no_get_options s1).
    + rewrite Hr, lookup_insert_eq. reflexivity.
    + rewrite Hh. exact Hthis.
    + rewrite Hs. apply lookup_insert_eq.
    + rewrite Ho. apply lookup_insert_eq.
    + apply fresh_handle_nonzero.
    + right. reflexivity.
    + rewrite Hm. exact Hmt.
Qed.

Lemma promise_roundtrip_witness :
  exists s1,
    pushValue 1 1 (HObject 30) no_options example_rejecting = (s1, Ok None) /\
    getValue 1 1 (-1) None no_get_options s1 = (s1, Ok (HObject 30, ∅)).
Proof.
  assert (exists kind stk m,
            heap example_rejecting !! 30 = Some (OPromise kind) /\
            stacks example_rejecting !! 1 = Some stk /\
            metatables example_rejecting !! LuaMetatables_name PromiseMt = Some m)
    as (kind & stk & m & Hp & Hs & Hm).
  { vm_compute. eexists _, _, _. repeat split. }
  destruct (promise_roundtrip 0 0 1 example_root_fields stk m 30 kind false false
              example_rejecting) as (s1 & Hpush & _ & _ & Hget).
  - vm_compute. reflexivity.
  - exact Hs.
  - exact Hm.
  - exact Hp.
  - exists s1. split; assumption.
Defined.

(** ** Pushing while a metatable is missing *)

Ltac missing_steps Hmt :=
  unfold lua_newuserdatauv, module_setValue, luaL_getmetatable, lua_setmetatable,
    set_metatable_of, push, put_stack, unref;
  msteps; rewrite ?bind_ref; msteps; rewrite ?bind_new_object; msteps;
  simpl in Hmt; simpl; rewrite Hmt; msteps;
  destruct (decide (TNil = TNil)) as [_|?]; [|congruence]; msteps.

Lemma pop_two this t a b stk s :
  heap s !! this = Some (OThread t) ->
  stacks s !! address t = Some (a :: b :: stk) ->
  pop this 2 s = (set_stacks <[address t := stk]> s, Ok tt).
Proof.
  intros Hthis Hstk. unfold pop, lua_pop, put_stack. msteps.
  assert (((0 <=? 2) && (2 <=? Z.of_nat (length (a :: b :: stk)))) = true) as ->.
  { apply andb_true_intro. split; [reflexivity|]. apply Z.leb_le. simpl length. lia. }
  reflexivity.
Qed.

Lemma createAndPushJsReference_missing this t stk v s :
  heap s !! this = Some (OThread t) ->
  stacks s !! address t = Some stk ->
  metatables s !! LuaMetatables_name JsReference = None ->
  exists s1,
    createAndPushJsReference this v s
      = (s1, Fail (Throw (MetatableNotFound FunctionReference))) /\
    stacks s1 = <[address t := stk]> (stacks s) /\ refs s1 = refs s /\
    heap s1 = heap s /\ fn_table s1 = fn_table s.
Proof.
  intros Hthis Hstk Hmt. unfold createAndPushJsReference.
  missing_steps Hmt.
  erewrite bind_ok; [|eapply pop_two; [exact Hthis|simpl; apply lookup_insert_eq]].
  eexists. split; [reflexivity|]. simpl. rewrite !insert_insert_eq.
  repeat split. apply delete_insert_id, fresh_handle_fresh.
Qed.

Lemma pushPromise_missing this t stk v s :
  heap s !! this = Some (OThread t) ->
  stacks s !! address t = Some stk ->
  metatables s !! LuaMetatables_name PromiseMt = None ->
  exists s1,
    pushPromise this v s = (s1, Fail (Throw (MetatableNotFound PromiseMt))) /\
    stacks s1 = <[address t := stk]> (stacks s) /\ refs s1 = refs s /\
    heap s1 = heap s /\ fn_table s1 = fn_table s.
Proof.
  intros Hthis Hstk Hmt. unfold pushPromise.
  missing_steps Hmt.
  erewrite bind_ok; [|eapply pop_two; [exact Hthis|simpl; apply lookup_insert_eq]].
  eexists. split; [reflexivity|]. simpl. rewrite !insert_insert_eq.
  repeat split. apply delete_insert_id, fresh_handle_fresh.
Qed.

Lemma createAndPushFunctionReference_missing this t stk pointer s :
  heap s !! this = Some (OThread t) ->
  stacks s !! address t = Some stk ->
  metatables s !! LuaMetatables_name FunctionReference = None ->
  exists s1,
    createAndPushFunctionReference this pointer s
      = (s1, Fail (Throw (MetatableNotFound FunctionReference))) /\
    stacks s1 = <[address t := stk]> (stacks s) /\ refs s1 = refs s /\
    heap s1 = heap s /\ fn_table s1 = fn_table s.
Proof.
  intros Hthis Hstk Hmt. unfold createAndPushFunctionReference.
  missing_steps Hmt.
  erewrite bind_ok; [|eapply pop_two; [exact Hthis|simpl; apply lookup_insert_eq]].
  eexists. split; [reflexivity|]. simpl. rewrite !insert_insert_eq.
  repeat split.
Qed.

(** When the metatable a push needs is not registered, [pushValue] throws
    and takes the userdata it had pushed off the stack again.  A reference
    or promise handle is released; the error for a host reference names the
    function-reference metatable; and a host function stays in the function
    table although nothing in the guest refers to it. *)
Theorem pushValue_metatable_missing fuel this t stk s
    (Hthis : heap s !! this = Some (OThread t))
    (Hstk : stacks s !! address t = Some stk) :
  (forall v aw rw,
      metatables s !! LuaMetatables_name JsReference = None ->
      exists s1,
        pushValue (S fuel) this v (mkPushOptions None true aw rw) s
          = (s1, Fail (Throw (MetatableNotFound FunctionReference))) /\
        stacks s1 !! address t = Some stk /\ refs s1 = refs s /\
        fn_table s1 = fn_table s) /\
  (forall o kind aw rw,
      heap s !! o = Some (OPromise kind) ->
      metatables s !! LuaMetatables_name PromiseMt = None ->
      exists s1,
        pushValue (S fuel) this (HObject o) (mkPushOptions None false aw rw) s
          = (s1, Fail (Throw (MetatableNotFound PromiseMt))) /\
        stacks s1 !! address t = Some stk /\ refs s1 = refs s /\
        fn_table s1 = fn_table s) /\
  (forall f aw rw,
      metatables s !! LuaMetatables_name FunctionReference = None ->
      exists s1,
        pushValue (S fuel) this (HFunction f) (mkPushOptions None false aw rw) s
          = (s1, Fail (Throw (MetatableNotFound FunctionReference))) /\
        stacks s1 !! address t = Some stk /\ refs s1 = refs s /\
        fn_table s1 = <[fresh_handle (fn_table s) :=
                          NHostFunction this (HFunction f) None
                                        (mkCallbackOptions rw aw)]> (fn_table s)).
Proof.
  split; [|split].
  - intros v aw rw Hmt.
    destruct (createAndPushJsReference_missing this t stk v s Hthis Hstk Hmt)
      as (s1 & Hpush & Hs & Hr & _ & Hf).
    exists s1. split; [|split; [|split]]; [|rewrite Hs; apply lookup_insert_eq|exact Hr|exact Hf].
    cbn [pushValue]. msteps.
    destruct (getValueDecorations (heap s) v) as [target decorations].
    cbn [_done reference done_lookup]. rewrite (bind_fail _ _ _ _ _ Hpush). reflexivity.
  - intros o kind aw rw Hpromise Hmt.
    destruct (pushPromise_missing this t stk (HObject o) s Hthis Hstk Hmt)
      as (s1 & Hpush & Hs & Hr & _ & Hf).
    exists s1. split; [|split; [|split]]; [|rewrite Hs; apply lookup_insert_eq|exact Hr|exact Hf].
    cbn [pushValue]. msteps. unfold getValueDecorations. rewrite Hpromise.
    cbn [_done reference done_lookup]. rewrite Hpromise.
    rewrite (bind_fail _ _ _ _ _ Hpush). reflexivity.
  - intros f aw rw Hmt.
    set (s0 := emit (EAddFunction (fresh_handle (fn_table s)))
                 (set_fn_table <[fresh_handle (fn_table s) :=
                    NHostFunction this (HFunction f) None (mkCallbackOptions rw aw)]> s)).
    destruct (createAndPushFunctionReference_missing this t stk
                (fresh_handle (fn_table s)) s0 Hthis Hstk Hmt)
      as (s1 & Hpush & Hs & Hr & _ & Hf).
    exists s1. split; [|split; [|split]]; [|rewrite Hs; apply lookup_insert_eq|exact Hr|exact Hf].
    cbn [pushValue]. msteps.
    cbn [getValueDecorations _done reference done_lookup raw await].
    rewrite bind_addFunction. fold s0.
    rewrite (bind_fail _ _ _ _ _ Hpush). reflexivity.
Qed.

Lemma pushValue_metatable_missing_witness :
  let s := set_metatables (fun _ => ∅) example_rejecting in
  (exists s1,
     pushValue 1 1 (HString "x") (mkPushOptions None true false false) s
       = (s1, Fail (Throw (MetatableNotFound FunctionReference))) /\
     stacks s1 !! 1 = Some []) /\
  (exists s1,
     pushValue 1 1 (HObject 30) no_options s
       = (s1, Fail (Throw (MetatableNotFound PromiseMt))) /\
     stacks s1 !! 1 = Some []) /\
  (exists s1,
     pushValue 1 1 (HFunction 31) no_options s
       = (s1, Fail (Throw (MetatableNotFound FunctionReference))) /\
     stacks s1 !! 1 = Some [] /\
     is_Some (fn_table s1 !! fresh_handle (fn_table s))).
Proof.
  intros s.
  destruct (pushValue_metatable_missing 0 1 example_root_fields [] s)
    as (Href & Hpromise & Hfunction).
  - vm_compute. reflexivity.
  - vm_compute. reflexivity.
  - split; [|split].
    + destruct (Href (HString "x") false false) as (s1 & H1 & H2 & _);
        [vm_compute; reflexivity|eauto].
    + destruct (Hpromise 30 (Settles (Rejected (HString "boom"))) false false)
        as (s1 & H1 & H2 & _); [vm_compute; reflexivity..|eauto].
    + destruct (Hfunction 31 false false) as (s1 & H1 & H2 & _ & H4);
        [vm_compute; reflexivity|].
      exists s1. split; [exact H1|]. split; [exact H2|].
      rewrite H4, lookup_insert_eq. eauto.
Defined.

(** ** Host functions and references: registration and finalizer *)

Lemma pushValue_function_ok fuel this t stk m f aw rw s :
  heap s !! this = Some (OThread t) ->
  stacks s !! address t = Some stk ->
  metatables s !! LuaMetatables_name FunctionReference = Some m ->
  let q := fresh_handle (fn_table s) in
  let p := fresh_handle (objects s) in
  let c := fresh_handle (<[p := VUserData q (Some m)]> (objects s)) in
  exists s2,
    pushValue (S fuel) this (HFunction f) (mkPushOptions None false aw rw) s
      = (s2, Ok None) /\
    stacks s2 = <[address t := LFunction c :: stk]> (stacks s) /\
    objects s2 = <[c := VCClosure q [LUserData p]]>
                   (<[p := VUserData q (Some m)]> (objects s)) /\
    fn_table s2 = <[q := NHostFunction this (HFunction f) None
                           (mkCallbackOptions rw aw)]> (fn_table s) /\
    heap s2 = heap s /\ metatables s2 = metatables s /\ refs s2 = refs s.
Proof.
  intros Hthis Hstk Hmt q p c.
  set (s0 := emit (EAddFunction q)
               (set_fn_table <[q := NHostFunction this (HFunction f) None
                                      (mkCallbackOptions rw aw)]> s)).
  destruct (createAndPushFunctionReference_ok this t stk m q s0 Hthis Hstk Hmt)
    as (s1 & Hpush & Hs & Ho & Hr & Hh & Hm & Hf & _).
  cbn [pushValue]. msteps.
  cbn [getValueDecorations _done reference done_lookup raw await].
  rewrite bind_addFunction. fold q. fold s0.
  rewrite (bind_ok _ _ _ _ _ Hpush).
  unfold lua_pushcclosure, put_stack.
  assert (stacks s1 !! address t = Some (LUserData p :: stk)) as Hstk1
    by (rewrite Hs; apply lookup_insert_eq).
  msteps. simpl length.
  assert (((0 <=? 1) && (1 <=? Z.of_nat (S (length stk)))) = true) as ->.
  { apply andb_true_intro. split; [reflexivity|]. apply Z.leb_le. lia. }
  rewrite bind_bind, bind_new_object. msteps.
  change (take (Z.to_nat 1) (LUserData p :: stk)) with [LUserData p].
  change (drop (Z.to_nat 1) (LUserData p :: stk)) with stk.
  eexists. split; [reflexivity|]. simpl.
  rewrite Hs, Ho, Hf, Hh, Hm, Hr. simpl. rewrite insert_insert_eq.
  repeat split.
Qed.

(** A pushed host function is one new entry of the function table, held by
    a userdata that the new closure keeps as its upvalue; when the VM
    finalizes that userdata, the entry is removed and the function table is
    what it was before the push. *)
Theorem function_finalized fuel this t stk m entries mt g fn ups f aw rw s
    (Hthis : heap s !! this = Some (OThread t))
    (Hstk : stacks s !! address t = Some stk)
    (Hmt : metatables s !! LuaMetatables_name FunctionReference = Some m)
    (Hm : objects s !! m = Some (VTable entries mt))
    (Hgc : table_get entries (LString "__gc") = LFunction g)
    (Hg : objects s !! g = Some (VCClosure fn ups))
    (Hfn : fn_table s !! fn = Some NFunctionGc) :
  let q := fresh_handle (fn_table s) in
  let p := fresh_handle (objects s) in
  exists s2 s3 c,
    pushValue (S fuel) this (HFunction f) (mkPushOptions None false aw rw) s
      = (s2, Ok None) /\
    stacks s2 !! address t = Some (LFunction c :: stk) /\
    objects s2 !! c = Some (VCClosure q [LUserData p]) /\
    objects s2 !! p = Some (VUserData q (Some m)) /\
    fn_table s !! q = None /\
    fn_table s2 !! q = Some (NHostFunction this (HFunction f) None
                                           (mkCallbackOptions rw aw)) /\
    finalize (address t) (p, VUserData q (Some m)) s2 = (s3, Ok tt) /\
    fn_table s3 = fn_table s.
Proof.
  intros q p.
  destruct (pushValue_function_ok fuel this t stk m f aw rw s Hthis Hstk Hmt)
    as (s2 & Hpush & Hs & Ho & Hf & Hh & Hmts & Hr).
  fold q p in Hs, Ho, Hf.
  set (c := fresh_handle (<[p := VUserData q (Some m)]> (objects s))) in *.
  assert (c <> p) as Hcp.
  { intros Heq. pose proof (fresh_handle_fresh (<[p := VUserData q (Some m)]> (objects s))) as Hc.
    fold c in Hc. rewrite Heq, lookup_insert_eq in Hc. discriminate. }
  assert (forall x o, objects s !! x = Some o -> objects s2 !! x = Some o) as Hkeep.
  { intros x o Hx. rewrite Ho.
    assert (x <> p) by (intros ->; unfold p in Hx; rewrite fresh_handle_fresh in Hx;
                        discriminate).
    assert (x <> c).
    { intros ->. pose proof (fresh_handle_fresh (<[p := VUserData q (Some m)]> (objects s)))
        as Hc. fold c in Hc. rewrite lookup_insert_ne in Hc by congruence. congruence. }
    rewrite !lookup_insert_ne by congruence. exact Hx. }
  assert (objects s2 !! p = Some (VUserData q (Some m))) as Hp.
  { rewrite Ho, lookup_insert_ne by congruence. apply lookup_insert_eq. }
  assert (fn <> q) as Hfq.
  { intros ->. unfold q in Hfn. rewrite fresh_handle_fresh in Hfn. discriminate. }
  exists s2. eexists. exists c.
  split; [exact Hpush|].
  split; [rewrite Hs; apply lookup_insert_eq|].
  split; [rewrite Ho; apply lookup_insert_eq|].
  split; [exact Hp|].
  split; [apply fresh_handle_fresh|].
  split; [rewrite Hf; apply lookup_insert_eq|].
  unfold finalize, finalizer_of. cbn [snd fst].
  rewrite (Hkeep m _ Hm), Hgc, (Hkeep g _ Hg), Hf, lookup_insert_ne, Hfn by congruence.
  split; [reflexivity|].
  unfold functionGc, luaL_checkudata, luaL_testudata, put_stack, module_getValue,
    removeFunction.
  msteps. change (slot [LUserData p] 1) with (Some (LUserData p)). cbn iota.
  simpl objects. simpl metatables. rewrite Hp, Hmts.
  simpl in Hmt. simpl. rewrite Hmt.
  destruct (decide (m = m)) as [_|?]; [|congruence]. msteps.
  rewrite (proj2 (Z.eqb_neq p 0) (fresh_handle_nonzero _)). msteps.
  simpl.
  rewrite Hf. apply delete_insert_id, fresh_handle_fresh.
Qed.

Lemma function_finalized_witness :
  exists s2 s3 c,
    pushValue 1 1 (HFunction 31) no_options example_rejecting = (s2, Ok None) /\
    stacks s2 !! 1 = Some [LFunction c] /\
    finalize 1 (fresh_handle (objects example_rejecting),
                VUserData (fresh_handle (fn_table example_rejecting)) (Some 1)) s2
      = (s3, Ok tt) /\
    fn_table s3 = fn_table example_rejecting.
Proof.
  destruct (function_finalized 0 1 example_root_fields [] 1
              [(LString "__name", LString "function_reference");
               (LString "__gc", LFunction 2);
               (LString "__metatable", LString "protected metatable")]
              None 2 2 [] 31 false false example_rejecting)
    as (s2 & s3 & c & H1 & H2 & _ & _ & _ & _ & H7 & H8).
  - vm_compute. reflexivity.
  - vm_compute. reflexivity.
  - vm_compute. reflexivity.
  - vm_compute. reflexivity.
  - vm_compute. reflexivity.
  - vm_compute. reflexivity.
  - vm_compute. reflexivity.
  - exists s2, s3, c. repeat split; assumption.
Defined.

Lemma finalize_release this t stk m entries mt g fn ups tname v s s1
    (gc : NativeCallable) :
  heap s !! this = Some (OThread t) ->
  metatables s !! LuaMetatables_name tname = Some m ->
  objects s !! m = Some (VTable entries mt) ->
  table_get entries (LString "__gc") = LFunction g ->
  objects s !! g = Some (VCClosure fn ups) ->
  fn_table s !! fn = Some gc ->
  (gc = NJsRefGc /\ tname = JsReference \/ gc = NPromiseGc /\ tname = PromiseMt) ->
  stacks s1 = <[address t := LUserData (fresh_handle (objects s)) :: stk]> (stacks s) ->
  objects s1 = <[fresh_handle (objects s) :=
                   VUserData (fresh_handle (refs s)) (Some m)]> (objects s) ->
  refs s1 = <[fresh_handle (refs s) := v]> (refs s) ->
  metatables s1 = metatables s ->
  fn_table s1 = fn_table s ->
  exists s2,
    finalize (address t)
      (fresh_handle (objects s), VUserData (fresh_handle (refs s)) (Some m)) s1
      = (s2, Ok tt) /\
    refs s2 = refs s.
Proof.
  intros Hthis Hmt Hm Hgc Hg Hfn Hkind Hs Ho Hr Hmts Hf.
  set (p := fresh_handle (objects s)) in *.
  set (h := fresh_handle (refs s)) in *.
  assert (forall x o, objects s !! x = Some o -> objects s1 !! x = Some o) as Hkeep.
  { intros x o Hx. rewrite Ho.
    assert (x <> p) by (intros ->; unfold p in Hx; rewrite fresh_handle_fresh in Hx;
                        discriminate).
    rewrite lookup_insert_ne by congruence. exact Hx. }
  assert (objects s1 !! p = Some (VUserData h (Some m))) as Hp
    by (rewrite Ho; apply lookup_insert_eq).
  destruct Hkind as [[-> ->]|[-> ->]]; eexists; unfold finalize, finalizer_of;
    cbn [snd fst]; rewrite (Hkeep m _ Hm), Hgc, (Hkeep g _ Hg), Hf, Hfn;
    (split; [reflexivity|]);
    unfold jsRefGc, promiseGc, luaL_checkudata, luaL_testudata, put_stack,
      module_getValue, unref;
    msteps; change (slot [LUserData p] 1) with (Some (LUserData p)); cbn iota;
    simpl objects; simpl metatables; rewrite Hp, Hmts;
    simpl in Hmt; simpl; rewrite Hmt;
    (destruct (decide (m = m)) as [_|?]; [|congruence]); msteps;
    rewrite (proj2 (Z.eqb_neq p 0) (fresh_handle_nonzero _)); msteps;
    simpl; rewrite Hr; apply delete_insert_id, fresh_handle_fresh.
Qed.

(** The handle of a host reference or of a promise lives as long as its
    userdata: pushing takes one new handle of the reference table, and when
    the VM finalizes the userdata the handle is released and the table is
    what it was before the push. *)
Theorem reference_finalized fuel this t stk m entries mt g fn ups s
    (Hthis : heap s !! this = Some (OThread t))
    (Hstk : stacks s !! address t = Some stk)
    (Hm : objects s !! m = Some (VTable entries mt))
    (Hgc : table_get entries (LString "__gc") = LFunction g)
    (Hg : objects s !! g = Some (VCClosure fn ups)) :
  let p := fresh_handle (objects s) in
  let h := fresh_handle (refs s) in
  (forall v aw rw,
      metatables s !! LuaMetatables_name JsReference = Some m ->
      fn_table s !! fn = Some NJsRefGc ->
      exists s1 s2,
        pushValue (S fuel) this v (mkPushOptions None true aw rw) s = (s1, Ok None) /\
        refs s !! h = None /\ refs s1 !! h = Some v /\
        objects s1 !! p = Some (VUserData h (Some m)) /\
        finalize (address t) (p, VUserData h (Some m)) s1 = (s2, Ok tt) /\
        refs s2 = refs s) /\
  (forall o kind aw rw,
      heap s !! o = Some (OPromise kind) ->
      metatables s !! LuaMetatables_name PromiseMt = Some m ->
      fn_table s !! fn = Some NPromiseGc ->
      exists s1 s2,
        pushValue (S fuel) this (HObject o) (mkPushOptions None false aw rw) s
          = (s1, Ok None) /\
        refs s !! h = None /\ refs s1 !! h = Some (HObject o) /\
        objects s1 !! p = Some (VUserData h (Some m)) /\
        finalize (address t) (p, VUserData h (Some m)) s1 = (s2, Ok tt) /\
        refs s2 = refs s).
Proof.
  intros p h. split.
  - intros v aw rw Hmt Hfn.
    destruct (createAndPushJsReference_ok this t stk m v s Hthis Hstk Hmt)
      as (s1 & Hpush & Hs & Ho & Hr & Hh & Hmts & Hf & _).
    destruct (finalize_release this t stk m entries mt g fn ups JsReference v s s1
                NJsRefGc Hthis Hmt Hm Hgc Hg Hfn ltac:(left; split; reflexivity)
                Hs Ho Hr Hmts Hf) as (s2 & Hfin & Hrefs).
    exists s1, s2. split; [|split; [|split; [|split; [|split]]]].
    + cbn [pushValue]. msteps.
      destruct (getValueDecorations (heap s) v) as [target decorations].
      cbn [_done reference done_lookup]. rewrite (bind_ok _ _ _ _ _ Hpush). reflexivity.
    + apply fresh_handle_fresh.
    + rewrite Hr. apply lookup_insert_eq.
    + rewrite Ho. apply lookup_insert_eq.
    + exact Hfin.
    + exact Hrefs.
  - intros o kind aw rw Hpromise Hmt Hfn.
    destruct (pushPromise_ok this t stk m (HObject o) s Hthis Hstk Hmt)
      as (s1 & Hpush & Hs & Ho & Hr & Hh & Hmts & Hf & _).
    destruct (finalize_release this t stk m entries mt g fn ups PromiseMt (HObject o) s s1
                NPromiseGc Hthis Hmt Hm Hgc Hg Hfn ltac:(right; split; reflexivity)
                Hs Ho Hr Hmts Hf) as (s2 & Hfin & Hrefs).
    exists s1, s2. split; [|split; [|split; [|split; [|split]]]].
    + cbn [pushValue]. msteps. unfold getValueDecorations. rewrite Hpromise.
      cbn [_done reference done_lookup]. rewrite Hpromise.
      rewrite (bind_ok _ _ _ _ _ Hpush). reflexivity.
    + apply fresh_handle_fresh.
    + rewrite Hr. apply lookup_insert_eq.
    + rewrite Ho. apply lookup_insert_eq.
    + exact Hfin.
    + exact Hrefs.
Qed.

Lemma reference_finalized_witness :
  exists s1 s2,
    pushValue 1 1 (HObject 31) (mkPushOptions None true false false) example_rejecting
      = (s1, Ok None) /\
    refs s1 !! fresh_handle (refs example_rejecting) = Some (HObject 31) /\
    finalize 1 (fresh_handle (objects example_rejecting),
                VUserData (fresh_handle (refs example_rejecting)) (Some 3)) s1
      = (s2, Ok tt) /\
    refs s2 = refs example_rejecting.
Proof.
  destruct (reference_finalized 0 1 example_root_fields [] 3
              [(LString "__name", LString "js_reference");
               (LString "__gc", LFunction 4);
               (LString "__metatable", LString "protected metatable")]
              None 4 3 [] example_rejecting) as [Href _].
  - vm_compute. reflexivity.
  - vm_compute. reflexivity.
  - vm_compute. reflexivity.
  - vm_compute. reflexivity.
  - vm_compute. reflexivity.
  - destruct (Href (HObject 31) false false) as (s1 & s2 & H1 & _ & H3 & _ & H5 & H6).
    + vm_compute. reflexivity.
    + vm_compute. reflexivity.
    + exists s1, s2. repeat split; assumption.
Defined.

(** ** The allocator's usage counter under allocations and frees *)

Lemma serve_fresh_or_free realloc st r :
  fresh_block r \/ free_block r ->
  Allocator.memoryUsed st
    <= Allocator.memoryUsed (fst (fst (Allocator.serve realloc st r))).
Proof.
  intros [[Hp Hn]|[Hp Hn]]; destruct r as [p o n]; destruct st as [u [mx|]];
    simpl in Hp, Hn; subst; open_allocator; zcases; simpl; lia.
Qed.

(** A free request leaves the usage counter alone, so the counter only
    grows under a load of fresh allocations and frees; a block that is
    allocated and freed again leaves the counter higher by its size. *)
Theorem allocator_free_not_counted (realloc : Z -> Z -> Z) (st : Allocator.LuaMemoryStats) :
  (forall rs, Forall (fun r => fresh_block r \/ free_block r) rs ->
     Allocator.memoryUsed st <= Allocator.memoryUsed (Allocator.serve_all realloc st rs)) /\
  (forall n p,
     0 < n -> p <> 0 -> realloc 0 n = p ->
     (forall mx, Allocator.memoryMax st = Some mx ->
                 mx = 0 \/ Allocator.memoryUsed st + n <= mx) ->
     Allocator.serve_all realloc st
       [Allocator.mkRequest 0 0 n; Allocator.mkRequest p n 0]
     = Allocator.mkStats (Allocator.memoryUsed st + n) (Allocator.memoryMax st)).
Proof.
  split.
  - intros rs Hrs. revert st. induction Hrs as [|r rs Hr Hrs IH]; intros st; simpl; [lia|].
    pose proof (serve_fresh_or_free realloc st r Hr). etransitivity; [eassumption|].
    apply IH.
  - intros n p Hn Hp Hre Hmax. destruct st as [u [mx|]]; simpl in *.
    + destruct (Hmax mx eq_refl) as [->|Hle]; open_allocator; rewrite Hre;
        zcases; try lia; reflexivity.
    + open_allocator. rewrite Hre. zcases; try lia; reflexivity.
Qed.

Lemma allocator_free_not_counted_witness :
  Allocator.serve_all (fun _ _ => 4096) (Allocator.mkStats 10 (Some 100))
    [Allocator.mkRequest 0 0 16; Allocator.mkRequest 4096 16 0]
  = Allocator.mkStats 26 (Some 100).
Proof.
  destruct (allocator_free_not_counted (fun _ _ => 4096) (Allocator.mkStats 10 (Some 100)))
    as [_ H].
  apply (H 16 4096); [lia|lia|reflexivity|].
  intros mx [= <-]. right. simpl. lia.
Defined.

(** ** Contexts for a VM state: [stateToThread] *)

Lemma stateToThread_result this t L s
    (Hthis : heap s !! this = Some (OThread t))
    (Hparent : forall p, parent t = Some p -> exists pt, heap s !! p = Some (OThread pt)) :
  exists th fields s1,
    stateToThread this L s = (s1, Ok th) /\
    heap s1 !! th = Some (OThread fields) /\
    address fields = L /\
    heap s1 !! this = Some (OThread t) /\
    (s1 = s /\ parent t = Some th \/
     s1 = set_heap <[th := OThread (mkThread L false (Some this) None None)]> s /\
     heap s !! th = None /\
     fields = mkThread L false (Some this) None None).
Proof.
  unfold stateToThread. msteps.
  assert (exists th fields s1,
    new_host (OThread (mkThread L false (Some this) None None)) s = (s1, Ok th) /\
    heap s1 !! th = Some (OThread fields) /\ address fields = L /\
    heap s1 !! this = Some (OThread t) /\
    (s1 = s /\ parent t = Some th \/
     s1 = set_heap <[th := OThread (mkThread L false (Some this) None None)]> s /\
     heap s !! th = None /\
     fields = mkThread L false (Some this) None None)) as Hnew.
  { eexists _, _, _. split; [reflexivity|]. simpl.
    split; [apply lookup_insert_eq|]. split; [reflexivity|].
    split.
    - rewrite lookup_insert_ne; [exact Hthis|].
      intros Heq. rewrite <- Heq, fresh_handle_fresh in Hthis. discriminate.
    - right. split; [reflexivity|]. split; [apply fresh_handle_fresh|reflexivity]. }
  destruct (parent t) as [p|] eqn:Hp; [|exact Hnew].
  destruct (Hparent p eq_refl) as [pt Hpt]. msteps.
  destruct (Z.eqb_spec L (address pt)) as [->|_]; [|exact Hnew].
  exists p, pt, s. split; [reflexivity|]. split; [exact Hpt|]. split; [reflexivity|].
  split; [exact Hthis|]. left. split; reflexivity.
Qed.

(** [stateToThread(L)] answers with the parent itself, and changes nothing,
    when [this] has a parent and the parent wraps [L]; in every other case,
    also when [L] is the state of [this], it answers with a new open context
    that wraps [L] and has [this] as its parent, and nothing else changes. *)
Theorem stateToThread_wraps this t L s
    (Hthis : heap s !! this = Some (OThread t)) :
  (forall p pt,
      parent t = Some p -> heap s !! p = Some (OThread pt) -> address pt = L ->
      stateToThread this L s = (s, Ok p)) /\
  (parent t = None \/
   (exists p pt, parent t = Some p /\ heap s !! p = Some (OThread pt) /\ address pt <> L) ->
   stateToThread this L s
     = (set_heap <[fresh_handle (heap s) :=
                     OThread (mkThread L false (Some this) None None)]> s,
        Ok (fresh_handle (heap s))) /\
   heap s !! fresh_handle (heap s) = None).
Proof.
  split.
  - intros p pt Hp Hpt Haddr. unfold stateToThread. msteps. rewrite Hp. msteps.
    rewrite Haddr, Z.eqb_refl. reflexivity.
  - intros Hcase. split; [|apply fresh_handle_fresh].
    unfold stateToThread. msteps.
    destruct Hcase as [Hnone|(p & pt & Hp & Hpt & Hne)].
    + rewrite Hnone. reflexivity.
    + rewrite Hp. msteps.
      destruct (Z.eqb_spec L (address pt)) as [Heq|_]; [congruence|]. reflexivity.
Qed.

Lemma stateToThread_wraps_witness :
  stateToThread 7 1 example_child = (example_child, Ok 1) /\
  stateToThread 1 1 example_root
    = (set_heap <[fresh_handle (heap example_root) :=
                    OThread (mkThread 1 false (Some 1) None None)]> example_root,
       Ok (fresh_handle (heap example_root))).
Proof.
  split.
  - apply (proj1 (stateToThread_wraps 7 (mkThread 2 false (Some 1) None None) 1
                    example_child ltac:(vm_compute; reflexivity))
             1 example_root_fields).
    + reflexivity.
    + vm_compute. reflexivity.
    + reflexivity.
  - apply (proj2 (stateToThread_wraps 1 example_root_fields 1 example_root
                    ltac:(vm_compute; reflexivity))).
    left. reflexivity.
Defined.

(** ** The results and arguments of a host function *)

Lemma set_stacks_twice s L a b :
  set_stacks <[L := a]> (set_stacks <[L := b]> s) = set_stacks <[L := a]> s.
Proof.
  destruct s. unfold set_stacks. simpl. f_equal. apply insert_insert_eq.
Qed.

Lemma pushItems_primitive fuel this t items :
  Forall primitive items ->
  forall stk s,
    heap s !! this = Some (OThread t) ->
    stacks s !! address t = Some stk ->
    pushItems (S fuel) this items s
      = (set_stacks <[address t := reverse (pushed_as <$> items) ++ stk]> s, Ok tt).
Proof.
  induction 1 as [|item items Hitem Hitems IH]; intros stk s Hthis Hstk.
  - simpl. rewrite (put_stack_same s _ _ Hstk). reflexivity.
  - cbn [pushItems].
    rewrite (bind_ok _ _ _ _ _ (pushValue_primitive fuel this t stk item s Hthis Hstk Hitem)).
    rewrite (IH (pushed_as item :: stk)); [|exact Hthis|simpl; apply lookup_insert_eq].
    rewrite set_stacks_twice, fmap_cons, reverse_cons, <- app_assoc. reflexivity.
Qed.

(** What a host function returns decides what the guest receives:
    [undefined] gives no result and pushes nothing, a [MultiReturn] gives
    one result per item, pushed in order, and any other value, [null]
    included, gives one result. *)
Theorem pushResults_convention fuel thread t stk s
    (Hthis : heap s !! thread = Some (OThread t))
    (Hstk : stacks s !! address t = Some stk) :
  pushResults (S fuel) thread HUndefined s = (s, Ok (Integral 0)) /\
  (forall o items,
      heap s !! o = Some (OMultiReturn items) -> Forall primitive items ->
      pushResults (S fuel) thread (HObject o) s
        = (set_stacks <[address t := reverse (pushed_as <$> items) ++ stk]> s,
           Ok (Integral (Z.of_nat (length items))))) /\
  (forall v,
      primitive v -> v <> HUndefined ->
      pushResults (S fuel) thread v s
        = (set_stacks <[address t := pushed_as v :: stk]> s, Ok (Integral 1))).
Proof.
  split; [reflexivity|]. split.
  - intros o items Ho Hitems. unfold pushResults. msteps. rewrite Ho.
    rewrite (bind_ok _ _ _ _ _
               (pushItems_primitive fuel thread t items Hitems stk s Hthis Hstk)).
    reflexivity.
  - intros v Hv Hne. unfold pushResults. msteps.
    pose proof (pushValue_primitive fuel thread t stk v s Hthis Hstk Hv) as Hpush.
    destruct v; try contradiction; try congruence;
      rewrite (bind_ok _ _ _ _ _ Hpush); reflexivity.
Qed.

Lemma pushResults_convention_witness :
  let s := set_heap <[60 := OMultiReturn [HNumber (Integral 1); HNull; HString "c"]]>
             example_root in
  pushResults 1 1 (HObject 60) s
    = (set_stacks <[1 := [LString "c"; LNil; LInteger 1]]> s, Ok (Integral 3)).
Proof.
  intros s.
  destruct (pushResults_convention 0 1 example_root_fields [] s) as (_ & H & _).
  - vm_compute. reflexivity.
  - vm_compute. reflexivity.
  - apply (H 60 [HNumber (Integral 1); HNull; HString "c"]).
    + vm_compute. reflexivity.
    + repeat constructor.
Defined.

Lemma collectArgs_primitive fuel h thread t stk s :
  heap s !! thread = Some (OThread t) ->
  stacks s !! address t = Some stk ->
  forall n : nat,
    (n <= length stk)%nat ->
    Forall primitive_slot (take n stk) ->
    collectArgs (S fuel) h None thread (Z.of_nat (length stk) - Z.of_nat n + 1) n s
      = (s, Ok (read_as <$> reverse (take n stk))).
Proof.
  intros Hthis Hstk. induction n as [|n IH]; intros Hn Hprim.
  - rewrite take_0. reflexivity.
  - cbn [collectArgs].
    destruct (lookup_lt_is_Some_2 stk n ltac:(lia)) as [lv Hlv].
    rewrite (take_S_r _ _ _ Hlv) in Hprim |- *.
    apply Forall_app in Hprim as [Hprim Hlast].
    apply (proj1 (Forall_singleton _ _)) in Hlast.
    assert (slot stk (Z.of_nat (length stk) - Z.of_nat (S n) + 1) = Some lv) as Hslot.
    { rewrite slot_positive by lia. rewrite <- Hlv. f_equal. lia. }
    change (rawArguments_includes h None
              (Z.of_nat (length stk) - Z.of_nat (S n) + 1 - 1)) with false.
    rewrite (bind_ok _ _ _ _ _
               (getValue_primitive_slot fuel thread t stk
                  (Z.of_nat (length stk) - Z.of_nat (S n) + 1) lv None
                  (get_raw_options false) s Hthis Hstk ltac:(lia) I Hslot Hlast)).
    replace (Z.of_nat (length stk) - Z.of_nat (S n) + 1 + 1)
      with (Z.of_nat (length stk) - Z.of_nat n + 1) by lia.
    rewrite (bind_ok _ _ _ _ _ (IH ltac:(lia) Hprim)).
    rewrite reverse_snoc. reflexivity.
Qed.

Lemma pushResults_primitive_result fuel thread t stk result s :
  heap s !! thread = Some (OThread t) ->
  stacks s !! address t = Some stk ->
  primitive result ->
  exists s1,
    pushResults (S fuel) thread result s
      = (s1, Ok (Integral (match result with HUndefined => 0 | _ => 1 end))) /\
    stacks s1 !! address t
      = Some (match result with HUndefined => stk | _ => pushed_as result :: stk end) /\
    fn_table s1 = fn_table s /\ refs s1 = refs s /\ objects s1 = objects s.
Proof.
  intros Hthis Hstk Hprim. unfold pushResults. msteps.
  pose proof (pushValue_primitive fuel thread t stk result s Hthis Hstk Hprim) as Hpush.
  destruct result; try contradiction;
    first [ exists s; split; [reflexivity|]; split; [exact Hstk|]; repeat split
          | rewrite (bind_ok _ _ _ _ _ Hpush); eexists; split; [reflexivity|];
            split; [simpl; apply lookup_insert_eq|repeat split] ].
Qed.



(** With the raw option the host function receives a context that wraps the
    calling state as its first argument, before the slots of that state
    from the bottom up: its result is taken from the call with these
    arguments.  It must return a number, which is the result count as it is
    and pushes nothing; any other value that is not awaited is an error. *)
Theorem host_call_raw (W : World) fuel this t calledL stk target result aw s
    (Hthis : heap s !! this = Some (OThread t))
    (Hparent : forall p, parent t = Some p -> exists pt, heap s !! p = Some (OThread pt))
    (Hstk : stacks s !! calledL = Some stk)
    (Hargs : Forall primitive_slot stk)
    (Hpure : forall th fields s',
        heap s' !! th = Some (OThread fields) -> address fields = calledL ->
        apply W target (HObject th :: (read_as <$> reverse stk)) s' = (s', Ok result))
    (Hsync : forall s', is_promise (heap s') result = false \/ aw = false) :
  exists s1,
    hostFunctionCallback W (S fuel) this target None (mkCallbackOptions true aw)
                         calledL s
      = (s1, match result with
             | HNumber n => Ok n
             | _ => Fail (Throw MustReturnNumber)
             end) /\
    stacks s1 = stacks s /\ fn_table s1 = fn_table s.
Proof.
  destruct (stateToThread_result this t calledL s Hthis Hparent)
    as (th & fields & s0 & Hrun & Hth & Haddr & _ & Hcase).
  assert (stacks s0 = stacks s /\ fn_table s0 = fn_table s) as (Hs0 & Hf0).
  { destruct Hcase as [[-> _]|(-> & _)]; repeat split. }
  assert (stacks s0 !! address fields = Some stk) as Hstk0 by (rewrite Hs0, Haddr; exact Hstk).
  unfold hostFunctionCallback, lua_gettop. msteps.
  rewrite (bind_ok _ _ _ _ _ Hrun). msteps.
  pose proof (collectArgs_primitive fuel (heap s0) th fields stk s0 Hth Hstk0
                (length stk) ltac:(lia)) as Hcollect.
  rewrite firstn_all in Hcollect. specialize (Hcollect Hargs).
  replace (Z.of_nat (length stk) - Z.of_nat (length stk) + 1) with 1 in Hcollect by lia.
  rewrite Nat2Z.id. rewrite (bind_ok _ _ _ _ _ Hcollect).
  cbn [cb_raw cb_await app]. rewrite (bind_ok _ _ _ _ _ (Hpure th fields s0 Hth Haddr)).
  msteps.
  assert (negb (is_promise (heap s0) result) || negb aw = true) as ->.
  { destruct (Hsync s0) as [-> | ->]; [reflexivity|apply orb_true_r]. }
  exists s0. split; [|split; assumption].
  destruct result as [| |n| | | | | | |]; reflexivity.
Qed.

Lemma host_call_raw_witness :
  let s := set_stacks <[1 := [LInteger 2]]> example_root in
  (exists s1,
     hostFunctionCallback (host_world (HNumber (Integral 0))) 1 1 (HFunction 31) None
                          (mkCallbackOptions true false) 1 s = (s1, Ok (Integral 0)) /\
     stacks s1 = stacks s) /\
  (exists s1,
     hostFunctionCallback (host_world (HString "done")) 1 1 (HFunction 31) None
                          (mkCallbackOptions true false) 1 s
       = (s1, Fail (Throw MustReturnNumber))).
Proof.
  intros s. split.
  - destruct (host_call_raw (host_world (HNumber (Integral 0))) 0 1 example_root_fields 1
                [LInteger 2] (HFunction 31) (HNumber (Integral 0)) false s)
      as (s1 & Hrun & Hstk & _).
    + vm_compute. reflexivity.
    + intros p Hp. discriminate Hp.
    + vm_compute. reflexivity.
    + repeat constructor.
    + intros th fields s' _ _. reflexivity.
    + intros s'. left. reflexivity.
    + exists s1. split; [exact Hrun|exact Hstk].
  - destruct (host_call_raw (host_world (HString "done")) 0 1 example_root_fields 1
                [LInteger 2] (HFunction 31) (HString "done") false s)
      as (s1 & Hrun & _).
    + vm_compute. reflexivity.
    + intros p Hp. discriminate Hp.
    + vm_compute. reflexivity.
    + repeat constructor.
    + intros th fields s' _ _. reflexivity.
    + intros s'. left. reflexivity.
    + exists s1. exact Hrun.
Defined.

(** ** Resetting a context *)

(** [resetThread()] gives up the pending continuation only when the VM
    reports that the reset succeeded: then the continuation is removed from
    the function table and forgotten; when the reset fails, the error is
    thrown and the continuation stays registered. *)
Theorem resetThread_outcome (W : World) this t c stk r s s1
    (Hthis : heap s !! this = Some (OThread t))
    (Hcont : continuance t = Some c)
    (Hreset : lua_resetthread W (address t) s = (s1, r))
    (Hheap : heap s1 = heap s)
    (Hfns : fn_table s1 = fn_table s)
    (Hstk : stacks s1 !! address t = Some stk) :
  exists s2,
    resetThread W this s
      = (s2, if bool_decide (r = ROk \/ r = RYield) then Ok tt
             else Fail (Throw (LuaError r (error_message stk)))) /\
    if bool_decide (r = ROk \/ r = RYield)
    then heap s2 !! this = Some (OThread (set_continuance None t)) /\
         fn_table s2 = delete c (fn_table s)
    else heap s2 !! this = Some (OThread t) /\ fn_table s2 = fn_table s.
Proof.
  assert (heap s1 !! this = Some (OThread t)) as Hthis1 by (rewrite Hheap; exact Hthis).
  unfold resetThread. msteps. unfold lift, bind at 1. rewrite Hreset.
  case_bool_decide as Hr.
  - rewrite (bind_ok _ _ _ _ _ (assertOk_ok this r s1 Hr)). msteps. rewrite Hcont.
    unfold removeFunction, update_thread. msteps.
    eexists. split; [reflexivity|]. simpl. split; [apply lookup_insert_eq|].
    rewrite Hfns. reflexivity.
  - assert (r <> ROk) as H1 by (intros ->; apply Hr; auto).
    assert (r <> RYield) as H2 by (intros ->; apply Hr; auto).
    rewrite (bind_fail _ _ _ _ _ (assertOk_throws this t stk r s1 Hthis1 Hstk H1 H2)).
    eexists. split; [reflexivity|].
    destruct stk; simpl; split; assumption.
Qed.

Lemma resetThread_outcome_witness :
  let failing := mkWorld (fun _ _ s => (s, mkResume ROk 0)) (fun _ s => (s, RErrorRun))
                         (fun _ _ => ret HUndefined) in
  exists s2,
    resetThread failing 1 example_awaiting
      = (s2, Fail (Throw (LuaError RErrorRun None))) /\
    fn_table s2 = fn_table example_awaiting.
Proof.
  intros failing.
  assert (exists c, continuance (set_continuance (Some c) example_root_fields) = Some c /\
                    heap example_awaiting !! 1
                      = Some (OThread (set_continuance (Some c) example_root_fields)))
    as (c & Hc & Hh).
  { vm_compute. eexists. split; reflexivity. }
  destruct (resetThread_outcome failing 1 (set_continuance (Some c) example_root_fields)
              c [] RErrorRun example_awaiting example_awaiting)
    as (s2 & Hrun & Hrest).
  - exact Hh.
  - exact Hc.
  - reflexivity.
  - reflexivity.
  - reflexivity.
  - vm_compute. reflexivity.
  - exists s2. split; [exact Hrun|]. apply Hrest.
Defined.

(** ** Calling a global that is not a function *)

Lemma fresh_handle_ne {A} (m : gmap Z A) k x : m !! k = Some x -> k <> fresh_handle m.
Proof. intros Hk ->. rewrite fresh_handle_fresh in Hk. discriminate. Qed.

Lemma position_top v stk :
  position (v :: stk) (Z.of_nat (S (length stk))) = Some 0%nat.
Proof.
  unfold position.
  destruct (Z.ltb_spec 0 (Z.of_nat (S (length stk)))); [|lia].
  destruct (Z.leb_spec (Z.of_nat (S (length stk))) (Z.of_nat (length (v :: stk))));
    [|simpl length in *; lia].
  f_equal. simpl length. lia.
Qed.

(** [call(name, ...)] for a name that is not bound to a function throws
    without resuming anything; the coroutine it created is taken off the
    caller's stack again, which is as before, while the wrapper and the VM
    state of the coroutine, with the value of the global on its stack, are
    left behind.  The name is the one the VM sees, which ends at the first
    NUL. *)
Theorem call_not_a_function (W : World) fuel this t stk name args s
    (Hthis : heap s !! this = Some (OThread t))
    (Hstk : stacks s !! address t = Some stk)
    (Htype : type_of_value (default LNil (globals s !! c_string name)) <> TFunction) :
  let L1 := fresh_handle (stacks s) in
  exists s1,
    call W fuel this name args s
      = (s1, Fail (Throw (NotAFunction
                            (type_of_value (default LNil (globals s !! c_string name)))))) /\
    stacks s1 !! address t = Some stk /\
    stacks s1 !! L1 = Some [default LNil (globals s !! c_string name)] /\
    heap s1 = <[fresh_handle (heap s) :=
                  OThread (mkThread L1 false (Some this) None None)]> (heap s) /\
    trace s1 = trace s /\ fn_table s1 = fn_table s.
Proof.
  intros L1.
  assert (address t <> L1) as HL by (eapply fresh_handle_ne; exact Hstk).
  assert (this <> fresh_handle (heap s)) as Hth by (eapply fresh_handle_ne; exact Hthis).
  unfold call, newThread, lua_newthread, getTop, lua_gettop, push, put_stack.
  msteps. fold L1. clearbody L1. msteps. rewrite bind_new_host. msteps.
  change (heap (set_stacks <[address t:=LThread L1 :: stk]> (set_stacks <[L1:=[]]> s)))
    with (heap s).
  set (th := fresh_handle (heap s)) in *.
  set (sA := set_heap _ _).
  assert (heap sA !! th = Some (OThread (mkThread L1 false (Some this) None None))) as HthA
    by apply lookup_insert_eq.
  assert (heap sA !! this = Some (OThread t)) as HthisA
    by (unfold sA; simpl; rewrite lookup_insert_ne by congruence; exact Hthis).
  assert (stacks sA !! L1 = Some []) as HL1
    by (unfold sA; simpl; rewrite lookup_insert_ne by congruence; apply lookup_insert_eq).
  assert (stacks sA !! address t = Some (LThread L1 :: stk)) as HLA
    by apply lookup_insert_eq.
  assert (globals sA = globals s) as HgA by reflexivity.
  assert (heap sA = <[th := OThread (mkThread L1 false (Some this) None None)]> (heap s))
    as HhA by reflexivity.
  assert (trace sA = trace s) as HtA by reflexivity.
  assert (fn_table sA = fn_table s) as HfA by reflexivity.
  clearbody sA.
  unfold try_finally.
  match goal with
  | |- context [match ?body sA with _ => _ end] =>
      assert (body sA
              = (set_stacks <[L1 := [default LNil (globals s !! c_string name)]]> sA,
                 Fail (Throw (NotAFunction
                                (type_of_value (default LNil (globals s !! c_string name)))))))
        as Hbody
  end.
  { unfold lua_getglobal, push, put_stack. msteps. cbn [address]. msteps.
    rewrite HgA. rewrite (bool_decide_eq_true_2 _ Htype). reflexivity. }
  rewrite Hbody.
  unfold remove, lua_remove, put_stack. msteps.
  simpl length. rewrite position_top. msteps.
  eexists. split; [reflexivity|]. simpl.
  split; [apply lookup_insert_eq|].
  split; [rewrite lookup_insert_ne by congruence; apply lookup_insert_eq|].
  repeat split; assumption.
Qed.


Lemma call_not_a_function_witness :
  exists s1,
    call idle_world 1 1 "nothing" [] example_root = (s1, Fail (Throw (NotAFunction TNil))) /\
    stacks s1 !! 1 = Some [].
Proof.
  destruct (call_not_a_function idle_world 1 1 example_root_fields [] "nothing" []
              example_root) as (s1 & Hrun & Hstk & _).
  - vm_compute. reflexivity.
  - vm_compute. reflexivity.
  - vm_compute. discriminate.
  - exists s1. split; [exact Hrun|exact Hstk].
Defined.

(** ** Arrays and flat tables *)

Lemma text_scalar fuel h visiting v :
  primitive v -> ToString fuel h visiting v = text v.
Proof.
  destruct fuel, v as [| |[z|r]|str|[|]| | | | |]; try contradiction; reflexivity.
Qed.

Lemma ToPropertyKey_primitive h v : primitive v -> ToPropertyKey h v = Some (text v).
Proof.
  intros Hv. destruct v; try contradiction; unfold ToPropertyKey;
    rewrite text_scalar by exact Hv; reflexivity.
Qed.

Lemma ToPropertyKey_singleton h o v :
  h !! o = Some (OArray [v]) -> scalar v ->
  ToPropertyKey h (HObject o) = Some (text v).
Proof.
  intros Ho Hv. unfold ToPropertyKey. cbn [ToString]. rewrite Ho.
  rewrite bool_decide_eq_false_2 by apply not_elem_of_nil.
  cbn [map String.concat]. f_equal.
  destruct v as [| |n|str|b| | | | |]; try contradiction;
    apply text_scalar; exact I.
Qed.

Lemma slot_bottom_up stk a b :
  slot (a :: b :: stk) (Z.of_nat (length stk) + 1) = Some b.
Proof.
  unfold slot.
  destruct (Z.ltb_spec 0 (Z.of_nat (length stk) + 1)); [|lia].
  destruct (Z.leb_spec (Z.of_nat (length stk) + 1) (Z.of_nat (length (a :: b :: stk))));
    [|simpl length in *; lia].
  simpl length.
  replace (S (S (length stk)) - Z.to_nat (Z.of_nat (length stk) + 1))%nat with 1%nat by lia.
  reflexivity.
Qed.

Lemma slot_bottom_up3 stk a b c :
  slot (a :: b :: c :: stk) (Z.of_nat (length stk) + 1) = Some c.
Proof.
  unfold slot.
  destruct (Z.ltb_spec 0 (Z.of_nat (length stk) + 1)); [|lia].
  destruct (Z.leb_spec (Z.of_nat (length stk) + 1) (Z.of_nat (length (a :: b :: c :: stk))));
    [|simpl length in *; lia].
  simpl length.
  replace (S (S (S (length stk))) - Z.to_nat (Z.of_nat (length stk) + 1))%nat
    with 2%nat by lia.
  reflexivity.
Qed.

(** An array with one element that is a number, a string or a boolean is
    not pushed as a table holding that element: the cycle guard is keyed by
    the text of the array, which is the text of its element, so the element
    is taken for the array being converted and the new table holds itself
    under the key 1. *)
Theorem pushValue_singleton_array fuel this t stk o v s
    (Hthis : heap s !! this = Some (OThread t))
    (Hstk : stacks s !! address t = Some stk)
    (Harray : heap s !! o = Some (OArray [v]))
    (Hscalar : scalar v)
    (Hproto : text v <> "__proto__") :
  let p := fresh_handle (objects s) in
  exists s1 d,
    pushValue (S (S fuel)) this (HObject o) no_options s = (s1, Ok (Some d)) /\
    stacks s1 !! address t = Some (LTable p :: stk) /\
    objects s1 !! p = Some (VTable [(LInteger 1, LTable p)] None).
Proof.
  intros p. remember (S fuel) as f1 eqn:Hf1.
  cbn [pushValue]. msteps. unfold getValueDecorations. rewrite Harray.
  cbn [_done no_options done_lookup reference]. rewrite Harray.
  unfold pushTable, getTop, lua_gettop. msteps.
  rewrite (ToPropertyKey_singleton _ o v Harray Hscalar).
  unfold done_record. rewrite (bool_decide_eq_false_2 _ Hproto).
  unfold lua_createtable, push, put_stack. msteps. rewrite bind_new_object. fold p. msteps.
  set (s1 := set_stacks _ _).
  assert (heap s1 !! this = Some (OThread t)) as Hthis1 by exact Hthis.
  assert (stacks s1 !! address t = Some (LTable p :: stk)) as Hstk1 by apply lookup_insert_eq.
  assert (heap s1 = heap s) as Hheap1 by reflexivity.
  assert (objects s1 !! p = Some (VTable [] None)) as Hp1 by apply lookup_insert_eq.
  clearbody s1. subst f1.
  cbn [array_entries imap pushEntries length].
  change (Z.of_nat 0 + 1) with 1.
  change (default ∅ (@None (gmap string Z))) with (∅ : gmap string Z).
  rewrite !bind_bind.
  rewrite (bind_ok _ _ _ _ _
             (pushValue_primitive fuel this t (LTable p :: stk) (HNumber (Integral 1)) s1
                Hthis1 Hstk1 I)).
  cbn [pushed_as].
  set (s2 := set_stacks _ s1).
  assert (heap s2 !! this = Some (OThread t)) as Hthis2 by exact Hthis1.
  assert (stacks s2 !! address t = Some (LInteger 1 :: LTable p :: stk)) as Hstk2
    by apply lookup_insert_eq.
  assert (objects s2 !! p = Some (VTable [] None)) as Hp2 by exact Hp1.
  assert (heap s2 = heap s) as Hheap2 by exact Hheap1.
  clearbody s2.
  set (d0 := <[text v := Z.of_nat (length stk) + 1]> ∅).
  assert (pushValue (S fuel) this v (with_done d0) s2
          = (set_stacks <[address t := LTable p :: LInteger 1 :: LTable p :: stk]> s2,
             Ok (Some d0))) as Hhit.
  { apply (pushValue_hit fuel this t v v None (with_done d0)
             (Z.of_nat (length stk) + 1) (LTable p) (LInteger 1 :: LTable p :: stk) s2
             Hthis2 Hstk2).
    - unfold getValueDecorations. destruct v; try contradiction; reflexivity.
    - unfold done_lookup. cbn [_done with_done].
      rewrite ToPropertyKey_primitive by (destruct v; try contradiction; exact I).
      unfold d0. rewrite lookup_insert_eq.
      destruct (Z.eqb_spec (Z.of_nat (length stk) + 1) 0); [lia|reflexivity].
    - apply slot_bottom_up. }
  rewrite ?bind_bind. rewrite (bind_ok _ _ _ _ _ Hhit).
  unfold lua_settable, put_stack. msteps.
  rewrite slot_bottom_up3. msteps.
  change (typeof_object (decoration_prop (heap s) None "metatable")) with false.
  cbn iota. msteps.
  eexists _, _. split; [reflexivity|]. simpl.
  split; apply lookup_insert_eq.
Qed.

Lemma pushValue_singleton_array_witness :
  let s := set_heap <[50 := OArray [HString "x"]]> example_root in
  exists s1 d,
    pushValue 2 1 (HObject 50) no_options s = (s1, Ok (Some d)) /\
    stacks s1 !! 1 = Some [LTable (fresh_handle (objects s))] /\
    objects s1 !! fresh_handle (objects s)
      = Some (VTable [(LInteger 1, LTable (fresh_handle (objects s)))] None).
Proof.
  intros s.
  apply (pushValue_singleton_array 0 1 example_root_fields [] 50 (HString "x") s).
  - vm_compute. reflexivity.
  - vm_compute. reflexivity.
  - vm_compute. reflexivity.
  - exact I.
  - vm_compute. discriminate.
Defined.

Lemma key_text_key h k : primitive_slot k -> ToPropertyKey h (read_as k) = Some (key_text k).
Proof.
  intros Hk. apply ToPropertyKey_primitive.
  destruct k; try contradiction; exact I.
Qed.

Lemma set_property_flat o props k v s :
  heap s !! o = Some (OPlain props) ->
  primitive_slot k ->
  exists s1,
    set_property o (read_as k) (read_as v) s = (s1, Ok tt) /\
    heap s1 = <[o := OPlain (read_entry props (k, v))]> (heap s) /\
    stacks s1 = stacks s /\ objects s1 = objects s.
Proof.
  intros Ho Hk. unfold set_property. rewrite bind_get_state. rewrite Ho.
  rewrite (key_text_key _ k Hk). unfold read_entry. cbn [fst snd].
  case_bool_decide.
  - exists s. split; [reflexivity|]. split; [|split; reflexivity].
    symmetry. apply insert_id, Ho.
  - eexists. split; [reflexivity|]. repeat split.
Qed.

Lemma pop_one this t x stk s :
  heap s !! this = Some (OThread t) ->
  stacks s !! address t = Some (x :: stk) ->
  pop this 1 s = (set_stacks <[address t := stk]> s, Ok tt).
Proof.
  intros Hthis Hstk. unfold pop, lua_pop, put_stack. msteps.
  assert (((0 <=? 1) && (1 <=? Z.of_nat (length (x :: stk)))) = true) as ->.
  { apply andb_true_intro. split; [reflexivity|]. apply Z.leb_le. simpl length. lia. }
  reflexivity.
Qed.

Section FlatTable.
Context (this : Z) (t : ThreadFields) (p o : Z)
        (entries : list (LuaValue * LuaValue)) (mt : option Z)
        (stk : list LuaValue) (idx : Z) (fuel : nat).
Context (Hnodup : NoDup (entries.*1)) (Hnil : LNil ∉ entries.*1) (Hflat : flat entries).
Context (Hslot : forall k, slot (k :: stk) idx = Some (LTable p)).

Lemma getTableValue_loop_flat :
  forall n suf pre k props done s,
    entries = pre ++ suf ->
    traversed pre k ->
    (length suf < n)%nat ->
    heap s !! this = Some (OThread t) ->
    heap s !! o = Some (OPlain props) ->
    stacks s !! address t = Some (k :: stk) ->
    objects s !! p = Some (VTable entries mt) ->
    exists s1,
      getTableValue_loop (getValue (S fuel) this) n (address t) idx this o done s
        = (s1, Ok done) /\
      stacks s1 = <[address t := stk]> (stacks s) /\
      heap s1 = <[o := OPlain (foldl read_entry props suf)]> (heap s) /\
      objects s1 = objects s.
Proof.
  induction n as [|n IH]; intros suf pre k props done s HE Htr Hn Hthis Ho Hstk Hp; [lia|].
  cbn [getTableValue_loop].
  pose proof (next_entry_traversed _ _ _ _ Hnodup Hnil HE Htr) as Hnext.
  unfold lua_next, put_stack. msteps. rewrite Hslot. msteps. rewrite Hnext.
  destruct suf as [|[k' v'] suf']; cbn [head].
  - msteps. eexists. split; [reflexivity|]. simpl.
    split; [reflexivity|]. split; [|reflexivity].
    symmetry. apply insert_id, Ho.
  - msteps.
    assert ((k', v') ∈ entries) as Hin.
    { rewrite HE. apply elem_of_app. right. left. }
    destruct (proj1 (Forall_forall _ _) Hflat _ Hin) as [Hk' Hv']. cbn [fst snd] in Hk', Hv'.
    set (s1 := set_stacks <[address t := v' :: k' :: stk]> s).
    assert (heap s1 !! this = Some (OThread t)) as Hthis1 by exact Hthis.
    assert (stacks s1 !! address t = Some (v' :: k' :: stk)) as Hstk1
      by apply lookup_insert_eq.
    rewrite (bind_ok _ _ _ _ _
               (lua_type_slot _ (v' :: k' :: stk) (-2) k' s1 Hstk1 eq_refl)).
    rewrite (bind_ok _ _ _ _ _
               (getValue_primitive_slot fuel this t (v' :: k' :: stk) (-2) k'
                  (Some (type_of_value k')) (get_with_done done) s1 Hthis1 Hstk1
                  ltac:(lia)
                  (or_intror eq_refl
                     : consistent (Some (type_of_value k')) (v' :: k' :: stk) (-2))
                  eq_refl Hk')).
    rewrite (bind_ok _ _ _ _ _
               (lua_type_slot _ (v' :: k' :: stk) (-1) v' s1 Hstk1 eq_refl)).
    rewrite (bind_ok _ _ _ _ _
               (getValue_primitive_slot fuel this t (v' :: k' :: stk) (-1) v'
                  (Some (type_of_value v')) (get_with_done done) s1 Hthis1 Hstk1
                  ltac:(lia)
                  (or_intror eq_refl
                     : consistent (Some (type_of_value v')) (v' :: k' :: stk) (-1))
                  eq_refl Hv')).
    cbn [fst snd default from_option id get_done get_with_done].
    destruct (set_property_flat o props k' v' s1 Ho Hk') as (s2 & Hset & Hh2 & Hs2 & Ho2).
    rewrite (bind_ok _ _ _ _ _ Hset).
    assert (heap s2 !! this = Some (OThread t)) as Hthis2.
    { rewrite Hh2, lookup_insert_ne by congruence. exact Hthis. }
    assert (stacks s2 !! address t = Some (v' :: k' :: stk)) as Hstk2
      by (rewrite Hs2; exact Hstk1).
    rewrite (bind_ok _ _ _ _ _ (pop_one this t v' (k' :: stk) s2 Hthis2 Hstk2)).
    destruct (IH suf' (pre ++ [(k', v')]) k' (read_entry props (k', v')) done
                (set_stacks <[address t := k' :: stk]> s2))
      as (s3 & Hloop & Hs3 & Hh3 & Ho3).
    + rewrite <- app_assoc. exact HE.
    + right. eauto.
    + simpl in Hn. lia.
    + exact Hthis2.
    + simpl. rewrite Hh2. apply lookup_insert_eq.
    + simpl. apply lookup_insert_eq.
    + simpl. rewrite Ho2. exact Hp.
    + exists s3. split; [exact Hloop|]. simpl in Hs3, Hh3, Ho3.
      split; [|split].
      * rewrite Hs3, Hs2. simpl. rewrite !insert_insert_eq. reflexivity.
      * rewrite Hh3, Hh2. simpl. rewrite insert_insert_eq. reflexivity.
      * rewrite Ho3, Ho2. reflexivity.
Qed.

End FlatTable.



Lemma pushValue_primitive_unguarded fuel this t stk d e s :
  heap s !! this = Some (OThread t) ->
  stacks s !! address t = Some stk ->
  primitive e ->
  unguarded d e ->
  pushValue (S fuel) this e (with_done d) s
    = (set_stacks <[address t := pushed_as e :: stk]> s, Ok (Some d)).
Proof.
  intros Hthis Hstk Hprim [Hmiss Hinh]. cbn [pushValue]. msteps.
  assert (getValueDecorations (heap s) e = (e, None)) as ->
    by (destruct e; try contradiction; reflexivity).
  unfold done_lookup. cbn [_done with_done].
  rewrite (ToPropertyKey_primitive _ e Hprim), Hmiss, Hinh.
  cbn [reference with_done].
  destruct e as [| |[z|r]|str|b| | | | |]; try contradiction;
    unfold lua_pushnil, lua_pushinteger, lua_pushnumber, lua_pushstring,
      lua_pushboolean, push, put_stack;
    msteps; reflexivity.
Qed.

Lemma pushEntries_flat fuel this t p stk d :
  forall elems k acc s,
    heap s !! this = Some (OThread t) ->
    stacks s !! address t = Some (LTable p :: stk) ->
    objects s !! p = Some (VTable acc None) ->
    Forall primitive elems ->
    Forall (unguarded d) elems ->
    exists s1,
      pushEntries (pushValue (S fuel) this) (address t) (Z.of_nat (length stk) + 1)
        (imap (fun i e => (HNumber (Integral (Z.of_nat i + k)), e)) elems) d s
        = (s1, Ok d) /\
      stacks s1 !! address t = Some (LTable p :: stk) /\
      objects s1 = <[p := VTable (pushed_entries k elems acc) None]> (objects s) /\
      heap s1 = heap s.
Proof.
  induction elems as [|e elems IH]; intros k acc s Hthis Hstk Hp Hprim Hun.
  - exists s. split; [reflexivity|]. split; [exact Hstk|]. split; [|reflexivity].
    symmetry. apply insert_id, Hp.
  - apply Forall_cons in Hprim as [He Hprim]. apply Forall_cons in Hun as [Hue Hun].
    cbn [imap pushEntries]. change (Z.of_nat 0 + k) with k.
    rewrite (bind_ok _ _ _ _ _
               (pushValue_primitive fuel this t (LTable p :: stk) (HNumber (Integral k)) s
                  Hthis Hstk I)).
    cbn [pushed_as].
    set (s1 := set_stacks _ s).
    assert (heap s1 !! this = Some (OThread t)) as Hthis1 by exact Hthis.
    assert (stacks s1 !! address t = Some (LInteger (lua_Integer k) :: LTable p :: stk))
      as Hstk1 by apply lookup_insert_eq.
    rewrite (bind_ok _ _ _ _ _
               (pushValue_primitive_unguarded fuel this t _ d e s1 Hthis1 Hstk1 He Hue)).
    unfold lua_settable, put_stack. msteps. rewrite slot_bottom_up3. msteps.
    cbn [default from_option id].
    set (s2 := set_stacks _ _).
    destruct (IH (k + 1) (table_set acc (LInteger (lua_Integer k)) (pushed_as e)) s2)
      as (s3 & Hrun & Hs3 & Ho3 & Hh3).
    + exact Hthis.
    + apply lookup_insert_eq.
    + unfold s2. simpl. apply lookup_insert_eq.
    + exact Hprim.
    + exact Hun.
    + exists s3. split; [|split; [exact Hs3|split]].
      * rewrite <- Hrun. f_equal. apply imap_ext. intros i x _. simpl.
        do 3 f_equal. lia.
      * rewrite Ho3. unfold s2, s1. simpl. rewrite insert_insert_eq. reflexivity.
      * rewrite Hh3. reflexivity.
Qed.

(** An array of primitive values none of which the cycle guard takes for
    something else is pushed as a new table: the element at index [i] is
    stored under the integer key [i + 1], and an element that is [null] or
    [undefined] leaves no entry. *)
Theorem pushValue_flat_array fuel this t stk o elems key s
    (Hthis : heap s !! this = Some (OThread t))
    (Hstk : stacks s !! address t = Some stk)
    (Harray : heap s !! o = Some (OArray elems))
    (Hprim : Forall primitive elems)
    (Hkey : ToPropertyKey (heap s) (HObject o) = Some key)
    (Hmiss : Forall (fun e => text e <> key /\ inherited (text e) = false) elems) :
  let p := fresh_handle (objects s) in
  exists s1 d,
    pushValue (S (S fuel)) this (HObject o) no_options s = (s1, Ok (Some d)) /\
    stacks s1 !! address t = Some (LTable p :: stk) /\
    objects s1 = <[p := VTable (pushed_entries 1 elems []) None]> (objects s) /\
    heap s1 = heap s.
Proof.
  intros p. remember (S fuel) as f1 eqn:Hf1.
  cbn [pushValue]. msteps. unfold getValueDecorations. rewrite Harray.
  cbn [_done no_options done_lookup reference]. rewrite Harray.
  unfold pushTable, getTop, lua_gettop. msteps.
  rewrite Hkey.
  set (d0 := done_record _ _ _).
  assert (Forall (unguarded d0) elems) as Hun.
  { eapply Forall_impl; [exact Hmiss|]. intros e [Hne Hinh]. split; [|exact Hinh].
    unfold d0, done_record. case_bool_decide; [apply lookup_empty|].
    rewrite lookup_insert_ne by congruence. apply lookup_empty. }
  clearbody d0.
  unfold lua_createtable, push, put_stack. msteps. rewrite bind_new_object. fold p. msteps.
  set (s1 := set_stacks _ _).
  subst f1.
  destruct (pushEntries_flat fuel this t p stk d0 elems 1 [] s1)
    as (s2 & Hrun & Hs2 & Ho2 & Hh2).
  - exact Hthis.
  - apply lookup_insert_eq.
  - apply lookup_insert_eq.
  - exact Hprim.
  - exact Hun.
  - unfold array_entries. rewrite (bind_ok _ _ _ _ _ Hrun).
    change (typeof_object (decoration_prop (heap s) None "metatable")) with false.
    cbn iota. msteps.
    exists s2, d0. split; [reflexivity|]. split; [exact Hs2|]. split; [|exact Hh2].
    rewrite Ho2. unfold s1. simpl. rewrite insert_insert_eq. reflexivity.
Qed.

Lemma pushValue_flat_array_witness :
  let s := set_heap <[50 := OArray [HNumber (Integral 7); HNull; HString "b"]]>
             example_root in
  exists s1 d,
    pushValue 2 1 (HObject 50) no_options s = (s1, Ok (Some d)) /\
    objects s1 !! fresh_handle (objects s)
      = Some (VTable [(LInteger 1, LInteger 7); (LInteger 3, LString "b")] None).
Proof.
  intros s.
  destruct (pushValue_flat_array 0 1 example_root_fields [] 50
              [HNumber (Integral 7); HNull; HString "b"] "7,,b" s)
    as (s1 & d & Hrun & _ & Ho & _).
  - vm_compute. reflexivity.
  - vm_compute. reflexivity.
  - vm_compute. reflexivity.
  - repeat constructor.
  - vm_compute. reflexivity.
  - repeat constructor; vm_compute; congruence.
  - exists s1, d. split; [exact Hrun|]. rewrite Ho. apply lookup_insert_eq.
Defined.

(** ** What reading a value leaves behind *)

(** Whatever [getValue] reads, tables, functions and unknown userdata
    included, it hands the VM back as it found it: the stack of the context
    and the objects of the VM are unchanged, the context is still there, and
    the cycle-guard map has only grown. *)
Theorem getValue_leaves_vm s this t stk fuel idx type options r s1
    (Hthis : heap s !! this = Some (OThread t))
    (Hstk : stacks s !! address t = Some stk)
    (Hwf : wf_tables (objects s))
    (Htype : consistent type stk idx)
    (Hfuel : (size (objects s) + widest (objects s) + 1 < fuel)%nat)
    (Hrun : getValue fuel this idx type options s = (s1, Ok r)) :
  stacks s1 !! address t = Some stk /\
  objects s1 = objects s /\
  heap s1 !! this = Some (OThread t) /\
  default ∅ (get_done options) ⊆ snd r.
Proof.
  assert (get_inv this t (objects s) stk s) as Hinv by (repeat split; assumption).
  pose proof (runs_getValue this t (objects s) Hwf (widest (objects s))
                (entries_within_widest _) fuel idx type options stk Htype) as Hruns.
  pose proof (unvisited_bound (objects s) (default ∅ (get_done options))) as Hle.
  specialize (Hruns ltac:(lia) s Hinv). rewrite Hrun in Hruns. simpl in Hruns.
  destruct Hruns as [Hsub (H1 & H2 & H3)]. repeat split; assumption.
Qed.

Lemma getValue_leaves_vm_witness :
  let run := getValue 25 1 (-1) None no_get_options example_cyclic in
  stacks (fst run) !! 1 = Some [LTable 100] /\
  objects (fst run) = objects example_cyclic.
Proof.
  intros run.
  assert (exists r, run = (fst run, Ok r)) as [r Hr].
  { vm_compute. eexists. reflexivity. }
  destruct (getValue_leaves_vm example_cyclic 1 example_root_fields [LTable 100] 25 (-1)
              None no_get_options r (fst run)) as (H1 & H2 & _).
  - vm_compute. reflexivity.
  - vm_compute. reflexivity.
  - apply wf_tables_check_sound. vm_compute. reflexivity.
  - exact I.
  - vm_compute. lia.
  - exact Hr.
  - split; assumption.
Defined.

(** ** [run]: a guest that yields a value that is no promise *)

Lemma resume_ok (W : World) this t argCount s s1 r :
  heap s !! this = Some (OThread t) ->
  lua_resume W (address t) argCount (emit (EResume (address t) argCount) s) = (s1, r) ->
  result r = ROk \/ result r = RYield ->
  resume W this argCount s = (s1, Ok r).
Proof.
  intros Hthis Hresume Hr. unfold resume. msteps.
  unfold lift, bind at 1. rewrite Hresume.
  rewrite (bind_ok _ _ _ _ _ (assertOk_ok this (result r) s1 Hr)). reflexivity.
Qed.

Lemma pop_count this t stk count s :
  heap s !! this = Some (OThread t) ->
  stacks s !! address t = Some stk ->
  0 <= count <= Z.of_nat (length stk) ->
  pop this count s = (set_stacks <[address t := drop (Z.to_nat count) stk]> s, Ok tt).
Proof.
  intros Hthis Hstk Hc. unfold pop, lua_pop, put_stack. msteps.
  assert (((0 <=? count) && (count <=? Z.of_nat (length stk))) = true) as ->.
  { apply andb_true_intro. split; apply Z.leb_le; lia. }
  reflexivity.
Qed.

(** When the guest yields values the last of which is a primitive, not a
    promise, [run] drops every yielded value and resumes the guest with no
    arguments; when the guest then ends, [run] returns that result.  The
    stack dumps on the way change nothing. *)
Theorem run_yield_plain (W : World) fuel this t argCount count v rest stk3 r3 s s1 s3
    (Hthis : heap s !! this = Some (OThread t))
    (Hfirst : lua_resume W (address t) argCount
                (emit (EResume (address t) argCount) s)
              = (s1, mkResume RYield count))
    (Hthis1 : heap s1 !! this = Some (OThread t))
    (Hstk1 : stacks s1 !! address t = Some (v :: rest))
    (Hcount : 0 < count <= Z.of_nat (length (v :: rest)))
    (Hplain : primitive_slot v)
    (Hsecond : lua_resume W (address t) 0
                 (emit (EResume (address t) 0)
                    (set_stacks <[address t := drop (Z.to_nat count) (v :: rest)]> s1))
               = (s3, r3))
    (Hend : result r3 = ROk)
    (Hthis3 : heap s3 !! this = Some (OThread t))
    (Hstk3 : stacks s3 !! address t = Some stk3) :
  run W (S (S fuel)) this argCount s = (s3, Ok r3).
Proof.
  unfold run.
  rewrite (bind_ok _ _ _ _ _
             (resume_ok W this t argCount s s1 _ Hthis Hfirst ltac:(right; reflexivity))).
  cbn [run_loop result resultCount].
  rewrite (bool_decide_eq_true_2 _ eq_refl).
  unfold run_body. cbn [resultCount]. rewrite !bind_bind.
  rewrite (bind_ok _ _ _ _ _ (dumpStack_quiet this t _ s1 Hthis1 Hstk1)).
  destruct (Z.ltb_spec 0 count) as [_|?]; [|lia].
  rewrite !bind_bind.
  rewrite (bind_ok _ _ _ _ _
             (getValue_primitive_slot (S fuel) this t (v :: rest) (-1) v None
                no_get_options s1 Hthis1 Hstk1 ltac:(lia) I eq_refl Hplain)).
  rewrite ?bind_bind.
  rewrite (bind_ok _ _ _ _ _
             (pop_count this t (v :: rest) count s1 Hthis1 Hstk1 ltac:(lia))).
  set (s2 := set_stacks _ s1) in *.
  assert (heap s2 !! this = Some (OThread t)) as Hthis2 by exact Hthis1.
  assert (stacks s2 !! address t = Some (drop (Z.to_nat count) (v :: rest))) as Hstk2
    by apply lookup_insert_eq.
  rewrite ?bind_bind. rewrite bind_get_state. cbn [fst].
  assert (is_promise (heap s2) (read_as v) = false) as ->
    by (destruct v; try contradiction; reflexivity).
  rewrite (bind_ok _ _ _ _ _ (dumpStack_quiet this t _ s2 Hthis2 Hstk2)).
  rewrite (bind_ok _ _ _ _ _
             (resume_ok W this t 0 s2 s3 r3 Hthis2 Hsecond ltac:(left; exact Hend))).
  rewrite Hend. rewrite bool_decide_eq_false_2 by discriminate.
  rewrite (bind_ok _ _ _ _ _ (dumpStack_quiet this t _ s3 Hthis3 Hstk3)).
  reflexivity.
Qed.

Lemma run_yield_plain_witness :
  let W := mkWorld
             (fun L n s =>
                if n =? 2
                then (set_stacks <[L := [LString "tick"; LInteger 1]]> s, mkResume RYield 2)
                else (set_stacks <[L := [LInteger 9]]> s, mkResume ROk 1))
             (fun _ s => (s, ROk)) (fun _ _ => ret HUndefined) in
  exists s3,
    run W 2 1 2 example_root = (s3, Ok (mkResume ROk 1)) /\
    stacks s3 !! 1 = Some [LInteger 9].
Proof.
  intros W.
  eexists. split.
  - apply (run_yield_plain W 0 1 example_root_fields 2 2 (LString "tick") [LInteger 1]
             [LInteger 9] (mkResume ROk 1) example_root
             (set_stacks <[1 := [LString "tick"; LInteger 1]]>
                (emit (EResume 1 2) example_root))).
    + vm_compute. reflexivity.
    + reflexivity.
    + vm_compute. reflexivity.
    + vm_compute. reflexivity.
    + simpl. lia.
    + exact I.
    + reflexivity.
    + reflexivity.
    + vm_compute. reflexivity.
    + vm_compute. reflexivity.
  - vm_compute. reflexivity.
Defined.

(** ** The metatable set-up of the constructor *)

Lemma lua_pop_one L x stk s :
  stacks s !! L = Some (x :: stk) ->
  lua_pop L 1 s = (set_stacks <[L := stk]> s, Ok tt).
Proof.
  intros Hstk. unfold lua_pop, put_stack. msteps.
  assert (((0 <=? 1) && (1 <=? Z.of_nat (length (x :: stk)))) = true) as ->.
  { apply andb_true_intro. split; [reflexivity|]. apply Z.leb_le. simpl length. lia. }
  reflexivity.
Qed.

(** The set-up of a gc metatable is neutral on the stack and happens once:
    where the metatable is registered already the state is left as it is;
    otherwise a new table is registered under the name, with the name, a
    closure of the gc function under [__gc] and the protection string under
    [__metatable], and every older object is kept. *)
Theorem installGcMetatable_once L tname gcPointer stk s
    (Hstk : stacks s !! L = Some stk) :
  match metatables s !! LuaMetatables_name tname with
  | Some _ => installGcMetatable L tname gcPointer s = (s, Ok tt)
  | None =>
      exists s1 m g,
        installGcMetatable L tname gcPointer s = (s1, Ok tt) /\
        stacks s1 !! L = Some stk /\
        metatables s1 = <[LuaMetatables_name tname := m]> (metatables s) /\
        objects s1 !! m
          = Some (VTable [(LString "__name", LString (LuaMetatables_name tname));
                          (LString "__gc", LFunction g);
                          (LString "__metatable", LString "protected metatable")] None) /\
        objects s1 !! g = Some (VCClosure gcPointer []) /\
        objects s !! m = None /\ objects s !! g = None /\
        (forall x o, objects s !! x = Some o -> objects s1 !! x = Some o) /\
        fn_table s1 = fn_table s /\ heap s1 = heap s
  end.
Proof.
  destruct (metatables s !! LuaMetatables_name tname) as [m|] eqn:Hmt.
  - unfold installGcMetatable, luaL_newmetatable, push, put_stack.
    msteps. rewrite Hmt. msteps.
    rewrite (lua_pop_one L (LTable m) stk) by apply lookup_insert_eq.
    rewrite (push_pop_same s _ _ _ Hstk). reflexivity.
  - set (m := fresh_handle (objects s)).
    set (g := fresh_handle (<[m := VTable [(LString "__name",
                                            LString (LuaMetatables_name tname))] None]>
                              (objects s))).
    assert (g <> m) as Hgm.
    { intros Heq. pose proof (fresh_handle_fresh
        (<[m := VTable [(LString "__name", LString (LuaMetatables_name tname))] None]>
           (objects s))) as Hg.
      fold g in Hg. rewrite Heq, lookup_insert_eq in Hg. discriminate. }
    assert (objects s !! g = None) as Hg.
    { pose proof (fresh_handle_fresh
        (<[m := VTable [(LString "__name", LString (LuaMetatables_name tname))] None]>
           (objects s))) as Hg.
      fold g in Hg. rewrite lookup_insert_ne in Hg by congruence. exact Hg. }
    eexists _, m, g.
    unfold installGcMetatable, luaL_newmetatable, lua_pushstring, lua_pushcclosure,
      lua_settable, push, put_stack.
    msteps. rewrite Hmt. msteps. rewrite bind_new_object. fold m. msteps.
    simpl length.
    assert (forall n : nat, ((0 <=? 0) && (0 <=? Z.of_nat n)) = true) as Hzero.
    { intros n. apply andb_true_intro. split; [reflexivity|]. apply Z.leb_le. lia. }
    rewrite Hzero. msteps. rewrite bind_new_object. simpl objects. fold g. msteps.
    change (slot (LFunction g :: LString "__gc" :: LTable m :: stk) (-3))
      with (Some (LTable m)).
    cbn beta iota. msteps.
    change (slot (LString "protected metatable" :: LString "__metatable"
                  :: LTable m :: stk) (-3)) with (Some (LTable m)).
    cbn beta iota. msteps.
    rewrite (lua_pop_one L (LTable m) stk) by apply lookup_insert_eq.
    split; [reflexivity|]. simpl.
    split; [apply lookup_insert_eq|].
    split; [reflexivity|].
    split; [apply lookup_insert_eq|].
    split; [rewrite !lookup_insert_ne by congruence; apply lookup_insert_eq|].
    split; [apply fresh_handle_fresh|].
    split; [exact Hg|].
    split; [|split; reflexivity].
    intros x o Hx.
    assert (x <> m) by (intros ->; unfold m in Hx; rewrite fresh_handle_fresh in Hx;
                        discriminate).
    assert (x <> g) by congruence.
    rewrite !lookup_insert_ne by congruence. exact Hx.
Qed.

Lemma installGcMetatable_once_witness :
  installGcMetatable 1 JsReference 3 example_root = (example_root, Ok tt).
Proof.
  pose proof (installGcMetatable_once 1 JsReference 3 [] example_root) as H.
  assert (exists m, metatables example_root !! LuaMetatables_name JsReference = Some m)
    as [m Hm] by (vm_compute; eauto).
  rewrite Hm in H. apply H. vm_compute. reflexivity.
Defined.

(** ** [newThread]: the coroutine stays on the parent's stack *)

(** [newThread()] on a context with a stack returns a new wrapper whose
    parent is the context and whose VM state is new and empty; the
    coroutine value that [lua_newthread] pushed is still on top of the
    context's own stack afterwards, which is one slot deeper than before:
    nothing pops it. *)
Theorem newThread_keeps_coroutine this t stk s
    (Hthis : heap s !! this = Some (OThread t))
    (Hstk : stacks s !! address t = Some stk) :
  exists th L1 s1,
    newThread this s = (s1, Ok th) /\
    heap s !! th = None /\ stacks s !! L1 = None /\ L1 <> 0 /\
    heap s1 = <[th := OThread (mkThread L1 false (Some this) None None)]> (heap s) /\
    stacks s1 = <[address t := LThread L1 :: stk]> (<[L1 := []]> (stacks s)) /\
    objects s1 = objects s /\ fn_table s1 = fn_table s /\
    getTop th s1 = (s1, Ok 0) /\
    getTop this s1 = (s1, Ok (Z.of_nat (length stk) + 1)).
Proof.
  set (L1 := fresh_handle (stacks s)).
  set (th := fresh_handle (heap s)).
  assert (address t <> L1) as HL by (eapply fresh_handle_ne; exact Hstk).
  assert (this <> th) as Hth by (eapply fresh_handle_ne; exact Hthis).
  exists th, L1.
  exists (set_heap <[th := OThread (mkThread L1 false (Some this) None None)]>
            (set_stacks <[address t := LThread L1 :: stk]> (set_stacks <[L1 := []]> s))).
  split.
  { unfold newThread, lua_newthread, push, put_stack.
    msteps. fold L1. clearbody L1. msteps. unfold new_host. reflexivity. }
  set (s1 := set_heap _ _).
  assert (heap s1 !! th = Some (OThread (mkThread L1 false (Some this) None None))) as HthA
    by apply lookup_insert_eq.
  assert (heap s1 !! this = Some (OThread t)) as HthisA
    by (unfold s1; simpl; rewrite lookup_insert_ne by congruence; exact Hthis).
  assert (stacks s1 !! L1 = Some []) as HL1
    by (unfold s1; simpl; rewrite lookup_insert_ne by congruence; apply lookup_insert_eq).
  assert (stacks s1 !! address t = Some (LThread L1 :: stk)) as HLA
    by apply lookup_insert_eq.
  split; [apply fresh_handle_fresh|].
  split; [apply fresh_handle_fresh|].
  split; [apply fresh_handle_nonzero|].
  split; [reflexivity|]. split; [reflexivity|].
  split; [reflexivity|]. split; [reflexivity|].
  clearbody s1. split.
  - unfold getTop, lua_gettop. msteps. reflexivity.
  - unfold getTop, lua_gettop. msteps.
    replace (Z.of_nat (length (LThread L1 :: stk))) with (Z.of_nat (length stk) + 1)
      by (simpl length; lia).
    reflexivity.
Qed.

Lemma newThread_keeps_coroutine_witness :
  exists th L1 s1,
    newThread 1 example_root = (s1, Ok th) /\
    heap example_root !! th = None /\ stacks example_root !! L1 = None /\ L1 <> 0 /\
    heap s1 = <[th := OThread (mkThread L1 false (Some 1) None None)]> (heap example_root) /\
    stacks s1 = <[address example_root_fields := LThread L1 :: []]>
                  (<[L1 := []]> (stacks example_root)) /\
    objects s1 = objects example_root /\ fn_table s1 = fn_table example_root /\
    getTop th s1 = (s1, Ok 0) /\
    getTop 1 s1 = (s1, Ok (Z.of_nat (length (@nil LuaValue)) + 1)).
Proof.
  apply (newThread_keeps_coroutine 1 example_root_fields [] example_root);
    reflexivity.
Defined.

(** ** A host function that returns a promise, pushed with [await] *)

(** A call from the guest of a host function pushed with the await option
    and without the raw option, with primitive arguments, whose result is a
    promise: the previous continuance of the pushing context, if any, leaves
    the function table and a new one enters it and becomes the context's
    continuance; a new promise, the one that stores the result of the
    returned promise in a new cell, is pushed on the calling state as a host
    reference on top of the arguments; the call yields that one value to the
    new continuance and returns the yield status. *)
Theorem host_call_await (W : World) fuel this t calledL stk target source kind m s
    (Hthis : heap s !! this = Some (OThread t))
    (Hparent : forall p, parent t = Some p -> exists pt, heap s !! p = Some (OThread pt))
    (Hstk : stacks s !! calledL = Some stk)
    (Hargs : Forall primitive_slot stk)
    (Hpure : forall s', apply W target (read_as <$> reverse stk) s'
                        = (s', Ok (HObject source)))
    (Hpromise : heap s !! source = Some (OPromise kind))
    (Hmt : metatables s !! LuaMetatables_name JsReference = Some m) :
  let released := match continuance t with
                  | Some p => delete p (fn_table s)
                  | None => fn_table s
                  end in
  exists s1 k cell promise u h,
    hostFunctionCallback W (S fuel) this target None (mkCallbackOptions false true)
                         calledL s
      = (s1, Ok (Integral 1)) /\
    released !! k = None /\
    fn_table s1 = <[k := NContinuance this calledL false cell]> released /\
    heap s1 !! this = Some (OThread (set_continuance (Some k) t)) /\
    heap s !! cell = None /\ heap s1 !! cell = Some (OCell HUndefined) /\
    heap s !! promise = None /\
    heap s1 !! promise = Some (OPromise (ThenStore source cell)) /\
    stacks s1 !! calledL = Some (LUserData u :: stk) /\
    objects s !! u = None /\ objects s1 !! u = Some (VUserData h (Some m)) /\
    refs s !! h = None /\ refs s1 !! h = Some (HObject promise) /\
    trace s1 = trace s ++ match continuance t with
                          | Some p => [ERemoveFunction p]
                          | None => []
                          end ++ [EAddFunction k; EYield calledL 1 k k].
Proof.
  intros released.
  destruct (stateToThread_result this t calledL s Hthis Hparent)
    as (th & fields & s0 & Hrun & Hth & Haddr & Hthis0 & Hcase).
  assert (stacks s0 = stacks s /\ fn_table s0 = fn_table s /\ refs s0 = refs s /\
          objects s0 = objects s /\ metatables s0 = metatables s /\ trace s0 = trace s)
    as (Hs0 & Hf0 & Hr0 & Ho0 & Hm0 & Ht0).
  { destruct Hcase as [[-> _]|(-> & _)]; repeat split. }
  assert (forall x o, heap s !! x = Some o -> heap s0 !! x = Some o) as Hgrow.
  { intros x o Hx. destruct Hcase as [[-> _]|(-> & Hnew & _)]; [exact Hx|].
    simpl. rewrite lookup_insert_ne; [exact Hx|]. intros ->. congruence. }
  assert (forall x, heap s0 !! x = None -> heap s !! x = None) as Hshrink.
  { intros x Hx. destruct (heap s !! x) as [o|] eqn:Ho; [|reflexivity].
    apply Hgrow in Ho. congruence. }
  assert (stacks s0 !! address fields = Some stk) as Hstk0 by (rewrite Hs0, Haddr; exact Hstk).
  unfold hostFunctionCallback, lua_gettop. msteps.
  rewrite (bind_ok _ _ _ _ _ Hrun). msteps.
  pose proof (collectArgs_primitive fuel (heap s0) th fields stk s0 Hth Hstk0
                (length stk) ltac:(lia)) as Hcollect.
  rewrite firstn_all in Hcollect. specialize (Hcollect Hargs).
  replace (Z.of_nat (length stk) - Z.of_nat (length stk) + 1) with 1 in Hcollect by lia.
  rewrite Nat2Z.id. rewrite (bind_ok _ _ _ _ _ Hcollect).
  cbn [cb_raw cb_await app]. rewrite (bind_ok _ _ _ _ _ (Hpure s0)). msteps.
  assert (is_promise (heap s0) (HObject source) = true) as ->
    by (unfold is_promise; rewrite (Hgrow _ _ Hpromise); reflexivity).
  cbn [negb orb].
  (* the cell *)
  rewrite bind_new_host.
  set (cell := fresh_handle (heap s0)).
  assert (heap s0 !! cell = None) as Hcell by apply fresh_handle_fresh.
  set (sA := set_heap <[cell := OCell HUndefined]> s0).
  assert (heap sA !! this = Some (OThread t)) as HthisA.
  { unfold sA. simpl. rewrite lookup_insert_ne; [exact Hthis0|]. intros <-. congruence. }
  (* the continuance *)
  rewrite ?bind_bind.
  rewrite (bind_ok _ _ _ _ _ (installContinuance_spec this t calledL false cell sA HthisA)).
  change (fn_table sA) with (fn_table s0). rewrite Hf0. fold released.
  set (k := fresh_handle released).
  assert (released !! k = None) as Hk by apply fresh_handle_fresh.
  set (sB := mkState _ _ _ _ _ _ _ _ _).
  (* the promise *)
  rewrite bind_new_host.
  set (promise := fresh_handle (heap sB)).
  assert (heap sB !! promise = None) as Hfresh by apply fresh_handle_fresh.
  set (sC := set_heap _ sB).
  assert (promise <> this) as Hpt.
  { intros Heq. rewrite Heq in Hfresh. unfold sB in Hfresh. simpl in Hfresh.
    rewrite lookup_insert_eq in Hfresh. discriminate Hfresh. }
  assert (promise <> cell) as Hpc.
  { intros Heq. rewrite Heq in Hfresh. unfold sB, sA in Hfresh. simpl in Hfresh.
    destruct (decide (this = cell)) as [<-|Hne].
    - rewrite lookup_insert_eq in Hfresh. discriminate Hfresh.
    - rewrite lookup_insert_ne, lookup_insert_eq in Hfresh by exact Hne.
      discriminate Hfresh. }
  assert (this <> cell) as Htc by (intros <-; congruence).
  assert (heap s0 !! promise = None) as Hp0.
  { unfold sB, sA in Hfresh. simpl in Hfresh.
    rewrite !lookup_insert_ne in Hfresh by congruence. exact Hfresh. }
  assert (exists f', heap sC !! th = Some (OThread f') /\ address f' = calledL)
    as (f' & HthC & Haddr').
  { destruct (decide (th = this)) as [->|Hne].
    - exists (set_continuance (Some k) t). split.
      + unfold sC, sB. simpl. rewrite lookup_insert_ne by congruence.
        apply lookup_insert_eq.
      + simpl. congruence.
    - exists fields. split; [|exact Haddr].
      unfold sC, sB, sA. simpl.
      rewrite !lookup_insert_ne; try congruence; intros <-; congruence. }
  assert (heap sC !! this = Some (OThread (set_continuance (Some k) t))) as HthisC.
  { unfold sC, sB. simpl. rewrite lookup_insert_ne by congruence. apply lookup_insert_eq. }
  assert (heap sC !! cell = Some (OCell HUndefined)) as HcellC.
  { unfold sC, sB, sA. simpl. rewrite !lookup_insert_ne by congruence.
    apply lookup_insert_eq. }
  assert (heap sC !! promise = Some (OPromise (ThenStore source cell))) as HpC
    by apply lookup_insert_eq.
  assert (stacks sC = stacks s /\ objects sC = objects s /\ refs sC = refs s /\
          metatables sC = metatables s /\
          fn_table sC = <[k := NContinuance this calledL false cell]> released /\
          trace sC = trace s ++ match continuance t with
                                | Some p => [ERemoveFunction p]
                                | None => []
                                end ++ [EAddFunction k])
    as (HsC & HoC & HrC & HmC & HfC & HtC).
  { unfold sC, sB, sA. simpl. rewrite Ht0. repeat split; assumption. }
  clearbody sC. clear Hfresh. clearbody promise. clear sB. clearbody k cell.
  assert (stacks sC !! address f' = Some stk) as HstkC by (rewrite HsC, Haddr'; exact Hstk).
  assert (metatables sC !! LuaMetatables_name JsReference = Some m) as HmtC
    by (rewrite HmC; exact Hmt).
  destruct (createAndPushJsReference_ok th f' stk m (HObject promise) sC HthC HstkC HmtC)
    as (sD & Hpush & HsD & HoD & HrD & HhD & HmD & HfD & _ & _ & HtD).
  msteps. rewrite (bind_ok _ _ _ _ _ Hpush).
  assert (heap sD !! th = Some (OThread f')) as HthD by (rewrite HhD; exact HthC).
  assert (stacks sD !! address f' = Some (LUserData (fresh_handle (objects sC)) :: stk))
    as HstkD by (rewrite HsD; apply lookup_insert_eq).
  rewrite ?bind_bind.
  rewrite (bind_ok _ _ _ _ _ (dumpStack_quiet th f' _ sD HthD HstkD)).
  assert (heap sD !! this = Some (OThread (set_continuance (Some k) t))) as HthisD
    by (rewrite HhD; exact HthisC).
  rewrite Haddr' in HstkD.
  msteps. cbn [continuance set_continuance]. unfold lua_yieldk. msteps.
  exists (emit (EYield calledL 1 k k) sD), k, cell, promise,
    (fresh_handle (objects sC)), (fresh_handle (refs sC)).
  split; [reflexivity|]. split; [exact Hk|].
  split; [simpl; congruence|].
  split; [exact HthisD|].
  split; [apply Hshrink, Hcell|].
  split; [simpl; rewrite HhD; exact HcellC|].
  split; [apply Hshrink, Hp0|].
  split; [simpl; rewrite HhD; exact HpC|].
  split; [exact HstkD|].
  split; [rewrite HoC; apply fresh_handle_fresh|].
  split; [simpl; rewrite HoD; apply lookup_insert_eq|].
  split; [rewrite HrC; apply fresh_handle_fresh|].
  split; [simpl; rewrite HrD; apply lookup_insert_eq|].
  simpl. rewrite HtD, HtC. rewrite <- !app_assoc. reflexivity.
Qed.

Lemma host_call_await_witness :
  let s := set_stacks <[1 := [LString "b"; LInteger 2]]> example_rejecting in
  exists s1 k cell promise u,
    hostFunctionCallback (host_world (HObject 30)) 1 1 (HFunction 31) None
                         (mkCallbackOptions false true) 1 s
      = (s1, Ok (Integral 1)) /\
    fn_table s1 = <[k := NContinuance 1 1 false cell]> (fn_table s) /\
    heap s1 !! promise = Some (OPromise (ThenStore 30 cell)) /\
    stacks s1 !! 1 = Some [LUserData u; LString "b"; LInteger 2].
Proof.
  intros s.
  assert (exists kind m, heap s !! 30 = Some (OPromise kind) /\
            metatables s !! LuaMetatables_name JsReference = Some m)
    as (kind & m & Hp & Hm).
  { vm_compute. eexists _, _. repeat split. }
  destruct (host_call_await (host_world (HObject 30)) 0 1 example_root_fields 1
              [LString "b"; LInteger 2] (HFunction 31) 30 kind m s)
    as (s1 & k & cell & promise & u & h & Hrun & _ & Hfn & _ & _ & _ & _ & Hpr & Hstk & _).
  - vm_compute. reflexivity.
  - intros p Hq. discriminate Hq.
  - vm_compute. reflexivity.
  - repeat constructor.
  - intros s'. reflexivity.
  - exact Hp.
  - exact Hm.
  - exists s1, k, cell, promise, u. repeat split; assumption.
Defined.
